(** * The osu! rule set of danser-go: judgement, scoring and fail logic

    A shallow embedding of [app/rulesets/osu/ruleset.go] (package [osu]):
    the click-eligibility resolver [CanBeHit], the result aggregator
    [SendResult], the fail handler [failInternal], the frame functions
    [Update], [UpdateClickFor], [UpdateNormalFor], [UpdatePostFor], the
    constructor [NewOsuRuleset] and the query [IsPerfect].

    Conventions of the embedding:
    - [int64] and [int] values are integers in [Z]; the arithmetic on
      stored counters and on click times is followed by [wrap64] (indices
      bounded by the length of a slice cannot overflow);
    - a finite [float64] value is the rational it stands for, next to the
      IEEE special values; the sum, the difference and the conversion
      from [int64] that [CanBeHit] computes are rounded to the nearest
      [float64] ([round64]), the quotients of [SendResult] are exact;
    - a Go panic (nil dereference, index out of range) is [None];
    - pointers to cursors and targets are addresses ([positive]);
    - calls of the registered listeners are recorded, in order, as a list
      of [Event]s returned next to the new state. *)

From Stdlib Require Import ZArith QArith Qround Qabs Qpower SpecFloat Lia.
From stdpp Require Import base option gmap list.

Close Scope Q_scope.
Open Scope Z_scope.

(** ** Machine integers and floating point numbers *)

Definition wrap64 (z : Z) : Z := (z + 2 ^ 63) mod 2 ^ 64 - 2 ^ 63.

Definition in_int64 (z : Z) : Prop := - 2 ^ 63 <= z < 2 ^ 63.

Inductive float64 : Type :=
| Fnum (q : Q)
| FInf (negative : bool)
| FNaN.

Definition Qlt_bool (a b : Q) : bool := negb (Qle_bool b a).

(** [a / b] on two finite operands. *)
Definition fdiv (a b : Q) : float64 :=
  if Qeq_bool b 0 then
    if Qlt_bool 0 a then FInf false
    else if Qlt_bool a 0 then FInf true
    else FNaN
  else Fnum (a / b).

(** [x > c] and [x < c] against a finite constant; comparisons with NaN
    are false. *)
Definition fgt (x : float64) (c : Q) : bool :=
  match x with
  | Fnum q => Qlt_bool c q
  | FInf negative => negb negative
  | FNaN => false
  end.

Definition flt (x : float64) (c : Q) : bool :=
  match x with
  | Fnum q => Qlt_bool q c
  | FInf negative => negative
  | FNaN => false
  end.

(** [a <= b]; comparisons with NaN are false. *)
Definition fle (a b : float64) : bool :=
  match a, b with
  | FNaN, _ | _, FNaN => false
  | Fnum x, Fnum y => Qle_bool x y
  | FInf true, _ => true
  | _, FInf false => true
  | _, _ => false
  end.

(** [math.Abs]. *)
Definition fabs (x : float64) : float64 :=
  match x with
  | Fnum q => Fnum (Qabs q)
  | FInf _ => FInf false
  | FNaN => FNaN
  end.

(** [floor (log2 q)] of a positive rational. *)
Definition Qlog2 (q : Q) : Z :=
  let k := Z.log2 (Qnum q) - Z.log2 (Z.pos (Qden q)) in
  if Qle_bool (2 ^ k) q then k else k - 1.

(** The nearest integer, a tie going to the even one. *)
Definition roundEven (q : Q) : Z :=
  let f := Qfloor q in
  match (q - inject_Z f ?= 1 # 2)%Q with
  | Lt => f
  | Gt => f + 1
  | Eq => if Z.even f then f else f + 1
  end.

(** The [float64] nearest to a real number, as IEEE 754 rounds the exact
    result of an operation (to nearest, ties to even): 53 bits of
    precision, the exponent of the last place at least -1074, and
    infinity from [2^1024] on. *)
Definition round64 (q : Q) : float64 :=
  if Qeq_bool q 0 then Fnum 0
  else
    let a := Qabs q in
    let ulp := (2 ^ (Z.max (Qlog2 a) (-1022) - 52))%Q in
    let v := (inject_Z (roundEven (a / ulp)) * ulp)%Q in
    if Qle_bool (2 ^ 1024) v then FInf (Qlt_bool q 0)
    else Fnum (Qred (if Qlt_bool q 0 then - v else v)).

(** [a + b] and [a - b] on two finite operands, and [float64(z)] of an
    [int64]. *)
Definition fadd (a b : Q) : float64 := round64 (a + b).

Definition fsub (a b : Q) : float64 := round64 (a - b).

Definition ofInt64 (z : Z) : float64 := round64 (inject_Z z).

(** The value of a float of the Standard Library's specification of
    IEEE 754 ([SpecFloat]), against which [round64] is checked below. *)
Definition ofSpec (f : spec_float) : float64 :=
  match f with
  | S754_zero _ => Fnum 0
  | S754_infinity negative => FInf negative
  | S754_nan => FNaN
  | S754_finite negative m e =>
      Fnum (Qred ((if negative then -1 else 1) * inject_Z (Z.pos m) * 2 ^ e))
  end.

(** [int64(f)] of a finite float: truncation toward zero.  For a value
    outside [int64] Go leaves the result to the implementation; the
    truncation is kept as it is and the arithmetic that follows wraps. *)
Definition Qtrunc (q : Q) : Z := Z.quot (Qnum q) (Z.pos (Qden q)).

(** [l[i]] for a signed index; out of range panics. *)
Definition index {A : Type} (l : list A) (i : Z) : option A :=
  if i <? 0 then None else l !! Z.to_nat i.

(** Modelled from the spec: [mutils.MaxI64] lives in
    [framework/math/mutils]; the spec uses it as the maximum of two
    integers ([max(0, numCounted-1)], "max combo observed"). *)
Definition MaxI64 (a b : Z) : Z := Z.max a b.

(** ** Enumerations of the package *)

Definition Tolerance2B : Z := 3.

Module Grade.
Inductive t : Type := D | C | B | A | S | SH | SS | SSH | NONE.
End Grade.

Inductive ClickAction : Type := Ignored | Shake | Click.

Module ComboResults.
Inductive t : Type := Reset | Hold | Increase.
End ComboResults.

(** [HitResult] and [Modifier] are [int64] bit masks. *)
Abbreviation HitResult := Z (only parsing).
Abbreviation Modifier := Z (only parsing).

(** ** Beatmap data ([app/beatmap], read only) *)

(** The concrete type behind an [objects.IHitObject]; of a slider's
    [ScorePoints] only the length is read. *)
Inductive ObjectKind : Type :=
| KCircle
| KSlider (ScorePoints : list unit)
| KSpinner.

Record IHitObject : Type := {
  kind : ObjectKind;
  GetStartTime : Q;
  GetEndTime : Q;
  IsNewCombo : bool;
  GetStackIndex : Modifier -> Z
}.

Record Difficulty : Type := { Mods : Modifier }.

Record BeatMap : Type := {
  HitObjects : list IHitObject;
  Diff : Difficulty
}.

(** ** Declarations used by the rule set and made elsewhere in the
       repository

    The outcome codes of [hitresult.go], the modifier flags and helpers
    of [app/beatmap/difficulty] and the button flags are taken as
    parameters: no theorem below depends on their values beyond what its
    statement says. *)

Class Declarations : Type := {
  (* hitresult.go *)
  Ignore : HitResult;
  Miss : HitResult;
  Hit50 : HitResult;
  Hit100 : HitResult;
  Hit300 : HitResult;
  PositionalMiss : HitResult;
  MuAddition : HitResult;
  KatuAddition : HitResult;
  GekiAddition : HitResult;
  BaseHits : HitResult;
  BaseHitsM : HitResult;
  ScoreValue : HitResult -> Z;
  (* difficulty *)
  NoFail : Modifier;
  Easy : Modifier;
  Hidden : Modifier;
  Flashlight : Modifier;
  Relax : Modifier;
  Relax2 : Modifier;
  ScoreV2 : Modifier;
  DifficultyAdjustMask : Modifier;
  HittableRange : Q;
  Active : Modifier -> Modifier -> bool;
  CheckModActive : Difficulty -> Modifier -> bool;
  (* buttons *)
  Left : Z;
  Right : Z
}.

(** ** Players and targets *)

Record buttonState : Type := { bLeft : bool; bRight : bool }.

Definition BothReleased (state : buttonState) : bool :=
  negb (bLeft state || bRight state).

(** [graphics.Cursor]: the fields the rule set reads. *)
Record Cursor : Type := {
  IsReplayFrame : bool;
  IsPlayer : bool;
  LeftButton : bool;
  RightButton : bool;
  OldSpinnerScoring : bool
}.

Record difficultyPlayer : Type := {
  cursor : positive;
  diff : Difficulty;
  DoubleClick : bool;
  alreadyStolen : bool;
  buttons : buttonState;
  gameDownState : bool;
  mouseDownButton : Z;
  lastButton : Z;
  lastButton2 : Z;
  leftCond : bool;
  leftCondE : bool;
  rightCond : bool;
  rightCondE : bool
}.

(** Modelled from the spec: the structs [Circle], [Slider] and [Spinner]
    behind the interface [HitObject] are not part of the file.  By the
    spec's data model a target has an immutable ordinal and activation
    time and a mutable per-player hit status; so a value of the interface
    is the dynamic type and the address of the target with [GetNumber]
    and [GetFadeTime] as fields, and [IsHit] (below) reads the targets'
    state. *)
Inductive TargetType : Type := Circle | Slider | Spinner.

Record HitObject : Type := {
  target_type : TargetType;
  target_ptr : positive;
  GetNumber : Z;
  GetFadeTime : Z
}.

#[global] Instance TargetType_eq_dec : EqDecision TargetType.
Proof. solve_decision. Defined.

#[global] Instance HitObject_eq_dec : EqDecision HitObject.
Proof. solve_decision. Defined.

Definition isCircle (g : HitObject) : bool :=
  match target_type g with Circle => true | _ => false end.

Definition isSlider (g : HitObject) : bool :=
  match target_type g with Slider => true | _ => false end.

(** The interface [scoreProcessor] of the source. *)
Class scoreProcessor (SP : Type) : Type := {
  newScoreV1Processor : SP;
  newScoreV2Processor : SP;
  Init : SP -> BeatMap -> difficultyPlayer -> SP;
  ModifyResult : SP -> HitResult -> HitObject -> HitResult * SP;
  AddResult : SP -> HitResult -> ComboResults.t -> SP;
  GetScore : SP -> Z;
  GetCombo : SP -> Z
}.

(** Modelled from the spec: the health model ([HealthProcessor], not part
    of the file).  It owns the drain arithmetic and raises a fail signal:
    [Update] and [AddResult] return the new health state and whether the
    registered fail callback fires; [Increase] never raises it. *)
Module HealthProcessor.
Class t (HP : Type) : Type := {
  Update : HP -> Z -> HP * bool;
  AddResult : HP -> HitResult -> HP * bool;
  Increase : HP -> Q -> bool -> HP;
  NewHealthProcessor : BeatMap -> Difficulty -> bool -> HP
}.
End HealthProcessor.

(** The performance calculator ([app/rulesets/osu/performance]), an
    external collaborator. *)
Module performance.
Class t (PPv2 Stars PPv2Results : Type) : Type := {
  PPv2x : PPv2 -> Stars -> bool -> Z -> Z -> Z -> Z ->
          Z -> Z -> Z -> Z -> Z -> Difficulty -> PPv2;
  Results : PPv2 -> PPv2Results;
  CalculateStep : list IHitObject -> Difficulty -> bool -> list Stars;
  newPPv2 : PPv2
}.
End performance.

Module MapTo.
Record t : Type := {
  ncircles : Z;
  nsliders : Z;
  nobjects : Z;
  maxCombo : Z
}.
End MapTo.

(** ** The state of the rule set *)

Section State.

Context {W HP SP PPv2 Stars PPv2Results : Type}.

Record subSet : Type := {
  player : difficultyPlayer;
  rawScore : Z;
  accuracy : float64;
  maxCombo : Z;
  numObjects : Z;
  grade : Grade.t;
  ppv2 : PPv2;
  hits : gmap Z Z;
  currentKatu : Z;
  currentBad : Z;
  hp : HP;
  gekiCount : Z;
  katuCount : Z;
  recoveries : Z;
  scoreProcessor_ : SP;
  failed : bool
}.

(** The listeners are external callbacks or nil: a field is [true] when a
    listener is registered, and calling it appends an [Event].  [targets]
    is the state of the structs behind the pointers in [queue] and
    [processed]. *)
Record OsuRuleSet : Type := {
  beatMap : BeatMap;
  cursors : gmap positive subSet;
  ended : bool;
  mapStats : list MapTo.t;
  oppDiffs : gmap Z (list Stars);
  queue : list HitObject;
  processed : list HitObject;
  hitListener : bool;
  endListener : bool;
  failListener : bool;
  experimentalPP : bool;
  targets : W
}.

Inductive Event : Type :=
| HitEvent (cursor : positive) (time number : Z) (position : Q * Q)
    (result : HitResult) (comboResult : ComboResults.t)
    (ppResults : PPv2Results) (score : Z)
| EndEvent (time number : Z)
| FailEvent (cursor : positive).

(** Modelled from the spec: the targets ([Circle], [Slider], [Spinner],
    not part of the file) through their lifecycle contract.  [IsHit] and
    [UpdatePost] only touch the targets; [UpdateFor], [UpdateClickFor]
    and [UpdatePostFor] call back into the rule set ([CanBeHit],
    [SendResult]) and edit the player, so they read the rule set and
    return the new targets and per-cursor states with the events they
    caused; no target method replaces [queue] or [processed]. *)
Class Targets : Type := {
  IsHit : W -> HitObject -> difficultyPlayer -> bool;
  UpdatePost : W -> HitObject -> Z -> W * bool;
  UpdateFor : HitObject -> difficultyPlayer -> Z -> bool -> OsuRuleSet ->
              W * gmap positive subSet * list Event;
  UpdateClickFor_ : HitObject -> difficultyPlayer -> Z -> OsuRuleSet ->
                    W * gmap positive subSet * list Event;
  UpdatePostFor_ : HitObject -> difficultyPlayer -> Z -> OsuRuleSet ->
                   W * gmap positive subSet * list Event;
  initFadeTime : BeatMap -> IHitObject -> Z;
  initTargets : BeatMap -> list difficultyPlayer -> W
}.

(** The calls a pass makes on the targets, in order: the queries
    [IsHit] of [UpdateNormalFor] with their answers and the lifecycle
    methods. *)
Inductive TargetCall : Type :=
| AskIsHit (g : HitObject) (answer : bool)
| CallUpdateFor (g : HitObject)
| CallUpdateClickFor (g : HitObject)
| CallUpdatePostFor (g : HitObject).

Definition with_cursors (set : OsuRuleSet) (cs : gmap positive subSet)
  : OsuRuleSet :=
  {| beatMap := beatMap set; cursors := cs; ended := ended set;
     mapStats := mapStats set; oppDiffs := oppDiffs set;
     queue := queue set; processed := processed set;
     hitListener := hitListener set; endListener := endListener set;
     failListener := failListener set;
     experimentalPP := experimentalPP set; targets := targets set |}.

Definition with_targets (set : OsuRuleSet) (w : W) : OsuRuleSet :=
  {| beatMap := beatMap set; cursors := cursors set; ended := ended set;
     mapStats := mapStats set; oppDiffs := oppDiffs set;
     queue := queue set; processed := processed set;
     hitListener := hitListener set; endListener := endListener set;
     failListener := failListener set;
     experimentalPP := experimentalPP set; targets := w |}.

Definition with_player (ss : subSet) (p : difficultyPlayer) : subSet :=
  {| player := p; rawScore := rawScore ss; accuracy := accuracy ss;
     maxCombo := maxCombo ss; numObjects := numObjects ss;
     grade := grade ss; ppv2 := ppv2 ss; hits := hits ss;
     currentKatu := currentKatu ss; currentBad := currentBad ss;
     hp := hp ss; gekiCount := gekiCount ss; katuCount := katuCount ss;
     recoveries := recoveries ss; scoreProcessor_ := scoreProcessor_ ss;
     failed := failed ss |}.

Definition with_hp (ss : subSet) (h : HP) : subSet :=
  {| player := player ss; rawScore := rawScore ss; accuracy := accuracy ss;
     maxCombo := maxCombo ss; numObjects := numObjects ss;
     grade := grade ss; ppv2 := ppv2 ss; hits := hits ss;
     currentKatu := currentKatu ss; currentBad := currentBad ss;
     hp := h; gekiCount := gekiCount ss; katuCount := katuCount ss;
     recoveries := recoveries ss; scoreProcessor_ := scoreProcessor_ ss;
     failed := failed ss |}.

Definition with_recoveries (ss : subSet) (n : Z) : subSet :=
  {| player := player ss; rawScore := rawScore ss; accuracy := accuracy ss;
     maxCombo := maxCombo ss; numObjects := numObjects ss;
     grade := grade ss; ppv2 := ppv2 ss; hits := hits ss;
     currentKatu := currentKatu ss; currentBad := currentBad ss;
     hp := hp ss; gekiCount := gekiCount ss; katuCount := katuCount ss;
     recoveries := n; scoreProcessor_ := scoreProcessor_ ss;
     failed := failed ss |}.

Definition with_failed (ss : subSet) (b : bool) : subSet :=
  {| player := player ss; rawScore := rawScore ss; accuracy := accuracy ss;
     maxCombo := maxCombo ss; numObjects := numObjects ss;
     grade := grade ss; ppv2 := ppv2 ss; hits := hits ss;
     currentKatu := currentKatu ss; currentBad := currentBad ss;
     hp := hp ss; gekiCount := gekiCount ss; katuCount := katuCount ss;
     recoveries := recoveries ss; scoreProcessor_ := scoreProcessor_ ss;
     failed := b |}.

(** [subSet.hits[r]]: a missing key reads as zero. *)
Definition hit_count (ss : subSet) (r : HitResult) : Z :=
  default 0 (hits ss !! r).

End State.

Arguments subSet : clear implicits.
Arguments OsuRuleSet : clear implicits.
Arguments Event : clear implicits.
Arguments Targets : clear implicits.

(** ** The functions of the rule set *)

(** [sort.Search] of the Go library: binary search for the least index in
    [0, n) at which [f] holds.  Every round shrinks [j - i], so [n]
    rounds are enough (lemma [Search_loop_fuel] below). *)
Fixpoint Search_loop (fuel : nat) (i j : Z) (f : Z -> bool) : Z :=
  match fuel with
  | O => i
  | S fuel' =>
      if i <? j then
        let h := (i + j) / 2 in
        if negb (f h) then Search_loop fuel' (h + 1) j f
        else Search_loop fuel' i h f
      else i
  end.

Definition sort_Search (n : Z) (f : Z -> bool) : Z :=
  Search_loop (Z.to_nat n) 0 n f.

Section Engine.

Context {W HP SP PPv2 Stars PPv2Results : Type}.
Context `{!Declarations} `{!scoreProcessor SP} `{!HealthProcessor.t HP}.
Context `{!performance.t PPv2 Stars PPv2Results}.
Context `{!Targets W HP SP PPv2 Stars PPv2Results}.

Local Abbreviation subSet := (subSet HP SP PPv2).
Local Abbreviation OsuRuleSet := (OsuRuleSet W HP SP PPv2 Stars).
Local Abbreviation Event := (Event PPv2Results).

(** *** CanBeHit *)

(** The index left in [index] by the loop [for i, g := range processed]
    of [CanBeHit]: the last position of [object], or the initial -1. *)
Fixpoint findObject (object : HitObject) (l : list HitObject)
    (i : Z) (found : Z) : Z :=
  match l with
  | [] => found
  | g :: l' =>
      findObject object l' (i + 1)
        (if decide (g = object) then i else found)
  end.

(** The stack guard of [CanBeHit] (lines 574-586). *)
Definition stackGuard (set : OsuRuleSet) (object : HitObject)
    (player : difficultyPlayer) : option bool :=
  if isCircle object then
    let idx := findObject object (processed set) 0 (-1) in
    if 0 <? idx then
      prev ← index (processed set) (idx - 1);
      o ← index (HitObjects (beatMap set)) (GetNumber prev);
      Some ((0 <? GetStackIndex o (Mods (diff player)))
            && negb (IsHit (targets set) prev player))
    else Some false
  else Some false.

(** The scan for skipped targets (lines 588-598): [Some true] when the
    loop returns [Shake], [Some false] when it ends or breaks. *)
Fixpoint skippedScan (set : OsuRuleSet) (object : HitObject)
    (player : difficultyPlayer) (l : list HitObject) : option bool :=
  match l with
  | [] => Some false
  | g :: l' =>
      if negb (IsHit (targets set) g player) then
        if negb (GetNumber g =? GetNumber object) then
          e ← index (HitObjects (beatMap set)) (GetNumber g);
          s ← index (HitObjects (beatMap set)) (GetNumber object);
          if flt (fadd (GetEndTime e) (inject_Z Tolerance2B))
                 (GetStartTime s)
          then Some true
          else skippedScan set object player l'
        else Some false
      else skippedScan set object player l'
  end.

(** Lines 600-603. *)
Definition hitRange (player : difficultyPlayer) : float64 :=
  if CheckModActive (diff player) Relax2
  then fsub HittableRange 200
  else Fnum HittableRange.

(** [math.Abs(float64(time - int64(start))) >= hitRange]. *)
Definition outOfWindow (time : Z) (start : Q)
    (player : difficultyPlayer) : bool :=
  fle (hitRange player) (fabs (ofInt64 (wrap64 (time - Qtrunc start)))).

Definition CanBeHit (set : OsuRuleSet) (time : Z) (object : HitObject)
    (player : difficultyPlayer) : option ClickAction :=
  stacked ← stackGuard set object player;
  if (stacked : bool) then Some Ignored
  else
    skipped ← skippedScan set object player (processed set);
    if (skipped : bool) then Some Shake
    else
      o ← index (HitObjects (beatMap set)) (GetNumber object);
      if outOfWindow time (GetStartTime o) player then Some Shake
      else Some Click.

(** *** failInternal *)

Definition failInternal (set : OsuRuleSet) (pl : difficultyPlayer)
  : option (OsuRuleSet * list Event) :=
  if CheckModActive (diff pl) (Z.lor (Z.lor NoFail Relax) Relax2)
  then Some (set, [])
  else
    ss ← cursors set !! cursor pl;
    if 0 <? recoveries ss then
      let ss1 := with_hp ss (HealthProcessor.Increase (hp ss) 160%Q false) in
      let ss2 := with_recoveries ss1 (wrap64 (recoveries ss1 - 1)) in
      Some (with_cursors set (<[cursor pl := ss2]> (cursors set)), [])
    else
      Some (with_cursors set
              (<[cursor pl := with_failed ss true]> (cursors set)),
            if failListener set && negb (failed ss)
            then [FailEvent (cursor pl)] else []).

(** *** SendResult *)

(** [result&BaseHitsM > 0]: the outcome counts towards accuracy. *)
Definition isCounted (result : HitResult) : bool :=
  0 <? Z.land result BaseHitsM.

(** Lines 465-469. *)
Definition computeAccuracy (raw n : Z) : float64 :=
  if n =? 0 then Fnum 100
  else fdiv (100 * inject_Z raw)%Q (inject_Z (wrap64 (n * 300))).

(** Lines 471-493, on the counts [hits[Hit300]], [hits[Hit50]],
    [hits[Miss]], [numObjects] and the player's modifiers. *)
Definition computeGrade (h300 h50 hMiss n : Z) (mods : Modifier)
  : Grade.t :=
  let ratio := fdiv (inject_Z h300) (inject_Z n) in
  if h300 =? n then
    if 0 <? Z.land mods (Z.lor Hidden Flashlight)
    then Grade.SSH else Grade.SS
  else if fgt ratio 0.9 && flt (fdiv (inject_Z h50) (inject_Z n)) 0.01
          && (hMiss =? 0) then
    if 0 <? Z.land mods (Z.lor Hidden Flashlight)
    then Grade.SH else Grade.S
  else if fgt ratio 0.8 && (hMiss =? 0) || fgt ratio 0.9 then Grade.A
  else if fgt ratio 0.7 && (hMiss =? 0) || fgt ratio 0.8 then Grade.B
  else if fgt ratio 0.6 then Grade.C
  else Grade.D.

(** The condition of line 509: a counted outcome on the last object, or
    on an object whose successor starts a new combo. *)
Definition closesCombo (set : OsuRuleSet) (result : HitResult)
    (number : Z) : option bool :=
  if isCounted result then
    let last := Z.of_nat (length (HitObjects (beatMap set))) - 1 in
    if number =? last then Some true
    else if number <? last then
      o ← index (HitObjects (beatMap set)) (number + 1);
      Some (IsNewCombo o)
    else Some false
  else Some false.

(** The loop of lines 517-528 over [processed[index-1], ..., processed[0]]. *)
Fixpoint allClickedScan (set : OsuRuleSet) (pl : difficultyPlayer)
    (l : list HitObject) : option bool :=
  match l with
  | [] => Some true
  | obj :: l' =>
      if negb (IsHit (targets set) obj pl) then Some false
      else
        o ← index (HitObjects (beatMap set)) (GetNumber obj);
        if IsNewCombo o then Some true
        else allClickedScan set pl l'
  end.

(** Lines 510-528. *)
Definition allClicked (set : OsuRuleSet) (pl : difficultyPlayer)
    (number : Z) : option bool :=
  let idx :=
    sort_Search (Z.of_nat (length (processed set)))
      (fun i => match index (processed set) i with
                | Some g => number <=? GetNumber g
                | None => false
                end) in
  allClickedScan set pl (rev (take (Z.to_nat idx) (processed set))).

(** Lines 530-540: the tagged outcome and the new [gekiCount] and
    [katuCount]. *)
Definition classify (result : HitResult) (katu bad : Z) (clicked : bool)
    (geki katuC : Z) : HitResult * Z * Z :=
  if 0 <? Z.land result BaseHits then
    if (katu =? 0) && (bad =? 0) && clicked then
      (Z.lor result GekiAddition, wrap64 (geki + 1), katuC)
    else if (bad =? 0) && clicked then
      (Z.lor result KatuAddition, geki, wrap64 (katuC + 1))
    else (Z.lor result MuAddition, geki, katuC)
  else (result, geki, katuC).

(** Lines 457-544 of [SendResult]: the per-cursor state after the
    outcome [result] (as the score processor [sp] returned it) has been
    aggregated, and the outcome with its bonus tag. *)
Definition aggregate (set : OsuRuleSet) (ss : subSet) (number : Z)
    (result : HitResult) (sp : SP) : option (subSet * HitResult) :=
  let raw := if isCounted result
             then wrap64 (rawScore ss + ScoreValue result)
             else rawScore ss in
  let hts := if isCounted result
             then <[result := wrap64 (hit_count ss result + 1)]> (hits ss)
             else hits ss in
  let n := if isCounted result
           then wrap64 (numObjects ss + 1) else numObjects ss in
  let mc := MaxI64 (GetCombo sp) (maxCombo ss) in
  let acc := computeAccuracy raw n in
  let cnt := fun r => default 0 (hts !! r) in
  let mods := Mods (diff (player ss)) in
  let grd := computeGrade (cnt Hit300) (cnt Hit50) (cnt Miss) n mods in
  let idx := MaxI64 0 (wrap64 (n - 1)) in
  mapTo ← index (mapStats set) idx;
  tbl ← oppDiffs set !! Z.land mods DifficultyAdjustMask;
  stars ← index tbl idx;
  let pp := performance.PPv2x (ppv2 ss) stars (experimentalPP set)
              (MapTo.maxCombo mapTo) (MapTo.nsliders mapTo)
              (MapTo.ncircles mapTo) (MapTo.nobjects mapTo)
              mc (cnt Hit300) (cnt Hit100) (cnt Hit50) (cnt Miss)
              (diff (player ss)) in
  let katu := if result =? Hit100
              then wrap64 (currentKatu ss + 1) else currentKatu ss in
  let bad := if result =? Hit100 then currentBad ss
             else if (result =? Hit50) || (result =? Miss)
             then wrap64 (currentBad ss + 1) else currentBad ss in
  closes ← closesCombo set result number;
  '(result, geki, katuC, katu, bad) ←
    (if (closes : bool) then
       clicked ← allClicked set (player ss) number;
       let '(r, g, k) :=
         classify result katu bad clicked (gekiCount ss) (katuCount ss) in
       Some (r, g, k, 0, 0)
     else Some (result, gekiCount ss, katuCount ss, katu, bad));
  Some ({| player := player ss; rawScore := raw; accuracy := acc;
           maxCombo := mc; numObjects := n; grade := grd; ppv2 := pp;
           hits := hts; currentKatu := katu; currentBad := bad;
           hp := hp ss; gekiCount := geki; katuCount := katuC;
           recoveries := recoveries ss; scoreProcessor_ := sp;
           failed := failed ss |}, result).

Definition SendResult (set : OsuRuleSet) (time : Z) (c : positive)
    (src : HitObject) (x y : Q) (result : HitResult)
    (comboResult : ComboResults.t) : option (OsuRuleSet * list Event) :=
  let number := GetNumber src in
  if (result =? Ignore) || (result =? PositionalMiss) then
    if (result =? PositionalMiss) && hitListener set then
      ss ← cursors set !! c;
      if negb (Active (Mods (diff (player ss))) Relax) then
        Some (set, [HitEvent c time number (x, y) result comboResult
                      (performance.Results (ppv2 ss))
                      (GetScore (scoreProcessor_ ss))])
      else Some (set, [])
    else Some (set, [])
  else
    ss ← cursors set !! c;
    let '(result, sp) := ModifyResult (scoreProcessor_ ss) result src in
    let sp := AddResult sp result comboResult in
    '(ss0, result) ← aggregate set ss number result sp;
    let '(h, fired) := HealthProcessor.AddResult (hp ss0) result in
    let ss1 := with_hp ss0 h in
    let set1 := with_cursors set (<[c := ss1]> (cursors set)) in
    '(set2, evs) ←
      (if (fired : bool) then failInternal set1 (player ss1)
       else Some (set1, []));
    Some (set2,
          evs ++ (if hitListener set
                  then [HitEvent c time number (x, y) result comboResult
                          (performance.Results (ppv2 ss1))
                          (GetScore (scoreProcessor_ ss1))]
                  else [])).

(** *** Update *)

(** Lines 284-298: every active target is asked [UpdatePost]; the ones
    that are done are reported to the end listener and spliced out. *)
Fixpoint retire (time : Z) (hasEnd : bool) (l : list HitObject) (w : W)
  : list HitObject * W * list Event :=
  match l with
  | [] => ([], w, [])
  | g :: l' =>
      let '(w1, isDone) := UpdatePost w g time in
      let '(keep, w2, evs) := retire time hasEnd l' w1 in
      if (isDone : bool) then
        (keep, w2,
         (if hasEnd then [EndEvent time (GetNumber g)] else []) ++ evs)
      else (g :: keep, w2, evs)
  end.

(** Lines 300-313: the head of the queue moves to the active set until a
    target has [GetFadeTime() > time]; the result is the moved prefix and
    the remaining queue. *)
Fixpoint activate (time : Z) (q : list HitObject)
  : list HitObject * list HitObject :=
  match q with
  | [] => ([], [])
  | g :: q' =>
      if time <? GetFadeTime g then ([], q)
      else let '(moved, rest) := activate time q' in (g :: moved, rest)
  end.

(** One round of the loop of lines 315-317 for the entry with key [c]; a
    fail signal of the health model runs the callback registered in
    [NewOsuRuleset], [failInternal] on the entry's player. *)
Definition updateHp (time : Z) (set : OsuRuleSet) (c : positive)
  : option (OsuRuleSet * list Event) :=
  match cursors set !! c with
  | None => Some (set, [])
  | Some ss =>
      let '(h, fired) := HealthProcessor.Update (hp ss) time in
      let set1 := with_cursors set (<[c := with_hp ss h]> (cursors set)) in
      if (fired : bool) then failInternal set1 (player ss)
      else Some (set1, [])
  end.

Fixpoint updateHpAll (time : Z) (order : list positive) (set : OsuRuleSet)
  : option (OsuRuleSet * list Event) :=
  match order with
  | [] => Some (set, [])
  | c :: order' =>
      '(set1, evs1) ← updateHp time set c;
      '(set2, evs2) ← updateHpAll time order' set1;
      Some (set2, evs1 ++ evs2)
  end.

(** [Update].  Go leaves the order of [range set.cursors] unspecified:
    [order] is the order in which the run time visits the keys.  The
    final block (lines 319-358) only logs the result table and sets
    [ended]. *)
Definition Update (order : list positive) (set : OsuRuleSet) (time : Z)
  : option (OsuRuleSet * list Event) :=
  let '(keep, w, evs0) :=
    retire time (endListener set) (processed set) (targets set) in
  let '(moved, rest) := activate time (queue set) in
  let set1 :=
    {| beatMap := beatMap set; cursors := cursors set; ended := ended set;
       mapStats := mapStats set; oppDiffs := oppDiffs set;
       queue := rest; processed := keep ++ moved;
       hitListener := hitListener set; endListener := endListener set;
       failListener := failListener set;
       experimentalPP := experimentalPP set; targets := w |} in
  '(set2, evs1) ← updateHpAll time order set1;
  let fin :=
    (length (queue set2) =? 0)%nat && (length (processed set2) =? 0)%nat
    && negb (ended set2) in
  Some ({| beatMap := beatMap set2; cursors := cursors set2;
           ended := if fin then true else ended set2;
           mapStats := mapStats set2; oppDiffs := oppDiffs set2;
           queue := queue set2; processed := processed set2;
           hitListener := hitListener set2;
           endListener := endListener set2;
           failListener := failListener set2;
           experimentalPP := experimentalPP set2;
           targets := targets set2 |},
        evs0 ++ evs1).

(** *** The three passes over the active set *)

(** The player behind the pointer read at the start of a pass, as the
    target methods have left it. *)
Definition currentPlayer (set : OsuRuleSet) (c : positive)
    (pl : difficultyPlayer) : difficultyPlayer :=
  default pl (player <$> cursors set !! c).

Definition applyTarget (set : OsuRuleSet)
    (r : W * gmap positive subSet * list Event)
  : OsuRuleSet * list Event :=
  let '(w, cs, evs) := r in (with_cursors (with_targets set w) cs, evs).

(** Lines 366-388: edge detection on the two buttons; [cur] is the
    cursor behind [player.cursor]. *)
Definition clickEdges (cur : Cursor) (pl : difficultyPlayer)
  : difficultyPlayer :=
  let b := buttons pl in
  if IsReplayFrame cur || IsPlayer cur then
    let lc := negb (bLeft b) && LeftButton cur in
    let rc := negb (bRight b) && RightButton cur in
    let changed :=
      negb (eqb (bLeft b) (LeftButton cur))
      || negb (eqb (bRight b) (RightButton cur)) in
    let down0 := 0 in
    let down1 := if LeftButton cur then Z.lor down0 Left else down0 in
    let down2 := if RightButton cur then Z.lor down1 Right else down1 in
    {| cursor := cursor pl; diff := diff pl; DoubleClick := DoubleClick pl;
       alreadyStolen := false; buttons := b;
       gameDownState := if changed then LeftButton cur || RightButton cur
                        else gameDownState pl;
       mouseDownButton := if changed then down2 else mouseDownButton pl;
       lastButton := if changed then mouseDownButton pl else lastButton pl;
       lastButton2 := if changed then lastButton pl else lastButton2 pl;
       leftCond := lc; leftCondE := lc;
       rightCond := rc; rightCondE := rc |}
  else
    {| cursor := cursor pl; diff := diff pl; DoubleClick := DoubleClick pl;
       alreadyStolen := false; buttons := b;
       gameDownState := gameDownState pl;
       mouseDownButton := mouseDownButton pl;
       lastButton := lastButton pl; lastButton2 := lastButton2 pl;
       leftCond := leftCond pl; leftCondE := leftCondE pl;
       rightCond := rightCond pl; rightCondE := rightCondE pl |}.

(** Lines 398-401. *)
Definition storeButtons (cur : Cursor) (pl : difficultyPlayer)
  : difficultyPlayer :=
  if IsReplayFrame cur || IsPlayer cur then
    {| cursor := cursor pl; diff := diff pl; DoubleClick := DoubleClick pl;
       alreadyStolen := alreadyStolen pl;
       buttons := {| bLeft := LeftButton cur; bRight := RightButton cur |};
       gameDownState := gameDownState pl;
       mouseDownButton := mouseDownButton pl;
       lastButton := lastButton pl; lastButton2 := lastButton2 pl;
       leftCond := leftCond pl; leftCondE := leftCondE pl;
       rightCond := rightCond pl; rightCondE := rightCondE pl |}
  else pl.

(** The passes return, next to the state and the events, the calls they
    made on the targets, in order. *)
Fixpoint clickLoop (c : positive) (pl : difficultyPlayer) (time : Z)
    (l : list HitObject) (set : OsuRuleSet)
  : OsuRuleSet * list Event * list TargetCall :=
  match l with
  | [] => (set, [], [])
  | g :: l' =>
      let '(set1, evs1) :=
        applyTarget set
          (UpdateClickFor_ g (currentPlayer set c pl) time set) in
      let '(set2, evs2, called) := clickLoop c pl time l' set1 in
      (set2, evs1 ++ evs2, CallUpdateClickFor g :: called)
  end.

Definition editPlayer (set : OsuRuleSet) (c : positive)
    (f : difficultyPlayer -> difficultyPlayer) : OsuRuleSet :=
  match cursors set !! c with
  | Some ss =>
      with_cursors set (<[c := with_player ss (f (player ss))]> (cursors set))
  | None => set
  end.

(** [UpdateClickFor]; [mem] reads the cursor behind a pointer. *)
Definition UpdateClickFor (mem : positive -> Cursor) (set : OsuRuleSet)
    (c : positive) (time : Z)
  : option (OsuRuleSet * list Event * list TargetCall) :=
  ss ← cursors set !! c;
  let cur := mem (cursor (player ss)) in
  let set1 := editPlayer set c (clickEdges cur) in
  let '(set2, evs, called) :=
    clickLoop c (clickEdges cur (player ss)) time (processed set1) set1 in
  Some (editPlayer set2 c (storeButtons cur), evs, called).

(** [UpdateNormalFor], lines 409-427. *)
Fixpoint normalLoop (c : positive) (pl : difficultyPlayer) (time : Z)
    (processSliderEndsAhead : bool) (l : list HitObject)
    (wasSliderAlready : bool) (set : OsuRuleSet)
  : OsuRuleSet * list Event * list TargetCall :=
  match l with
  | [] => (set, [], [])
  | g :: l' =>
      if isSlider g && wasSliderAlready then
        normalLoop c pl time processSliderEndsAhead l' wasSliderAlready set
      else
        let hit := IsHit (targets set) g (currentPlayer set c pl) in
        let was := if isSlider g && negb hit then true
                   else wasSliderAlready in
        let asked := if isSlider g then [AskIsHit g hit] else [] in
        let '(set1, evs1) :=
          applyTarget set
            (UpdateFor g (currentPlayer set c pl) time
                       processSliderEndsAhead set) in
        let '(set2, evs2, called) :=
          normalLoop c pl time processSliderEndsAhead l' was set1 in
        (set2, evs1 ++ evs2, asked ++ CallUpdateFor g :: called)
  end.

Definition UpdateNormalFor (set : OsuRuleSet) (c : positive) (time : Z)
    (processSliderEndsAhead : bool)
  : option (OsuRuleSet * list Event * list TargetCall) :=
  ss ← cursors set !! c;
  Some (normalLoop c (player ss) time processSliderEndsAhead
          (processed set) false set).

Fixpoint postLoop (c : positive) (pl : difficultyPlayer) (time : Z)
    (l : list HitObject) (set : OsuRuleSet)
  : OsuRuleSet * list Event * list TargetCall :=
  match l with
  | [] => (set, [], [])
  | g :: l' =>
      let '(set1, evs1) :=
        applyTarget set
          (UpdatePostFor_ g (currentPlayer set c pl) time set) in
      let '(set2, evs2, called) := postLoop c pl time l' set1 in
      (set2, evs1 ++ evs2, CallUpdatePostFor g :: called)
  end.

Definition UpdatePostFor (set : OsuRuleSet) (c : positive) (time : Z)
  : option (OsuRuleSet * list Event * list TargetCall) :=
  ss ← cursors set !! c;
  Some (postLoop c (player ss) time (processed set) set).

(** *** NewOsuRuleset *)

(** One round of the loop of lines 157-175: [prev] is the previous entry
    of the table (all zero before the first object). *)
Definition nextMapTo (prev : MapTo.t) (o : IHitObject) : MapTo.t :=
  let '(nc, ns, mc) :=
    match kind o with
    | KSlider ScorePoints =>
        (MapTo.ncircles prev, wrap64 (MapTo.nsliders prev + 1),
         wrap64 (MapTo.maxCombo prev + Z.of_nat (length ScorePoints)))
    | KCircle =>
        (wrap64 (MapTo.ncircles prev + 1), MapTo.nsliders prev,
         MapTo.maxCombo prev)
    | KSpinner =>
        (MapTo.ncircles prev, MapTo.nsliders prev, MapTo.maxCombo prev)
    end in
  {| MapTo.ncircles := nc; MapTo.nsliders := ns;
     MapTo.nobjects := wrap64 (MapTo.nobjects prev + 1);
     MapTo.maxCombo := wrap64 (mc + 1) |}.

Fixpoint buildMapStats (prev : MapTo.t) (objs : list IHitObject)
  : list MapTo.t :=
  match objs with
  | [] => []
  | o :: objs' =>
      let m := nextMapTo prev o in m :: buildMapStats m objs'
  end.

Definition zeroMapTo : MapTo.t :=
  {| MapTo.ncircles := 0; MapTo.nsliders := 0;
     MapTo.nobjects := 0; MapTo.maxCombo := 0 |}.

(** Lines 229-232. *)
Definition initialRecoveries (d : Difficulty) : Z :=
  if CheckModActive d Easy then 2 else 0.

(** Lines 248-257: the fields not listed are the zero values of Go. *)
Definition newSubSet (pl : difficultyPlayer) (h : HP) (rec : Z) (sc : SP)
  : subSet :=
  {| player := pl; rawScore := 0; accuracy := Fnum 100; maxCombo := 0;
     numObjects := 0; grade := Grade.NONE; ppv2 := performance.newPPv2;
     hits := ∅; currentKatu := 0; currentBad := 0; hp := h;
     gekiCount := 0; katuCount := 0; recoveries := rec;
     scoreProcessor_ := sc; failed := false |}.

Definition newPlayer (c : positive) (d : Difficulty) : difficultyPlayer :=
  {| cursor := c; diff := d; DoubleClick := false; alreadyStolen := false;
     buttons := {| bLeft := false; bRight := false |};
     gameDownState := false; mouseDownButton := 0; lastButton := 0;
     lastButton2 := 0; leftCond := false; leftCondE := false;
     rightCond := false; rightCondE := false |}.

(** The loop of lines 197-258 from round [i] on. *)
Fixpoint initCursors (bm : BeatMap) (lazer : bool)
    (cs : list (positive * Cursor)) (mods : list Modifier) (i : nat)
    (opp : gmap Z (list Stars)) (subs : gmap positive subSet)
    (players : list difficultyPlayer)
  : option (gmap Z (list Stars) * gmap positive subSet
            * list difficultyPlayer) :=
  match cs with
  | [] => Some (opp, subs, players)
  | (c, cur) :: cs' =>
      m ← mods !! i;
      let d := {| Mods := Z.lor m (Z.land (Mods (Diff bm)) ScoreV2) |} in
      let pl := newPlayer c d in
      let key := Z.land m DifficultyAdjustMask in
      opp1 ← match opp !! key with
             | Some _ => Some opp
             | None =>
                 let tbl :=
                   performance.CalculateStep (HitObjects bm) d lazer in
                 _ ← index tbl (Z.of_nat (length tbl) - 1);
                 Some (<[key := tbl]> opp)
             end;
      let h := HealthProcessor.NewHealthProcessor
                 bm d (negb (OldSpinnerScoring cur)) in
      let sc := if CheckModActive d ScoreV2
                then newScoreV2Processor else newScoreV1Processor in
      let sub := newSubSet pl h (initialRecoveries d) (Init sc bm pl) in
      initCursors bm lazer cs' mods (S i) opp1 (<[c := sub]> subs)
                  (players ++ [pl])
  end.

(** Lines 260-278: one rule-set target per beatmap object, in order; its
    ordinal is the position in [HitObjects]. *)
Fixpoint initQueue (bm : BeatMap) (objs : list IHitObject) (i : nat)
  : list HitObject :=
  match objs with
  | [] => []
  | o :: objs' =>
      {| target_type := match kind o with
                        | KCircle => Circle
                        | KSlider _ => Slider
                        | KSpinner => Spinner
                        end;
         target_ptr := Pos.of_succ_nat i;
         GetNumber := Z.of_nat i;
         GetFadeTime := initFadeTime bm o |}
      :: initQueue bm objs' (S i)
  end.

(** [NewOsuRuleset]; [lazer] is the setting [Gameplay.UseLazerPP]. *)
Definition NewOsuRuleset (lazer : bool) (bm : BeatMap)
    (cs : list (positive * Cursor)) (mods : list Modifier)
  : option OsuRuleSet :=
  '(opp, subs, players) ← initCursors bm lazer cs mods 0 ∅ ∅ [];
  Some {| beatMap := bm; cursors := subs; ended := false;
          mapStats := buildMapStats zeroMapTo (HitObjects bm);
          oppDiffs := opp; queue := initQueue bm (HitObjects bm) 0;
          processed := []; hitListener := false; endListener := false;
          failListener := false; experimentalPP := lazer;
          targets := initTargets bm players |}.

(** *** Listeners and queries *)

Definition SetListener (set : OsuRuleSet) (registered : bool)
  : OsuRuleSet :=
  {| beatMap := beatMap set; cursors := cursors set; ended := ended set;
     mapStats := mapStats set; oppDiffs := oppDiffs set;
     queue := queue set; processed := processed set;
     hitListener := registered; endListener := endListener set;
     failListener := failListener set;
     experimentalPP := experimentalPP set; targets := targets set |}.

Definition SetEndListener (set : OsuRuleSet) (registered : bool)
  : OsuRuleSet :=
  {| beatMap := beatMap set; cursors := cursors set; ended := ended set;
     mapStats := mapStats set; oppDiffs := oppDiffs set;
     queue := queue set; processed := processed set;
     hitListener := hitListener set; endListener := registered;
     failListener := failListener set;
     experimentalPP := experimentalPP set; targets := targets set |}.

Definition SetFailListener (set : OsuRuleSet) (registered : bool)
  : OsuRuleSet :=
  {| beatMap := beatMap set; cursors := cursors set; ended := ended set;
     mapStats := mapStats set; oppDiffs := oppDiffs set;
     queue := queue set; processed := processed set;
     hitListener := hitListener set; endListener := endListener set;
     failListener := registered;
     experimentalPP := experimentalPP set; targets := targets set |}.

Definition GetResults (set : OsuRuleSet) (c : positive)
  : option (float64 * Z * Z * Grade.t) :=
  ss ← cursors set !! c;
  Some (accuracy ss, maxCombo ss, GetScore (scoreProcessor_ ss), grade ss).

Definition GetHits (set : OsuRuleSet) (c : positive)
  : option (Z * Z * Z * Z * Z * Z) :=
  ss ← cursors set !! c;
  Some (hit_count ss Hit300, hit_count ss Hit100, hit_count ss Hit50,
        hit_count ss Miss, gekiCount ss, katuCount ss).

(** Lines 667-670. *)
Definition IsPerfect (set : OsuRuleSet) (c : positive) : option bool :=
  ss ← cursors set !! c;
  m ← index (mapStats set) (wrap64 (numObjects ss - 1));
  Some (maxCombo ss =? MapTo.maxCombo m).

(** Lines 662-665 and 672-683.  ([GetHP] reads the fields [Health] and
    [MaxHp] of the health model, which is not part of the file.) *)
Definition GetPP (set : OsuRuleSet) (c : positive) : option PPv2Results :=
  ss ← cursors set !! c;
  Some (performance.Results (ppv2 ss)).

Definition GetPlayer (set : OsuRuleSet) (c : positive)
  : option difficultyPlayer :=
  ss ← cursors set !! c;
  Some (player ss).

Definition GetProcessed (set : OsuRuleSet) : list HitObject :=
  processed set.

Definition GetBeatMap (set : OsuRuleSet) : BeatMap := beatMap set.

(** *** Runs

    What happens to a rule set between construction and the end of the
    map, as a sequence of calls: [Update] (with the order in which the
    run time enumerates [cursors]), the judgements [SendResult] that the
    target methods deliver, the target methods' own effects (a new state
    of the targets, an edit of a player's click state) and the
    registration of listeners. *)

Definition withClickState (pl new : difficultyPlayer) : difficultyPlayer :=
  {| cursor := cursor pl; diff := diff pl; DoubleClick := DoubleClick new;
     alreadyStolen := alreadyStolen new; buttons := buttons new;
     gameDownState := gameDownState new;
     mouseDownButton := mouseDownButton new;
     lastButton := lastButton new; lastButton2 := lastButton2 new;
     leftCond := leftCond new; leftCondE := leftCondE new;
     rightCond := rightCond new; rightCondE := rightCondE new |}.

Inductive Call : Type :=
| DoUpdate (order : list positive) (time : Z)
| DoSendResult (time : Z) (c : positive) (src : HitObject) (x y : Q)
    (result : HitResult) (comboResult : ComboResults.t)
| DoTargets (w : W)
| DoClickState (c : positive) (new : difficultyPlayer)
| DoSetListener (registered : bool)
| DoSetEndListener (registered : bool)
| DoSetFailListener (registered : bool).

Definition call (set : OsuRuleSet) (k : Call)
  : option (OsuRuleSet * list Event) :=
  match k with
  | DoUpdate order time => Update order set time
  | DoSendResult time c src x y result comboResult =>
      SendResult set time c src x y result comboResult
  | DoTargets w => Some (with_targets set w, [])
  | DoClickState c new =>
      Some (editPlayer set c (fun pl => withClickState pl new), [])
  | DoSetListener b => Some (SetListener set b, [])
  | DoSetEndListener b => Some (SetEndListener set b, [])
  | DoSetFailListener b => Some (SetFailListener set b, [])
  end.

Fixpoint run (set : OsuRuleSet) (ks : list Call)
  : option (OsuRuleSet * list Event) :=
  match ks with
  | [] => Some (set, [])
  | k :: ks' =>
      '(set1, evs1) ← call set k;
      '(set2, evs2) ← run set1 ks';
      Some (set2, evs1 ++ evs2)
  end.

(** Two calls that differ at most in the order in which [Update]
    enumerates the cursors. *)
Inductive sameInput : Call -> Call -> Prop :=
| sameUpdate order1 order2 time :
    order1 ≡ₚ order2 ->
    sameInput (DoUpdate order1 time) (DoUpdate order2 time)
| sameOther k : sameInput k k.

End Engine.

(** ** Vocabulary of the statements

    The notions in which the properties below are stated: what the
    specification calls stale targets, failed players, tiers of a combo
    run, the threshold function of the grade, and the invariants of
    runs. *)

Section Vocabulary.

Context {W HP SP PPv2 Stars PPv2Results : Type}.
Context `{!Declarations} `{!scoreProcessor SP} `{!HealthProcessor.t HP}.
Context `{!performance.t PPv2 Stars PPv2Results}.
Context `{!Targets W HP SP PPv2 Stars PPv2Results}.

Local Abbreviation subSet := (subSet HP SP PPv2).
Local Abbreviation OsuRuleSet := (OsuRuleSet W HP SP PPv2 Stars).
Local Abbreviation Event := (Event PPv2Results).

Implicit Types (set : OsuRuleSet) (ss : subSet) (pl : difficultyPlayer).
Implicit Types (g object : HitObject) (c : positive) (evs : list Event).

(** [g] ends more than [Tolerance2B] before [object] starts: the
    [float64] sum of its end time and the tolerance is below the start
    time. *)
Definition stale set g object : bool :=
  match index (HitObjects (beatMap set)) (GetNumber g),
        index (HitObjects (beatMap set)) (GetNumber object) with
  | Some e, Some s =>
      flt (fadd (GetEndTime e) (inject_Z Tolerance2B)) (GetStartTime s)
  | _, _ => false
  end.

Definition unresolvedStale set pl object g : bool :=
  negb (IsHit (targets set) g pl) && stale set g object.

(** The targets that the scan for skipped targets passes: those of [l]
    before the first one that the player has not resolved and that
    carries the ordinal [number]. *)
Fixpoint scannedPrefix set pl (number : Z) (l : list HitObject)
  : list HitObject :=
  match l with
  | [] => []
  | g :: l' =>
      if negb (IsHit (targets set) g pl) && (GetNumber g =? number)
      then []
      else g :: scannedPrefix set pl number l'
  end.

Definition scanned set pl object : list HitObject :=
  scannedPrefix set pl (GetNumber object) (processed set).

(** The player behind [c] has failed. *)
Definition hasFailed set c : Prop :=
  exists ss, cursors set !! c = Some ss /\ failed ss = true.

(** The part of a per-cursor state that only [aggregate] writes. *)
Definition scoring ss :=
  (rawScore ss, accuracy ss, maxCombo ss, numObjects ss, grade ss, hits ss,
   (currentKatu ss, currentBad ss, gekiCount ss, katuCount ss),
   (ppv2 ss, scoreProcessor_ ss, diff (player ss), cursor (player ss))).

(** The grade as the thresholds of the specification give it, on the exact
    ratios: [visibility] says whether Hidden or Flashlight is active. *)
Definition gradeByThresholds (h300 h50 hMiss n : Z) (visibility : bool)
  : Grade.t :=
  let ratio := (inject_Z h300 / inject_Z n)%Q in
  let fifties := (inject_Z h50 / inject_Z n)%Q in
  if h300 =? n then
    if visibility then Grade.SSH else Grade.SS
  else if Qlt_bool 0.9 ratio && Qlt_bool fifties 0.01 && (hMiss =? 0) then
    if visibility then Grade.SH else Grade.S
  else if Qlt_bool 0.8 ratio && (hMiss =? 0) || Qlt_bool 0.9 ratio
  then Grade.A
  else if Qlt_bool 0.7 ratio && (hMiss =? 0) || Qlt_bool 0.8 ratio
  then Grade.B
  else if Qlt_bool 0.6 ratio then Grade.C
  else Grade.D.

(** The per-run counters as the judgement [r] leaves them (lines
    502-507). *)
Definition katuAfter ss (r : HitResult) : Z :=
  if r =? Hit100 then wrap64 (currentKatu ss + 1) else currentKatu ss.

Definition badAfter ss (r : HitResult) : Z :=
  if r =? Hit100 then currentBad ss
  else if (r =? Hit50) || (r =? Miss) then wrap64 (currentBad ss + 1)
  else currentBad ss.

(** The three tiers of a combo run and their bonus flags. *)
Inductive Tier : Type := Geki | Katu | Mu.

Definition tierOf (katu bad : Z) (clicked : bool) : Tier :=
  if (katu =? 0) && (bad =? 0) && clicked then Geki
  else if (bad =? 0) && clicked then Katu
  else Mu.

Definition tagOf (t : Tier) : HitResult :=
  match t with
  | Geki => GekiAddition
  | Katu => KatuAddition
  | Mu => MuAddition
  end.

(** The objects that the loop of lines 517-528 examines: the targets of
    [l] up to and including the first one whose object starts a new
    combo. *)
Fixpoint comboRunOf set (l : list HitObject) : list HitObject :=
  match l with
  | [] => []
  | g :: l' =>
      match index (HitObjects (beatMap set)) (GetNumber g) with
      | Some o => if IsNewCombo o then [g] else g :: comboRunOf set l'
      | None => [g]
      end
  end.

(** The accuracy invariant after at most [k] judgements. *)
Definition accInv (k : Z) ss : Prop :=
  0 <= numObjects ss <= k
  /\ 0 <= rawScore ss <= 300 * numObjects ss
  /\ accuracy ss = computeAccuracy (rawScore ss) (numObjects ss).

(** A property of per-cursor states that only depends on the scoring
    fields and that [aggregate] carries from step [k] to step [k + 1]
    holds along every run. *)
Definition scoringInvariant (P : Z -> subSet -> Prop) : Prop :=
  (forall k ss ss', scoring ss' = scoring ss -> P k ss -> P k ss')
  /\ (forall k k' ss, k <= k' -> P k ss -> P k' ss)
  /\ (forall set ss number r sp ss0 r2 k,
        0 <= k -> k + 1 < 2 ^ 54 ->
        aggregate set ss number r sp = Some (ss0, r2) ->
        P k ss -> P (k + 1) ss0).

(** The sum of a histogram, and the invariant that ties it to the
    number of judged objects. *)
Definition histTotal (m : gmap Z Z) : Z :=
  map_fold (fun _ v acc => v + acc) 0 m.

Definition histInv (k : Z) ss : Prop :=
  map_Forall (fun _ v => 0 <= v) (hits ss)
  /\ numObjects ss = histTotal (hits ss)
  /\ 0 <= numObjects ss <= k.

(** The combo an object can give: one, plus one per score point of a
    slider; and the largest combo of a sequence of objects. *)
Definition comboOf (o : IHitObject) : Z :=
  match kind o with
  | KSlider ScorePoints => Z.of_nat (length ScorePoints) + 1
  | _ => 1
  end.

Definition maxComboOf (objs : list IHitObject) : Z :=
  foldr (fun o acc => comboOf o + acc) 0 objs.

(** The beatmap and the prefix table, which are never written after
    construction. *)
Definition static set := (beatMap set, mapStats set).

(** A call of [UpdateFor] on a target that is not a slider. *)
Definition nonSliderUpdate (k : TargetCall) : Prop :=
  exists g, k = CallUpdateFor g /\ isSlider g = false.

(** Every per-cursor state is stored under the cursor of its player. *)
Definition keyed set : Prop :=
  forall c ss, cursors set !! c = Some ss -> cursor (player ss) = c.

(** What [failInternal] does to the state of the player that failed. *)
Definition failSub ss : subSet :=
  if CheckModActive (diff (player ss)) (Z.lor (Z.lor NoFail Relax) Relax2)
  then ss
  else if 0 <? recoveries ss then
    with_recoveries
      (with_hp ss (HealthProcessor.Increase (hp ss) 160%Q false))
      (wrap64 (recoveries ss - 1))
  else with_failed ss true.

(** What one round of the health loop of [Update] does to a state. *)
Definition hpTick (time : Z) ss : subSet :=
  let '(h, fired) := HealthProcessor.Update (hp ss) time in
  if (fired : bool) then failSub (with_hp ss h) else with_hp ss h.

(** The health loop of [Update] over the keys in [order]. *)
Definition tickAll (time : Z) (order : list positive)
    (m : gmap positive subSet) : gmap positive subSet :=
  foldl (fun m c => alter (hpTick time) c m) m order.

(** *** Further notions

    The kinds of events, the order of the targets and the invariants of
    the per-cursor states. *)

(** The kinds of events. *)
Definition isEndEvent (e : Event) : bool :=
  match e with EndEvent _ _ => true | _ => false end.

Definition isFailEvent (e : Event) : bool :=
  match e with FailEvent _ => true | _ => false end.

Definition isFailEventOf c (e : Event) : bool :=
  match e with FailEvent c' => bool_decide (c' = c) | _ => false end.

(** The ordinals of a sequence of targets increase strictly. *)
Fixpoint ascending (l : list HitObject) : Prop :=
  match l with
  | [] => True
  | g :: l' => Forall (fun h => GetNumber g < GetNumber h) l' /\ ascending l'
  end.

(** The dynamic type of the target made for an object. *)
Definition targetTypeOf (o : IHitObject) : TargetType :=
  match kind o with
  | KCircle => Circle
  | KSlider _ => Slider
  | KSpinner => Spinner
  end.

(** A target stands for the object of the beatmap at its ordinal. *)
Definition standsFor (bm : BeatMap) g : Prop :=
  exists o, index (HitObjects bm) (GetNumber g) = Some o
            /\ target_type g = targetTypeOf o
            /\ GetFadeTime g = initFadeTime bm o.

(** The number of calls of the fail listener for [c] among [evs]. *)
Definition failEvents c evs : nat :=
  length (List.filter (isFailEventOf c) evs).

(** The modifiers with which a player cannot fail (line 615). *)
Definition immune (d : Difficulty) : bool :=
  CheckModActive d (Z.lor (Z.lor NoFail Relax) Relax2).

(** A property of the per-cursor states that the health model, the fail
    handler, the click state and the aggregation of a judgement keep,
    for a prefix table [ms]. *)
Definition entryInvariant (ms : list MapTo.t)
    (J : positive -> subSet -> Prop) : Prop :=
  (forall c ss (h : HP), J c ss -> J c (with_hp ss h))
  /\ (forall c ss, J c ss -> J c (failSub ss))
  /\ (forall c ss new,
        J c ss -> J c (with_player ss (withClickState (player ss) new)))
  /\ (forall set c ss number r sp ss0 r2,
        mapStats set = ms ->
        aggregate set ss number r sp = Some (ss0, r2) ->
        J c ss -> J c ss0).

(** The recoveries of a player stay within the budget that
    [NewOsuRuleset] gave, and a failed player has none left. *)
Definition budget ss : Prop :=
  0 <= recoveries ss <= initialRecoveries (diff (player ss))
  /\ (failed ss = true -> recoveries ss = 0).

(** The star table under the key that [SendResult] reads for a player
    (line 498) has [n] entries. *)
Definition hasTable (opp : gmap Z (list Stars)) (n : nat) ss : Prop :=
  exists tbl,
    opp !! Z.land (Mods (diff (player ss))) DifficultyAdjustMask = Some tbl
    /\ length tbl = n.

(** The target that a call of a pass updates. *)
Definition updatedBy (k : TargetCall) : option HitObject :=
  match k with CallUpdateFor g => Some g | _ => None end.

(** The buttons of a cursor, as [UpdateClickFor] stores them. *)
Definition buttonsOf (cur : Cursor) : buttonState :=
  {| bLeft := LeftButton cur; bRight := RightButton cur |}.

(** The order of the grades: D, C, B, A, S, SS, with and without the
    silver of Hidden and Flashlight. *)
Definition gradeRank (g : Grade.t) : Z :=
  match g with
  | Grade.NONE => -1
  | Grade.D => 0
  | Grade.C => 1
  | Grade.B => 2
  | Grade.A => 3
  | Grade.S | Grade.SH => 4
  | Grade.SS | Grade.SSH => 5
  end.

(** No listener is registered; a call that registers one. *)
Definition silent set : Prop :=
  hitListener set = false /\ endListener set = false
  /\ failListener set = false.

Definition registers (k : Call (W := W)) : bool :=
  match k with
  | DoSetListener b | DoSetEndListener b | DoSetFailListener b => b
  | _ => false
  end.

(** Circles and sliders among the objects of a beatmap. *)
Definition isKCircle (o : IHitObject) : bool :=
  match kind o with KCircle => true | _ => false end.

Definition isKSlider (o : IHitObject) : bool :=
  match kind o with KSlider _ => true | _ => false end.

(** The prefix counts are those of a prefix of the beatmap. *)
Definition countsInv (m : MapTo.t) : Prop :=
  0 <= MapTo.ncircles m /\ 0 <= MapTo.nsliders m
  /\ MapTo.ncircles m + MapTo.nsliders m <= MapTo.nobjects m.

(** The histogram of a player adds up to the judged objects, of which
    there are at most [n]. *)
Definition histBound (n : Z) ss : Prop :=
  map_Forall (fun _ v => 0 <= v) (hits ss)
  /\ numObjects ss = histTotal (hits ss)
  /\ 0 <= numObjects ss <= n.

(** The calls of the fail listener in the health loop of [Update]: for
    one state, for the entry under one key, and for the keys in
    [order]. *)
Definition failReport (listening : bool) ss : list Event :=
  if immune (diff (player ss)) then []
  else if 0 <? recoveries ss then []
  else if listening && negb (failed ss)
       then [FailEvent (cursor (player ss))] else [].

Definition tickReport (time : Z) (listening : bool) (o : option subSet)
  : list Event :=
  match o with
  | None => []
  | Some ss =>
      let '(h, fired) := HealthProcessor.Update (hp ss) time in
      if (fired : bool) then failReport listening (with_hp ss h) else []
  end.

Fixpoint tickReports (time : Z) (listening : bool) (order : list positive)
    (m : gmap positive subSet) : list Event :=
  match order with
  | [] => []
  | c :: order' =>
      tickReport time listening (m !! c)
      ++ tickReports time listening order' (alter (hpTick time) c m)
  end.

(** The grade of a player is none, or the grade of its hit counts. *)
Definition graded ss : Prop :=
  grade ss = Grade.NONE
  \/ grade ss =
     computeGrade (hit_count ss Hit300) (hit_count ss Hit50)
       (hit_count ss Miss) (numObjects ss) (Mods (diff (player ss))).

(** *** The answers of the targets in [Update] *)

(** The answers of [UpdatePost] when the targets of [l] are asked in
    order, each on the state of the targets that the earlier calls have
    left. *)
Fixpoint postAnswers (time : Z) (l : list HitObject) (w : W) : list bool :=
  match l with
  | [] => []
  | g :: l' =>
      let '(w1, isDone) := UpdatePost w g time in
      isDone :: postAnswers time l' w1
  end.

(** The targets of [l] whose answer is not "done", in the order of
    [l]. *)
Definition notDone (l : list HitObject) (answers : list bool)
  : list HitObject :=
  fst <$> List.filter (fun p => negb p.2) (zip l answers).

(** *** The judgements of a player along a run *)

(** The judgement that the call [k] gives to the player behind [c] in
    the state [set]: the ordinal of the target and the outcome as the
    score processor returns it.  A call that is not a judgement, a
    judgement for another cursor and a discarded outcome give none. *)
Definition judgementOf set c (k : Call (W := W)) : list (Z * HitResult) :=
  match k with
  | DoSendResult _ c' src _ _ result _ =>
      if bool_decide (c' = c)
         && negb ((result =? Ignore) || (result =? PositionalMiss))
      then match cursors set !! c with
           | Some ss =>
               [(GetNumber src,
                 (ModifyResult (scoreProcessor_ ss) result src).1)]
           | None => []
           end
      else []
  | _ => []
  end.

(** The judgements of the player behind [c] in the run of the calls
    [ks] from [set], in order. *)
Fixpoint judgements set c (ks : list (Call (W := W)))
  : list (Z * HitResult) :=
  match ks with
  | [] => []
  | k :: ks' =>
      judgementOf set c k ++
      match call set k with
      | Some (set1, _) => judgements set1 c ks'
      | None => []
      end
  end.

(** The judgement closes a combo run: its outcome is counted and its
    target is the last object or the one before a new combo. *)
Definition closing set (j : Z * HitResult) : bool :=
  match closesCombo set j.2 j.1 with
  | Some closes => closes
  | None => false
  end.

(** The judgements after the last closing one. *)
Fixpoint sinceCloseFrom set (acc js : list (Z * HitResult))
  : list (Z * HitResult) :=
  match js with
  | [] => acc
  | j :: js' =>
      sinceCloseFrom set (if closing set j then [] else acc ++ [j]) js'
  end.

Definition sinceClose set (js : list (Z * HitResult))
  : list (Z * HitResult) :=
  sinceCloseFrom set [] js.

(** The number of 100s, and of 50s and misses, among outcomes. *)
Definition count100 (rs : list HitResult) : Z :=
  Z.of_nat (length (List.filter (fun r => r =? Hit100) rs)).

Definition countBad (rs : list HitResult) : Z :=
  Z.of_nat (length (List.filter
                      (fun r => negb (r =? Hit100)
                                && ((r =? Hit50) || (r =? Miss))) rs)).

(** The two run counters of the player behind [c]; they hold the
    numbers of 100s and of 50s and misses among the judgements [acc]. *)
Definition runCounters set c : option (Z * Z) :=
  (fun ss => (currentKatu ss, currentBad ss)) <$> cursors set !! c.

Definition tallied set c (acc : list (Z * HitResult)) : Prop :=
  forall kb, runCounters set c = Some kb ->
    kb = (wrap64 (count100 acc.*2), wrap64 (countBad acc.*2)).

End Vocabulary.

(** ** A reference instance

    One choice of the declarations and collaborators on which the
    functions can be run: outcome codes and modifiers as distinct bit
    flags, a score processor that counts the combo, a health model of one
    integer, and targets whose state is the list of (target, cursor)
    pairs already hit. *)

Module Reference.

Definition Additions : Z := Z.lor (Z.lor 4096 8192) 16384.

#[export] Instance decls : Declarations := {|
  Ignore := 0;
  Miss := 4;
  Hit50 := 8;
  Hit100 := 16;
  Hit300 := 32;
  PositionalMiss := 32768;
  MuAddition := 4096;
  KatuAddition := 8192;
  GekiAddition := 16384;
  BaseHits := 56;
  BaseHitsM := 60;
  ScoreValue := fun r =>
    let b := Z.land r (Z.lnot Additions) in
    if b =? 8 then 50 else if b =? 16 then 100
    else if b =? 32 then 300 else 0;
  NoFail := 1;
  Easy := 2;
  Hidden := 8;
  Flashlight := 1024;
  Relax := 128;
  Relax2 := 8192;
  ScoreV2 := 536870912;
  DifficultyAdjustMask := 338;
  HittableRange := 400%Q;
  Active := fun mods m => 0 <? Z.land mods m;
  CheckModActive := fun d m => 0 <? Z.land (Mods d) m;
  Left := 1;
  Right := 2
|}.

(** Score and combo. *)
#[export] Instance score : scoreProcessor (Z * Z) := {|
  newScoreV1Processor := (0, 0);
  newScoreV2Processor := (0, 0);
  Init := fun sp _ _ => sp;
  ModifyResult := fun sp r _ => (r, sp);
  AddResult := fun sp r cr =>
    let combo := match cr with
                 | ComboResults.Increase => snd sp + 1
                 | ComboResults.Reset => 0
                 | ComboResults.Hold => snd sp
                 end in
    (fst sp + ScoreValue r, combo);
  GetScore := fst;
  GetCombo := snd
|}.

(** Health 200 at the start, a miss costs 100, the passive drain is one
    unit per update; the fail callback fires at zero. *)
#[export] Instance health : HealthProcessor.t Z := {|
  HealthProcessor.Update := fun h _ => (Z.max 0 (h - 1), h - 1 <=? 0);
  HealthProcessor.AddResult := fun h r =>
    if r =? 4 then (Z.max 0 (h - 100), h - 100 <=? 0) else (h, false);
  HealthProcessor.Increase := fun h amount _ => h + Qtrunc amount;
  HealthProcessor.NewHealthProcessor := fun _ _ _ => 200
|}.

#[export] Instance pp : performance.t unit unit unit := {|
  performance.PPv2x := fun _ _ _ _ _ _ _ _ _ _ _ _ _ => tt;
  performance.Results := fun _ => tt;
  performance.CalculateStep := fun objs _ _ => map (fun _ => tt) objs;
  performance.newPPv2 := tt
|}.

Definition World : Type := list (positive * positive).

#[export] Instance tgts : Targets World Z (Z * Z) unit unit unit := {|
  IsHit := fun w g pl =>
    bool_decide ((target_ptr g, cursor pl) ∈ w);
  UpdatePost := fun w g _ => (w, false);
  UpdateFor := fun _ _ _ _ set => (targets set, cursors set, []);
  UpdateClickFor_ := fun _ _ _ set => (targets set, cursors set, []);
  UpdatePostFor_ := fun _ _ _ set => (targets set, cursors set, []);
  initFadeTime := fun _ o => Qtrunc (GetStartTime o) - 600;
  initTargets := fun _ _ => []
|}.

Definition RuleSet : Type := OsuRuleSet World Z (Z * Z) unit unit.

Definition circleAt (t : Z) (newCombo : bool) (stack : Z) : IHitObject :=
  {| kind := KCircle; GetStartTime := inject_Z t; GetEndTime := inject_Z t;
     IsNewCombo := newCombo; GetStackIndex := fun _ => stack |}.

Definition sliderAt (t e : Z) (newCombo : bool) (ticks : nat)
  : IHitObject :=
  {| kind := KSlider (replicate ticks tt); GetStartTime := inject_Z t;
     GetEndTime := inject_Z e; IsNewCombo := newCombo;
     GetStackIndex := fun _ => 0 |}.

Definition theCursor : Cursor :=
  {| IsReplayFrame := true; IsPlayer := false; LeftButton := true;
     RightButton := false; OldSpinnerScoring := false |}.

Definition build (objs : list IHitObject) (mods : Modifier)
  : option RuleSet :=
  NewOsuRuleset false {| HitObjects := objs; Diff := {| Mods := 0 |} |}
    [(1%positive, theCursor)] [mods].

(** The rule set after [Update] at [time] with the hit listener and the
    fail listener registered. *)
Definition started (objs : list IHitObject) (mods : Modifier) (time : Z)
  : option RuleSet :=
  set ← build objs mods;
  fst <$> Update [1%positive]
            (SetFailListener (SetListener set true) true) time.

Definition target (t : TargetType) (i : nat) (fade : Z) : HitObject :=
  {| target_type := t; target_ptr := Pos.of_succ_nat i;
     GetNumber := Z.of_nat i; GetFadeTime := fade |}.

Definition hitBy (set : RuleSet) (w : World) : RuleSet := with_targets set w.

Definition emptyRuleSet : RuleSet :=
  {| beatMap := {| HitObjects := []; Diff := {| Mods := 0 |} |};
     cursors := ∅; ended := false; mapStats := []; oppDiffs := ∅;
     queue := []; processed := []; hitListener := false;
     endListener := false; failListener := false;
     experimentalPP := false; targets := [] |}.

Definition the (o : option RuleSet) : RuleSet := default emptyRuleSet o.

Definition thePlayer (set : RuleSet) : difficultyPlayer :=
  default (newPlayer 1 {| Mods := 0 |})
          (player <$> cursors set !! 1%positive).

Definition theSubSet (set : RuleSet) : subSet Z (Z * Z) unit :=
  default (newSubSet (newPlayer 1 {| Mods := 0 |}) 0 0 (0, 0))
          (cursors set !! 1%positive).

(** A judgement of cursor 1 on target [i], at the origin. *)
Definition judge (set : RuleSet) (time : Z) (t : TargetType) (i : nat)
    (fade : Z) (result : HitResult) (cr : ComboResults.t)
  : option (RuleSet * list (Event unit)) :=
  SendResult set time 1%positive (target t i fade) 0%Q 0%Q result cr.

(** Three circles, the second one stacked, all active and unhit. *)
Definition stackObjects : list IHitObject :=
  [circleAt 1000 true 0; circleAt 1200 false 1; circleAt 1200 false 0].

Definition stackSet : RuleSet := the (started stackObjects 0 1000).

(** A long slider, a circle inside it and a later circle, all active and
    unhit. *)
Definition skipObjects : list IHitObject :=
  [sliderAt 1000 3000 true 0; circleAt 1100 false 0; circleAt 2000 false 0].

Definition skipSet : RuleSet := the (started skipObjects 0 1700).

(** A combo run of two circles followed by a new combo. *)
Definition runObjects : list IHitObject :=
  [circleAt 1000 true 0; circleAt 1200 false 0; circleAt 1400 true 0].

Definition runSet : RuleSet := the (started runObjects 0 1000).

(** The first circle judged [first] and marked hit. *)
Definition runAfter (first : HitResult) : RuleSet :=
  hitBy (the (fst <$> judge runSet 1000 Circle 0 400 first
                        ComboResults.Increase))
        [(1%positive, 1%positive)].

Definition runClosed (first second : HitResult)
  : option (RuleSet * list (Event unit)) :=
  judge (runAfter first) 1200 Circle 1 600 second ComboResults.Increase.

(** The same map played with Relax, with Easy, and by two cursors. *)
Definition relaxSet : RuleSet := the (started runObjects 128 1000).

Definition easySet : RuleSet := the (started runObjects 2 1000).

Definition twoCursors : option RuleSet :=
  NewOsuRuleset false
    {| HitObjects := runObjects; Diff := {| Mods := 0 |} |}
    [(1%positive, theCursor); (2%positive, theCursor)] [0; 0].

(** Two sliders, active and unhit. *)
Definition sliderObjects : list IHitObject :=
  [sliderAt 1000 1500 true 1; sliderAt 1200 1800 false 1;
   circleAt 1300 false 0].

Definition sliderSet : RuleSet := the (started sliderObjects 0 1000).

(** A short run: the hit listener is registered, the targets are
    activated, and the first circle is judged 100. *)
Definition shortRun : list (Call (W := World)) :=
  [DoSetListener true; DoUpdate [1%positive] 1000;
   DoSendResult 1000 1%positive (target Circle 0 400) 0%Q 0%Q 16
     ComboResults.Increase].

(** The calls that the click pass and the motion pass make on
    [sliderSet]. *)
Definition clickCalls : list TargetCall :=
  [CallUpdateClickFor (target Slider 0 400);
   CallUpdateClickFor (target Slider 1 600);
   CallUpdateClickFor (target Circle 2 700)].

Definition normalCalls : list TargetCall :=
  [AskIsHit (target Slider 0 400) false;
   CallUpdateFor (target Slider 0 400);
   CallUpdateFor (target Circle 2 700)].

(** The rule set for [objs] with the three listeners registered, before
    the first frame, and after a frame at 500 in which only the first
    circle of [runObjects] is due. *)
Definition listening (objs : list IHitObject) (mods : Modifier) : RuleSet :=
  SetEndListener
    (SetFailListener (SetListener (the (build objs mods)) true) true) true.

Definition halfStarted : RuleSet :=
  the (fst <$> Update [1%positive] (listening runObjects 0) 500).

(** Targets that are done one second after their activation, and the
    frames at 1500 and at 2000 of [runSet] with them. *)
Definition retiring : Targets World Z (Z * Z) unit unit unit := {|
  IsHit := fun w g pl => bool_decide ((target_ptr g, cursor pl) ∈ w);
  UpdatePost := fun w g time => (w, GetFadeTime g + 1000 <=? time);
  UpdateFor := fun _ _ _ _ set => (targets set, cursors set, []);
  UpdateClickFor_ := fun _ _ _ set => (targets set, cursors set, []);
  UpdatePostFor_ := fun _ _ _ set => (targets set, cursors set, []);
  initFadeTime := fun _ o => Qtrunc (GetStartTime o) - 600;
  initTargets := fun _ _ => []
|}.

Definition retiredSet : RuleSet :=
  the (fst <$> Update (Targets0 := retiring) [1%positive]
                 (SetEndListener runSet true) 1500).

Definition theMap : BeatMap :=
  {| HitObjects := runObjects; Diff := {| Mods := 0 |} |}.

(** A whole map: the targets are activated at 1000 and gone at 3000. *)
Definition wholeRun : list (Call (W := World)) :=
  [DoUpdate [1%positive] 1000; DoUpdate [1%positive] 3000].

Definition endedSet : RuleSet :=
  the (fst <$> run (Targets0 := retiring) (the (build runObjects 0))
                 wholeRun).

(** The three circles of [runObjects] judged 300, 100 and miss. *)
Definition fullRun : list (Call (W := World)) :=
  [DoSetListener true; DoSetFailListener true; DoUpdate [1%positive] 1000;
   DoSendResult 1000 1%positive (target Circle 0 400) 0%Q 0%Q 32
     ComboResults.Increase;
   DoSendResult 1200 1%positive (target Circle 1 600) 0%Q 0%Q 16
     ComboResults.Increase;
   DoSendResult 1400 1%positive (target Circle 2 800) 0%Q 0%Q 4
     ComboResults.Reset].

Definition playedSet : RuleSet :=
  the (fst <$> run (the (build runObjects 0)) fullRun).

(** Two misses by a player without recoveries: the second one fails
    the player. *)
Definition failingRun : list (Call (W := World)) :=
  [DoSetFailListener true; DoUpdate [1%positive] 1000;
   DoSendResult 1000 1%positive (target Circle 0 400) 0%Q 0%Q 4
     ComboResults.Reset;
   DoSendResult 1200 1%positive (target Circle 1 600) 0%Q 0%Q 4
     ComboResults.Reset].

Definition failedSet (mods : Modifier) : RuleSet :=
  the (fst <$> run (the (build runObjects mods)) failingRun).

Definition fullEvents : list (Event unit) :=
  [HitEvent 1%positive 1000 0 (0%Q, 0%Q) 32 ComboResults.Increase tt 300;
   HitEvent 1%positive 1200 1 (0%Q, 0%Q) 4112 ComboResults.Increase tt 400;
   HitEvent 1%positive 1400 2 (0%Q, 0%Q) 4 ComboResults.Reset tt 400].

(** Two hundred frames drain the health of both cursors of
    [twoCursors]; [order] is the order in which every frame visits
    them. *)
Definition drain (order : list positive) : list (Call (W := World)) :=
  DoSetFailListener true :: replicate 200 (DoUpdate order 1000).

Definition drainedSet : RuleSet :=
  the (fst <$> run (the twoCursors) (drain [1%positive; 2%positive])).

(** A run without listeners. *)
Definition quietRun : list (Call (W := World)) :=
  [DoUpdate [1%positive] 1000;
   DoSendResult 1000 1%positive (target Circle 0 400) 0%Q 0%Q 4
     ComboResults.Reset].

(** The state of cursor 1 after the click pass on [sliderSet]. *)
Definition clickedSet : RuleSet :=
  editPlayer (editPlayer sliderSet 1%positive (clickEdges theCursor))
    1%positive (storeButtons theCursor).

(** [halfStarted] after a frame at 700, with targets that are done one
    second after their activation. *)
Definition laterSet : RuleSet :=
  the (fst <$> Update (Targets0 := retiring) [1%positive] halfStarted 700).

(** [twoCursors] after a miss of cursor 1 on the first circle. *)
Definition missedSet : RuleSet :=
  the (fst <$> SendResult (the twoCursors) 1000 1%positive
                 (target Circle 0 400) 0%Q 0%Q 4 ComboResults.Reset).

(** Two combo runs judged out of order: a circle and a long slider,
    then two circles.  The first circle of the second run is missed
    while the slider is still running; the slider ends with a 300. *)
Definition crossObjects : list IHitObject :=
  [circleAt 1000 true 0; sliderAt 1200 3000 false 0;
   circleAt 1600 true 0; circleAt 3200 false 0].

Definition crossRun : list (Call (W := World)) :=
  [DoSetListener true; DoUpdate [1%positive] 1000;
   DoSendResult 1000 1%positive (target Circle 0 400) 0%Q 0%Q 32
     ComboResults.Increase;
   DoTargets [(1%positive, 1%positive)];
   DoUpdate [1%positive] 1800;
   DoSendResult 1800 1%positive (target Circle 2 1000) 0%Q 0%Q 4
     ComboResults.Reset;
   DoTargets [(3%positive, 1%positive); (1%positive, 1%positive)];
   DoUpdate [1%positive] 3000;
   DoSendResult 3000 1%positive (target Slider 1 600) 0%Q 0%Q 32
     ComboResults.Increase;
   DoTargets [(2%positive, 1%positive); (3%positive, 1%positive);
              (1%positive, 1%positive)]].

Definition crossStart : RuleSet := the (build crossObjects 0).

Definition crossSet : RuleSet := the (fst <$> run crossStart crossRun).

Definition crossEvents : list (Event unit) :=
  default [] (snd <$> run crossStart crossRun).

(** The 300 on the last circle, which closes the second run. *)
Definition crossClosed : option (RuleSet * list (Event unit)) :=
  judge crossSet 3200 Circle 3 2600 32 ComboResults.Increase.

(** A circle at the instant [t]; one that starts at 1000.75 ms. *)
Definition instant (t : Q) (newCombo : bool) : IHitObject :=
  {| kind := KCircle; GetStartTime := t; GetEndTime := t;
     IsNewCombo := newCombo; GetStackIndex := fun _ => 0 |}.

Definition lateSet : RuleSet := the (started [instant (4003 # 4) true] 0 1000).

(** The [float64] values nearest to 0.1 and to 3.1, and a circle at
    each of them. *)
Definition tenth : Q := 3602879701896397 # 36028797018963968.

Definition threeTenth : Q := 6980579422424269 # 2251799813685248.

Definition closeSet : RuleSet :=
  the (started [instant tenth true; instant threeTenth false] 0 0).

(** Operands on which [round64] is compared with the Standard Library's
    specification of IEEE 754: sums that are exact, that round up, down
    and to even, that overflow, and subnormal ones. *)
Definition onFinite (op : Q -> Q -> float64) (x y : spec_float) : float64 :=
  match ofSpec x, ofSpec y with
  | Fnum a, Fnum b => op a b
  | _, _ => FNaN
  end.

Definition samples : list (spec_float * spec_float) :=
  [(S754_finite false 7205759403792794 (-56),
    S754_finite false 6755399441055744 (-51));
   (S754_finite true 7205759403792794 (-56),
    S754_finite true 6755399441055744 (-51));
   (S754_finite false 7205759403792794 (-56),
    S754_finite true 7205759403792794 (-56));
   (S754_finite false 4503599627370496 1,
    S754_finite false 4503599627370496 (-52));
   (S754_finite false 4503599627370497 1,
    S754_finite false 4503599627370496 (-52));
   (S754_finite false 4503599627370496 (-52),
    S754_finite false 4503599627370496 (-105));
   (S754_finite false 4503599627370497 (-52),
    S754_finite false 4503599627370496 (-105));
   (S754_finite false 4503599627370496 (-52),
    S754_finite false 6755399441055744 (-105));
   (S754_finite false 9007199254740991 971,
    S754_finite false 9007199254740991 971);
   (S754_finite false 9007199254740991 971,
    S754_finite false 4503599627370496 918);
   (S754_finite false 9007199254740991 971,
    S754_finite false 4503599627370496 917);
   (S754_finite false 1 (-1074), S754_finite false 1 (-1074));
   (S754_finite false 4503599627370495 (-1074),
    S754_finite false 1 (-1074));
   (S754_finite false 7205759403792794 (-56),
    S754_finite false 5404319552844595 (-54));
   (S754_finite false 6004799503160661 (-51),
    S754_finite true 5404319552844595 (-54))].

Definition integers : list Z :=
  [0; 1; -400; 2 ^ 53; 2 ^ 53 + 1; 2 ^ 53 + 3; - (2 ^ 53 + 1);
   2 ^ 63 - 1; - 2 ^ 63; 123456789012345678].

End Reference.

(** ** Binary search *)

Lemma Search_loop_fuel (f : Z -> bool) (fuel extra : nat) (i j : Z) :
  j - i <= Z.of_nat fuel ->
  Search_loop (fuel + extra) i j f = Search_loop fuel i j f.
Proof.
  revert i j. induction fuel as [|fuel IH]; intros i j Hle.
  - destruct extra as [|extra]; [done|]. simpl.
    destruct (Z.ltb_spec i j); [lia|done].
  - simpl. destruct (Z.ltb_spec i j); [|done].
    assert (i <= (i + j) / 2 < j) by (split;
      [apply Z.div_le_lower_bound | apply Z.div_lt_upper_bound]; lia).
    destruct (f ((i + j) / 2)); simpl; apply IH; lia.
Qed.

(** On a predicate that is monotone on [0, n) the search returns the
    least index at which it holds, or [n]. *)
Lemma Search_loop_spec (f : Z -> bool) (n : Z) (fuel : nat) (i j : Z) :
  (forall a b, 0 <= a <= b -> b < n -> f a = true -> f b = true) ->
  0 <= i <= j -> j <= n -> j - i <= Z.of_nat fuel ->
  (forall k, 0 <= k < i -> f k = false) ->
  (forall k, j <= k < n -> f k = true) ->
  i <= Search_loop fuel i j f <= j
  /\ (forall k, 0 <= k < Search_loop fuel i j f -> f k = false)
  /\ (forall k, Search_loop fuel i j f <= k < n -> f k = true).
Proof.
  intros Hmono. revert i j.
  induction fuel as [|fuel IH]; intros i j Hij Hjn Hfuel Hlow Hhigh.
  - simpl. assert (i = j) as -> by lia. repeat split; try lia; done.
  - simpl. destruct (Z.ltb_spec i j) as [Hlt|Hge].
    2: { assert (i = j) as -> by lia. repeat split; try lia; done. }
    assert (i <= (i + j) / 2 < j) as Hh by (split;
      [apply Z.div_le_lower_bound | apply Z.div_lt_upper_bound]; lia).
    destruct (f ((i + j) / 2)) eqn:Hf; simpl.
    + destruct (IH i ((i + j) / 2)) as (Hr & Hlo & Hhi); try lia; try done.
      { intros k Hk. destruct (Z.le_gt_cases j k); [apply Hhigh; lia|].
        apply (Hmono ((i + j) / 2) k); [lia|lia|done]. }
      repeat split; try lia; done.
    + destruct (IH ((i + j) / 2 + 1) j) as (Hr & Hlo & Hhi); try lia;
        try done.
      { intros k Hk. destruct (Z.lt_ge_cases k i); [apply Hlow; lia|].
        destruct (f k) eqn:Hfk; [|done].
        rewrite (Hmono k ((i + j) / 2)) in Hf; [done|lia|lia|done]. }
      repeat split; try lia; done.
Qed.

Lemma sort_Search_spec (f : Z -> bool) (n : Z) :
  0 <= n ->
  (forall a b, 0 <= a <= b -> b < n -> f a = true -> f b = true) ->
  0 <= sort_Search n f <= n
  /\ (forall k, 0 <= k < sort_Search n f -> f k = false)
  /\ (forall k, sort_Search n f <= k < n -> f k = true).
Proof.
  intros Hn Hmono. unfold sort_Search.
  apply (Search_loop_spec f n); try done; try lia.
Qed.

(** ** Rounding

    [round64] is exact on the integers of at most 53 bits, so the
    conversion [float64(time - int64(start))] of [CanBeHit] is exact for
    every click that is at most [2^53] ms away from its target. *)

Lemma roundEven_Z (q : Q) (n : Z) : (q == inject_Z n)%Q -> roundEven q = n.
Proof.
  intros Hq. unfold roundEven.
  assert (Qfloor q = n) as -> by (rewrite Hq; apply Qfloor_Z).
  assert ((q - inject_Z n ?= 1 # 2)%Q = Lt) as ->; [|done].
  apply (proj1 (Qlt_alt _ _)). rewrite Hq.
  assert (inject_Z n - inject_Z n == 0)%Q as -> by ring. reflexivity.
Qed.

Lemma Qpower_2_pos (k : Z) : 0 <= k -> ((2 ^ k)%Q == inject_Z (2 ^ k))%Q.
Proof.
  intros Hk. change 2%Q with (inject_Z 2). symmetry. by apply Zpower_Qpower.
Qed.

Lemma Qlog2_Z (n : Z) : 0 < n -> Qlog2 (inject_Z n) = Z.log2 n.
Proof.
  intros Hn. unfold Qlog2. simpl. rewrite Z.sub_0_r.
  pose proof (Z.log2_nonneg n) as Hnn.
  destruct (Qle_bool (2 ^ Z.log2 n) (inject_Z n)) eqn:Hle; [done|].
  assert (Qle_bool (2 ^ Z.log2 n) (inject_Z n) = true) as Hyes; [|congruence].
  apply Qle_bool_iff. rewrite Qpower_2_pos by done.
  rewrite <- Zle_Qle. by apply Z.log2_spec.
Qed.

(** An integer of at most 53 bits is a multiple of the unit in its last
    place. *)
Lemma ulp_divides (n : Z) :
  0 < n <= 2 ^ 53 ->
  exists m, (inject_Z n / 2 ^ (Z.log2 n - 52) == inject_Z m)%Q.
Proof.
  intros [Hpos Hle].
  pose proof (Z.log2_nonneg n) as Hnn.
  assert (Z.log2 n <= 53) as Hlog.
  { rewrite <- (Z.log2_pow2 53) by lia. by apply Z.log2_le_mono. }
  destruct (Z.le_gt_cases (Z.log2 n) 52) as [Hsmall|Hbig].
  - exists (n * 2 ^ (52 - Z.log2 n)).
    replace (Z.log2 n - 52) with (- (52 - Z.log2 n)) by lia.
    rewrite Qpower_opp. unfold Qdiv. rewrite Qinv_involutive.
    rewrite Qpower_2_pos by lia. by rewrite inject_Z_mult.
  - assert (Z.log2 n = 53) as Heq by lia.
    assert (n = 2 ^ 53) as ->.
    { pose proof (Z.log2_spec n Hpos) as [Hlow _]. rewrite Heq in Hlow. lia. }
    exists (2 ^ 52). rewrite Heq. reflexivity.
Qed.

Lemma Qred_inject_Z (n : Z) : Qred (inject_Z n) = inject_Z n.
Proof.
  unfold Qred, inject_Z.
  pose proof (Z.ggcd_gcd n 1) as Hg.
  pose proof (Z.ggcd_correct_divisors n 1) as Hd.
  destruct (Z.ggcd n 1) as [g [a b]]. simpl in *.
  rewrite Z.gcd_1_r in Hg. subst g. destruct Hd as [-> Hb].
  rewrite Z.mul_1_l in Hb. subst b. f_equal. lia.
Qed.

Lemma round64_Z (z : Z) :
  Z.abs z <= 2 ^ 53 -> round64 (inject_Z z) = Fnum (inject_Z z).
Proof.
  intros Hz. unfold round64.
  destruct (Qeq_bool (inject_Z z) 0) eqn:Hzero.
  { apply Qeq_bool_eq in Hzero. unfold Qeq in Hzero. simpl in Hzero.
    by replace z with 0 by lia. }
  assert (z ≠ 0) as Hne.
  { intros ->. by vm_compute in Hzero. }
  change (Qabs (inject_Z z)) with (inject_Z (Z.abs z)).
  destruct (ulp_divides (Z.abs z)) as [m Hm]; [lia|].
  rewrite Qlog2_Z by lia.
  pose proof (Z.log2_nonneg (Z.abs z)) as Hnn.
  rewrite Z.max_l by lia.
  rewrite (roundEven_Z _ m Hm).
  set (ulp := (2 ^ (Z.log2 (Z.abs z) - 52))%Q) in *.
  assert (~ (ulp == 0)%Q) as Hulp.
  { unfold ulp. apply Qpower_not_0. done. }
  assert ((inject_Z m * ulp == inject_Z (Z.abs z))%Q) as Hv.
  { rewrite <- Hm. field. done. }
  assert (Qle_bool (2 ^ 1024) (inject_Z m * ulp) = false) as ->.
  { apply not_true_iff_false. intros Hle%Qle_bool_iff.
    rewrite Hv in Hle. rewrite Qpower_2_pos in Hle by lia.
    rewrite <- Zle_Qle in Hle.
    assert (2 ^ 53 < 2 ^ 1024) by (apply Z.pow_lt_mono_r; lia). lia. }
  f_equal. etrans; [|apply Qred_inject_Z]. apply Qred_complete.
  unfold Qlt_bool.
  destruct (Qle_bool 0 (inject_Z z)) eqn:Hsign; simpl.
  - apply Qle_bool_iff in Hsign. change 0%Q with (inject_Z 0) in Hsign.
    rewrite <- Zle_Qle in Hsign.
    transitivity (inject_Z (Z.abs z)); [exact Hv|]. by rewrite Z.abs_eq.
  - assert (z < 0) as Hneg.
    { destruct (Z.lt_ge_cases z 0) as [|Hge]; [done|].
      assert (Qle_bool 0 (inject_Z z) = true); [|congruence].
      apply Qle_bool_iff. change 0%Q with (inject_Z 0).
      by rewrite <- Zle_Qle. }
    transitivity (- inject_Z (Z.abs z))%Q; [by apply Qopp_comp|].
    rewrite Z.abs_neq by lia. rewrite inject_Z_opp. ring.
Qed.

Lemma ofInt64_exact (z : Z) :
  Z.abs z <= 2 ^ 53 ->
  fabs (ofInt64 z) = Fnum (inject_Z (Z.abs z)).
Proof. intros Hz. unfold ofInt64. by rewrite round64_Z. Qed.

(** ** Properties *)

Section Properties.

Context {W HP SP PPv2 Stars PPv2Results : Type}.
Context `{!Declarations} `{!scoreProcessor SP} `{!HealthProcessor.t HP}.
Context `{!performance.t PPv2 Stars PPv2Results}.
Context `{!Targets W HP SP PPv2 Stars PPv2Results}.

Local Abbreviation subSet := (subSet HP SP PPv2).
Local Abbreviation OsuRuleSet := (OsuRuleSet W HP SP PPv2 Stars).
Local Abbreviation Event := (Event PPv2Results).

Implicit Types (set : OsuRuleSet) (ss : subSet) (pl : difficultyPlayer).
Implicit Types (g object : HitObject) (c : positive) (evs : list Event).

(** *** The click-eligibility resolver *)

Lemma index_app_length {A} (l1 l2 : list A) (x : A) :
  index (l1 ++ x :: l2) (Z.of_nat (length l1)) = Some x.
Proof.
  unfold index. destruct (Z.ltb_spec (Z.of_nat (length l1)) 0); [lia|].
  rewrite Nat2Z.id. by rewrite list_lookup_middle.
Qed.

Lemma findObject_absent object l i found :
  object ∉ l -> findObject object l i found = found.
Proof.
  revert i found. induction l as [|g l IH]; intros i found Hnot; [done|].
  simpl. apply not_elem_of_cons in Hnot as [Hne Hnot].
  rewrite (IH _ _ Hnot). by rewrite decide_False.
Qed.

Lemma findObject_app object l1 l2 i found :
  findObject object (l1 ++ l2) i found =
  findObject object l2 (i + Z.of_nat (length l1))
    (findObject object l1 i found).
Proof.
  revert i found. induction l1 as [|g l1 IH]; intros i found; simpl.
  - by rewrite Z.add_0_r.
  - rewrite IH. f_equal. lia.
Qed.

Lemma findObject_last object before after :
  object ∉ after ->
  findObject object (before ++ object :: after) 0 (-1) =
  Z.of_nat (length before).
Proof.
  intros Hnot. rewrite findObject_app. simpl.
  rewrite decide_True by done. by rewrite findObject_absent.
Qed.

(** The loop of [CanBeHit] leaves the last position of the candidate. *)
Lemma findObject_position object (l : list HitObject) (k : Z) :
  0 <= k -> findObject object l 0 (-1) = k ->
  exists before after,
    l = before ++ object :: after /\ (object ∉ after)
    /\ k = Z.of_nat (length before).
Proof.
  intros Hk. induction l as [|g l IH] using rev_ind; simpl; [lia|].
  rewrite findObject_app. simpl. intros Hfind.
  destruct (decide (g = object)) as [->|Hne].
  - exists l, []. split; [done|]. split; [apply not_elem_of_nil|lia].
  - destruct (IH Hfind) as (before & after & -> & Hnot & ->).
    exists before, (after ++ [g]). rewrite <- app_assoc. split; [done|].
    split; [|done]. rewrite elem_of_app, list_elem_of_singleton.
    intros [?|?]; [done|]. by apply Hne.
Qed.

(** The stack rule: the candidate is a circle, and the target right
    before its last position in the active set belongs to an object
    with a positive stack index and is not resolved by the player. *)
Lemma stackGuard_spec set object pl stacked :
  stackGuard set object pl = Some stacked ->
  stacked = true <->
  isCircle object = true
  /\ exists before prev after o,
       processed set = before ++ prev :: object :: after
       /\ (object ∉ after)
       /\ index (HitObjects (beatMap set)) (GetNumber prev) = Some o
       /\ 0 < GetStackIndex o (Mods (diff pl))
       /\ IsHit (targets set) prev pl = false.
Proof.
  unfold stackGuard. intros Hguard. split.
  - intros ->. destruct (isCircle object); [|done]. split; [done|].
    destruct (Z.ltb_spec 0 (findObject object (processed set) 0 (-1)))
      as [Hpos|]; [|done].
    destruct (findObject_position object (processed set) _
                (Z.lt_le_incl _ _ Hpos) eq_refl)
      as (before0 & after & Hproc & Hnot & Hlen).
    rewrite Hlen in Hguard, Hpos.
    destruct before0 as [|g before0 _] using rev_ind; [simpl in Hpos; lia|].
    rewrite Hproc, length_app in Hguard. simpl in Hguard.
    replace (Z.of_nat (length before0 + 1) - 1)
      with (Z.of_nat (length before0)) in Hguard by lia.
    rewrite <- !app_assoc in Hguard. simpl in Hguard.
    rewrite index_app_length in Hguard. simpl in Hguard.
    destruct (index (HitObjects (beatMap set)) (GetNumber g))
      as [o|] eqn:Ho; [|done].
    simpl in Hguard. injection Hguard as Hguard.
    apply andb_true_iff in Hguard as [Hstack Hhit].
    apply Z.ltb_lt in Hstack. apply negb_true_iff in Hhit.
    exists before0, g, after, o. rewrite Hproc, <- app_assoc. done.
  - intros (Hcircle & before & prev & after & o & Hproc & Hnot & Ho & Hstack
            & Hhit).
    rewrite Hcircle, Hproc in Hguard.
    replace (before ++ prev :: object :: after)
      with ((before ++ [prev]) ++ object :: after) in Hguard
      by by rewrite <- app_assoc.
    rewrite findObject_last in Hguard by done.
    rewrite length_app in Hguard. simpl in Hguard.
    destruct (Z.ltb_spec 0 (Z.of_nat (length before + 1))); [|lia].
    replace (Z.of_nat (length before + 1) - 1)
      with (Z.of_nat (length before)) in Hguard by lia.
    rewrite <- app_assoc in Hguard. simpl in Hguard.
    rewrite index_app_length in Hguard. simpl in Hguard.
    rewrite Ho in Hguard. simpl in Hguard. rewrite Hhit in Hguard.
    destruct (Z.ltb_spec 0 (GetStackIndex o (Mods (diff pl)))); [|lia].
    by simplify_eq.
Qed.

Lemma skippedScan_scanned set object pl l s :
  index (HitObjects (beatMap set)) (GetNumber object) = Some s ->
  Forall (fun g => is_Some (index (HitObjects (beatMap set)) (GetNumber g)))
         (scannedPrefix set pl (GetNumber object) l) ->
  skippedScan set object pl l =
  Some (existsb (unresolvedStale set pl object)
                (scannedPrefix set pl (GetNumber object) l)).
Proof.
  intros Hs. induction l as [|g l IH]; intros Hvalid; [done|].
  simpl in *. destruct (IsHit (targets set) g pl) eqn:Hhit; simpl in *.
  { apply Forall_cons in Hvalid as [_ Hvalid].
    unfold unresolvedStale at 1. rewrite Hhit. simpl. by apply IH. }
  destruct (Z.eqb_spec (GetNumber g) (GetNumber object)); [done|].
  simpl in *. apply Forall_cons in Hvalid as [[e He] Hvalid].
  unfold unresolvedStale at 1, stale. rewrite Hhit, He, Hs. simpl.
  destruct (flt _ _); [done|by apply IH].
Qed.

(** For a candidate that the player has not resolved the scan passes the
    targets before it. *)
Lemma scannedPrefix_before set pl object before after :
  IsHit (targets set) object pl = false ->
  Forall (fun g => GetNumber g ≠ GetNumber object) before ->
  scannedPrefix set pl (GetNumber object) (before ++ object :: after)
  = before.
Proof.
  intros Hobj. induction 1 as [|g before Hne _ IH]; simpl.
  - by rewrite Hobj, Z.eqb_refl.
  - destruct (Z.eqb_spec (GetNumber g) (GetNumber object)); [done|].
    by rewrite andb_false_r, IH.
Qed.

(** When every target with the candidate's ordinal is resolved, the scan
    passes the whole list. *)
Lemma scannedPrefix_all set pl number (l : list HitObject) :
  Forall (fun g => GetNumber g = number -> IsHit (targets set) g pl = true)
         l ->
  scannedPrefix set pl number l = l.
Proof.
  induction 1 as [|g l Hg _ IH]; [done|]. simpl.
  destruct (Z.eqb_spec (GetNumber g) number) as [Heq|Hne].
  - by rewrite (Hg Heq), IH.
  - by rewrite andb_false_r, IH.
Qed.

(** C1 (amended): the stack rule comes first: a circle right behind an
    unresolved target of an object with a positive stack index is
    answered [Ignored].  Otherwise [CanBeHit] answers [Shake] exactly
    when one of the targets that the scan passes is unresolved and stale
    (the [float64] sum of its end time and 3 is below the candidate's
    start time) or the click is outside the window:
    [|time - int64(start)| >= range], the start time truncated to
    [int64], the difference taken in [int64] and converted to [float64],
    the range reduced by 200 with Relax2; and [Click] otherwise.  The
    scan passes the active targets before the first unresolved one with
    the candidate's ordinal: the targets before an unresolved candidate,
    so that an unresolved target that is not stale does not end the
    scan, and the whole active set for a candidate that is already
    resolved.  The conversion is exact for a difference of at most
    [2^53]. *)
Theorem C1_CanBeHit_shake set time object pl o stacked :
  index (HitObjects (beatMap set)) (GetNumber object) = Some o ->
  Forall (fun g => is_Some (index (HitObjects (beatMap set)) (GetNumber g)))
         (scanned set pl object) ->
  stackGuard set object pl = Some stacked ->
  let range := if CheckModActive (diff pl) Relax2
               then fsub HittableRange 200 else Fnum HittableRange in
  let difference := wrap64 (time - Qtrunc (GetStartTime o)) in
  let distance := fabs (ofInt64 difference) in
  CanBeHit set time object pl =
    Some (if stacked then Ignored
          else if existsb (unresolvedStale set pl object)
                          (scanned set pl object)
                  || fle range distance
          then Shake else Click)
  /\ (stacked = true <->
      isCircle object = true
      /\ exists before prev after o',
           processed set = before ++ prev :: object :: after
           /\ (object ∉ after)
           /\ index (HitObjects (beatMap set)) (GetNumber prev) = Some o'
           /\ 0 < GetStackIndex o' (Mods (diff pl))
           /\ IsHit (targets set) prev pl = false)
  /\ (forall before after,
        processed set = before ++ object :: after ->
        IsHit (targets set) object pl = false ->
        Forall (fun g => GetNumber g ≠ GetNumber object) before ->
        scanned set pl object = before)
  /\ (Forall (fun g => GetNumber g = GetNumber object ->
                       IsHit (targets set) g pl = true) (processed set) ->
      scanned set pl object = processed set)
  /\ (Z.abs difference <= 2 ^ 53 ->
      distance = Fnum (inject_Z (Z.abs difference))).
Proof.
  intros Ho Hvalid Hguard range difference distance.
  split; [|split; [|split; [|split]]].
  - unfold CanBeHit. rewrite Hguard. simpl. destruct stacked; [done|].
    rewrite (skippedScan_scanned _ _ _ _ _ Ho Hvalid). simpl.
    fold (scanned set pl object).
    destruct (existsb _ (scanned set pl object)); [done|].
    rewrite Ho. simpl. unfold outOfWindow, hitRange.
    fold range difference distance. by destruct (fle range distance).
  - by apply stackGuard_spec.
  - intros before after Hproc Hobj Hbefore. unfold scanned.
    rewrite Hproc. by apply scannedPrefix_before.
  - intros Hall. by apply scannedPrefix_all.
  - apply ofInt64_exact.
Qed.

(** C8: a circle whose predecessor in the active set has a positive stack
    index and is not yet hit by the player is answered [Ignored],
    whatever the click time. *)
Theorem C8_stacked_circle_ignored set time object pl before prev after o :
  processed set = before ++ prev :: object :: after ->
  object ∉ after ->
  isCircle object = true ->
  index (HitObjects (beatMap set)) (GetNumber prev) = Some o ->
  0 < GetStackIndex o (Mods (diff pl)) ->
  IsHit (targets set) prev pl = false ->
  CanBeHit set time object pl = Some Ignored.
Proof.
  intros Hproc Hnot Hcircle Ho Hstack Hhit.
  unfold CanBeHit, stackGuard. rewrite Hcircle, Hproc.
  replace (before ++ prev :: object :: after)
    with ((before ++ [prev]) ++ object :: after) by by rewrite <- app_assoc.
  rewrite findObject_last by done.
  rewrite length_app. simpl.
  destruct (Z.ltb_spec 0 (Z.of_nat (length before + 1))); [|lia].
  replace (Z.of_nat (length before + 1) - 1)
    with (Z.of_nat (length before)) by lia.
  rewrite <- app_assoc. simpl. rewrite index_app_length. simpl.
  rewrite Ho. simpl. rewrite Hhit.
  destruct (Z.ltb_spec 0 (GetStackIndex o (Mods (diff pl)))); [done|lia].
Qed.

(** *** The fail handler *)

(** Closes a goal [e ∉ evs] for an event list given by cases. *)
Ltac not_reported :=
  repeat match goal with
  | H : ?x ∉ ?l |- ?x ∉ ?l => exact H
  | |- _ ∉ [] => apply not_elem_of_nil
  | |- _ ∉ _ ++ _ => apply not_elem_of_app; split
  | |- _ ∉ _ :: _ => apply not_elem_of_cons; split; [congruence|]
  | |- _ ∉ (if ?b then _ else _) => destruct b
  end.

Lemma wrap64_id z : in_int64 z -> wrap64 z = z.
Proof. unfold wrap64, in_int64. intros ?. rewrite Z.mod_small; lia. Qed.

Lemma failInternal_keeps_failed set pl set' evs c :
  hasFailed set c ->
  failInternal set pl = Some (set', evs) ->
  hasFailed set' c /\ FailEvent c ∉ evs.
Proof.
  intros (ss & Hss & Hf) Hrun. unfold failInternal in Hrun.
  destruct (CheckModActive _ _).
  { simplify_eq. split; [by exists ss|not_reported]. }
  destruct (cursors set !! cursor pl) as [ss0|] eqn:Hpl; [|done].
  simpl in Hrun.
  assert (cursor pl = c -> ss0 = ss) as Hsame by (intros <-; congruence).
  unfold hasFailed.
  destruct (0 <? recoveries ss0); simplify_eq; simpl.
  - split; [|not_reported].
    destruct (decide (cursor pl = c)) as [Heq|Hne].
    + rewrite Heq, lookup_insert_eq. eexists. split; [done|]. simpl.
      by rewrite (Hsame Heq).
    + rewrite lookup_insert_ne by done. by exists ss.
  - destruct (decide (cursor pl = c)) as [Heq|Hne].
    + rewrite Heq, lookup_insert_eq. split; [by eexists|].
      rewrite (Hsame Heq), Hf, andb_false_r. not_reported.
    + rewrite lookup_insert_ne by done. split; [by exists ss|].
      destruct (_ && _); not_reported.
Qed.

Lemma aggregate_keeps set ss number result sp ss0 r :
  aggregate set ss number result sp = Some (ss0, r) ->
  player ss0 = player ss /\ failed ss0 = failed ss
  /\ recoveries ss0 = recoveries ss /\ hp ss0 = hp ss
  /\ scoreProcessor_ ss0 = sp.
Proof.
  unfold aggregate. intros Hagg.
  destruct (index (mapStats set) _); [|done]. simpl in Hagg.
  destruct (oppDiffs set !! _) as [tbl|]; [|done]. simpl in Hagg.
  destruct (index tbl _); [|done]. simpl in Hagg.
  destruct (closesCombo set result number) as [closes|]; [|done].
  simpl in Hagg.
  match type of Hagg with
  | context [mbind _ ?m] => destruct m as [[[[[r2 geki] katuC] katu] bad]|]
  end; [|done].
  simpl in Hagg. by simplify_eq.
Qed.

(** What a counted or uncounted judgement does, once the early return
    for [Ignore] and [PositionalMiss] is passed. *)
Lemma SendResult_inv set time c src x y result cr set' evs :
  (result =? Ignore) || (result =? PositionalMiss) = false ->
  SendResult set time c src x y result cr = Some (set', evs) ->
  exists ss r sp ss0 r2 h fired set1 evs1,
    cursors set !! c = Some ss
    /\ ModifyResult (scoreProcessor_ ss) result src = (r, sp)
    /\ aggregate set ss (GetNumber src) r (AddResult sp r cr)
        = Some (ss0, r2)
    /\ HealthProcessor.AddResult (hp ss0) r2 = (h, fired)
    /\ set1 = with_cursors set (<[c := with_hp ss0 h]> (cursors set))
    /\ (if fired then failInternal set1 (player ss0)
        else Some (set1, [])) = Some (set', evs1)
    /\ evs = evs1 ++
        (if hitListener set
         then [HitEvent c time (GetNumber src) (x, y) r2 cr
                 (performance.Results (ppv2 ss0))
                 (GetScore (scoreProcessor_ ss0))]
         else []).
Proof.
  intros Hearly Hrun. unfold SendResult in Hrun. rewrite Hearly in Hrun.
  destruct (cursors set !! c) as [ss|]; [|done]. simpl in Hrun.
  destruct (ModifyResult _ _ _) as [r sp] eqn:Hmod.
  destruct (aggregate _ _ _ _ _) as [[ss0 r2]|] eqn:Hagg; [|done].
  simpl in Hrun.
  destruct (HealthProcessor.AddResult _ _) as [h fired] eqn:Hhp.
  simpl in Hrun.
  match type of Hrun with
  | context [mbind _ ?m] => destruct m as [[set2 evs1]|] eqn:Hfail
  end; [|done].
  simpl in Hrun. simplify_eq.
  exists ss, r, sp, ss0, r2, h, fired. eexists _, evs1.
  repeat split; try done.
Qed.

Lemma SendResult_keeps_failed set time c0 src x y result cr set' evs c :
  hasFailed set c ->
  SendResult set time c0 src x y result cr = Some (set', evs) ->
  hasFailed set' c /\ FailEvent c ∉ evs.
Proof.
  intros Hfailed Hrun.
  destruct ((result =? Ignore) || (result =? PositionalMiss)) eqn:Hearly.
  { unfold SendResult in Hrun. rewrite Hearly in Hrun.
    destruct ((result =? PositionalMiss) && hitListener set).
    - destruct (cursors set !! c0); [|done]. simpl in Hrun.
      destruct (negb _); simplify_eq; (split; [done|not_reported]).
    - simplify_eq. split; [done|not_reported]. }
  apply SendResult_inv in Hrun
    as (ss & r & sp & ss0 & r2 & h & fired & set1 & evs1 & Hc0 & _ & Hagg
        & _ & -> & Hfail & ->); [|done].
  apply aggregate_keeps in Hagg as (Hpl & Hfl & _).
  assert (hasFailed
            (with_cursors set (<[c0 := with_hp ss0 h]> (cursors set))) c)
    as Hfailed1.
  { destruct Hfailed as (ss' & Hss & Hf). unfold hasFailed. simpl.
    destruct (decide (c0 = c)) as [Heq|Hne].
    - rewrite Heq, lookup_insert_eq. eexists. split; [done|].
      simpl. rewrite Hfl. by simplify_eq.
    - rewrite lookup_insert_ne by done. by exists ss'. }
  assert (hasFailed set' c /\ FailEvent c ∉ evs1) as [? ?].
  { destruct fired.
    - by destruct (failInternal_keeps_failed _ _ _ _ _ Hfailed1 Hfail).
    - simplify_eq. split; [done|not_reported]. }
  split; [done|]. destruct (hitListener set); not_reported.
Qed.

Lemma hasFailed_cursors set1 set2 c :
  cursors set2 = cursors set1 -> hasFailed set1 c -> hasFailed set2 c.
Proof. unfold hasFailed. by intros ->. Qed.

Lemma updateHp_keeps_failed time set c0 set' evs c :
  hasFailed set c ->
  updateHp time set c0 = Some (set', evs) ->
  hasFailed set' c /\ FailEvent c ∉ evs.
Proof.
  intros Hfailed Hrun. unfold updateHp in Hrun.
  destruct (cursors set !! c0) as [ss0|] eqn:Hc0.
  2: { simplify_eq. split; [done|not_reported]. }
  destruct (HealthProcessor.Update _ _) as [h fired].
  assert (hasFailed
            (with_cursors set (<[c0 := with_hp ss0 h]> (cursors set))) c)
    as Hfailed1.
  { destruct Hfailed as (ss' & Hss & Hf). unfold hasFailed. simpl.
    destruct (decide (c0 = c)) as [Heq|Hne].
    - rewrite Heq, lookup_insert_eq. eexists. split; [done|].
      simpl. by simplify_eq.
    - rewrite lookup_insert_ne by done. by exists ss'. }
  destruct fired.
  - by destruct (failInternal_keeps_failed _ _ _ _ _ Hfailed1 Hrun).
  - simplify_eq. split; [done|not_reported].
Qed.

Lemma updateHpAll_keeps_failed time order set set' evs c :
  hasFailed set c ->
  updateHpAll time order set = Some (set', evs) ->
  hasFailed set' c /\ FailEvent c ∉ evs.
Proof.
  revert set evs. induction order as [|c0 order IH]; intros set evs Hf Hrun.
  - simpl in Hrun. simplify_eq. split; [done|not_reported].
  - simpl in Hrun.
    destruct (updateHp time set c0) as [[set1 evs1]|] eqn:Hstep; [|done].
    simpl in Hrun.
    destruct (updateHpAll time order set1) as [[set2 evs2]|] eqn:Hrest; [|done].
    simpl in Hrun. simplify_eq.
    destruct (updateHp_keeps_failed _ _ _ _ _ _ Hf Hstep) as [Hf1 ?].
    destruct (IH _ _ Hf1 Hrest) as [? ?].
    split; [done|]. rewrite elem_of_app. tauto.
Qed.

Lemma retire_events time hasEnd l (w : W) keep w' evs :
  retire time hasEnd l w = (keep, w', evs) ->
  Forall (fun e => exists n, e = EndEvent time n) evs.
Proof.
  revert w keep w' evs. induction l as [|g l IH]; intros w keep w' evs Hr.
  - simpl in Hr. by simplify_eq.
  - simpl in Hr. destruct (UpdatePost w g time) as [w1 isDone].
    destruct (retire time hasEnd l w1) as [[keep1 w2] evs1] eqn:Hrec.
    apply IH in Hrec.
    destruct isDone; simplify_eq; [|done].
    destruct hasEnd; simpl; [|done]. constructor; [by eexists|done].
Qed.

Lemma Update_keeps_failed order set time set' evs c :
  hasFailed set c ->
  Update order set time = Some (set', evs) ->
  hasFailed set' c /\ FailEvent c ∉ evs.
Proof.
  intros Hf Hrun. unfold Update in Hrun.
  destruct (retire _ _ _ _) as [[keep w] evs0] eqn:Hret.
  destruct (activate _ _) as [moved rest].
  match type of Hrun with
  | context [updateHpAll _ _ ?s] => set (set1 := s) in *
  end.
  destruct (updateHpAll time order set1) as [[set2 evs1]|] eqn:Hall; [|done].
  simpl in Hrun. simplify_eq.
  assert (hasFailed set1 c) as Hf1 by by eapply hasFailed_cursors.
  destruct (updateHpAll_keeps_failed _ _ _ _ _ _ Hf1 Hall) as [Hf2 Hno].
  split; [by eapply hasFailed_cursors|].
  rewrite elem_of_app. intros [Hin|Hin]; [|done].
  apply retire_events in Hret. rewrite Forall_forall in Hret.
  by destruct (Hret _ Hin).
Qed.

Lemma call_keeps_failed set k set' evs c :
  hasFailed set c ->
  call set k = Some (set', evs) ->
  hasFailed set' c /\ FailEvent c ∉ evs.
Proof.
  intros Hf Hrun. destruct k; simpl in Hrun.
  - by eapply Update_keeps_failed.
  - by eapply SendResult_keeps_failed.
  - simplify_eq. split; [by eapply hasFailed_cursors|not_reported].
  - simplify_eq. split; [|not_reported].
    destruct Hf as (ss & Hss & Hfl). unfold hasFailed, editPlayer.
    destruct (cursors set !! c0) as [ss0|] eqn:Hc0; [|by exists ss].
    simpl. destruct (decide (c0 = c)) as [Heq|Hne].
    + rewrite Heq, lookup_insert_eq. eexists. split; [done|].
      simpl. by simplify_eq.
    + rewrite lookup_insert_ne by done. by exists ss.
  - simplify_eq. split; [by eapply hasFailed_cursors|not_reported].
  - simplify_eq. split; [by eapply hasFailed_cursors|not_reported].
  - simplify_eq. split; [by eapply hasFailed_cursors|not_reported].
Qed.

Lemma run_keeps_failed ks set set' evs c :
  hasFailed set c ->
  run set ks = Some (set', evs) ->
  hasFailed set' c /\ FailEvent c ∉ evs.
Proof.
  revert set evs. induction ks as [|k ks IH]; intros set evs Hf Hrun.
  - simpl in Hrun. simplify_eq. split; [done|not_reported].
  - simpl in Hrun.
    destruct (call set k) as [[set1 evs1]|] eqn:Hstep; [|done].
    simpl in Hrun.
    destruct (run set1 ks) as [[set2 evs2]|] eqn:Hrest; [|done].
    simpl in Hrun. simplify_eq.
    destruct (call_keeps_failed _ _ _ _ _ Hf Hstep) as [Hf1 ?].
    destruct (IH _ _ Hf1 Hrest) as [? ?].
    split; [done|]. rewrite elem_of_app. tauto.
Qed.

(** C5: on a fail signal for [pl], the rule set (1) does nothing when a
    no-fail or automation modifier is active; (2) otherwise, with a
    positive recovery budget, takes one unit, raises the health by 160
    and leaves the fail flag alone; (3) otherwise sets the fail flag and
    calls the fail listener if one is registered and the flag was not yet
    set; (4) once the flag is set, no later call of a run reports the
    player to the fail listener again. *)
Theorem C5_fail_signal set pl ss :
  cursors set !! cursor pl = Some ss ->
  in_int64 (recoveries ss) ->
  let immune :=
    CheckModActive (diff pl) (Z.lor (Z.lor NoFail Relax) Relax2) in
  (immune = true -> failInternal set pl = Some (set, @nil Event))
  /\ (immune = false -> 0 < recoveries ss ->
      failInternal set pl =
      Some (with_cursors set
              (<[cursor pl :=
                   with_recoveries
                     (with_hp ss
                        (HealthProcessor.Increase (hp ss) 160%Q false))
                     (recoveries ss - 1)]> (cursors set)), @nil Event))
  /\ (immune = false -> recoveries ss <= 0 ->
      failInternal set pl =
      Some (with_cursors set
              (<[cursor pl := with_failed ss true]> (cursors set)),
            if failListener set && negb (failed ss)
            then [FailEvent (cursor pl) : Event] else []))
  /\ (failed ss = true ->
      forall ks set' evs,
        run set ks = Some (set', evs) ->
        hasFailed set' (cursor pl) /\ FailEvent (cursor pl) ∉ evs).
Proof.
  intros Hss Hrange immune. unfold failInternal. fold immune.
  repeat split.
  - by intros ->.
  - intros -> Hpos. rewrite Hss. simpl.
    destruct (Z.ltb_spec 0 (recoveries ss)); [|lia].
    rewrite wrap64_id; [done|]. unfold in_int64 in *. lia.
  - intros -> Hle. rewrite Hss. simpl.
    by destruct (Z.ltb_spec 0 (recoveries ss)); [lia|].
  - eapply run_keeps_failed; [|done]. by exists ss.
  - eapply run_keeps_failed; [|done]. by exists ss.
Qed.

(** *** The result aggregator *)

Lemma scoring_with_hp ss (h : HP) : scoring (with_hp ss h) = scoring ss.
Proof. done. Qed.

Lemma failInternal_scoring set pl set' evs c :
  failInternal set pl = Some (set', evs) ->
  scoring <$> cursors set' !! c = scoring <$> cursors set !! c.
Proof.
  unfold failInternal. intros Hrun.
  destruct (CheckModActive _ _); [by simplify_eq|].
  destruct (cursors set !! cursor pl) as [ss0|] eqn:Hpl; [|done].
  simpl in Hrun.
  destruct (0 <? recoveries ss0); simplify_eq; simpl;
    (destruct (decide (cursor pl = c)) as [Heq|Hne];
     [rewrite <- Heq, lookup_insert_eq, Hpl; done
     |by rewrite lookup_insert_ne]).
Qed.

(** A judgement that passes the early return replaces the state of its
    cursor by the aggregated one, up to the health and fail fields. *)
Lemma SendResult_scoring set time c src x y result cr set' evs :
  (result =? Ignore) || (result =? PositionalMiss) = false ->
  SendResult set time c src x y result cr = Some (set', evs) ->
  exists ss r sp ss0 r2 ss',
    cursors set !! c = Some ss
    /\ ModifyResult (scoreProcessor_ ss) result src = (r, sp)
    /\ aggregate set ss (GetNumber src) r (AddResult sp r cr)
       = Some (ss0, r2)
    /\ cursors set' !! c = Some ss' /\ scoring ss' = scoring ss0
    /\ (forall c', c' ≠ c ->
          scoring <$> cursors set' !! c' = scoring <$> cursors set !! c')
    /\ exists evs1,
         evs = evs1 ++
           (if hitListener set
            then [HitEvent c time (GetNumber src) (x, y) r2 cr
                    (performance.Results (ppv2 ss0))
                    (GetScore (scoreProcessor_ ss0))]
            else []).
Proof.
  intros Hearly Hrun.
  apply SendResult_inv in Hrun
    as (ss & r & sp & ss0 & r2 & h & fired & set1 & evs1 & Hc & Hmod & Hagg
        & Hhp & -> & Hfail & ->); [|done].
  assert (forall k,
    scoring <$> cursors set' !! k =
    scoring <$>
      cursors (with_cursors set (<[c := with_hp ss0 h]> (cursors set))) !! k)
    as Hsame.
  { intros k. destruct fired; [by eapply failInternal_scoring|].
    by simplify_eq. }
  pose proof (Hsame c) as Hc'. cbn [cursors with_cursors] in Hc'.
  rewrite lookup_insert_eq in Hc'. cbn [fmap option_fmap option_map] in Hc'.
  rewrite scoring_with_hp in Hc'.
  destruct (cursors set' !! c) as [ss'|] eqn:Hss'; [|done].
  exists ss, r, sp, ss0, r2, ss'.
  split; [done|]. split; [done|]. split; [done|]. split; [done|].
  split; [by apply (inj Some)|].
  split; [|by eexists].
  intros c' Hne. rewrite Hsame. simpl. by rewrite lookup_insert_ne.
Qed.

Lemma fdiv_finite a n : n ≠ 0 -> fdiv a (inject_Z n) = Fnum (a / inject_Z n).
Proof.
  intros Hn. unfold fdiv.
  destruct (Qeq_bool (inject_Z n) 0) eqn:Heq; [|done].
  apply Qeq_bool_eq in Heq. unfold Qeq in Heq. simpl in Heq. lia.
Qed.

Lemma computeGrade_thresholds h300 h50 hMiss n mods :
  n ≠ 0 ->
  computeGrade h300 h50 hMiss n mods =
  gradeByThresholds h300 h50 hMiss n
    (0 <? Z.land mods (Z.lor Hidden Flashlight)).
Proof.
  intros Hn. unfold computeGrade, gradeByThresholds.
  by rewrite !fdiv_finite.
Qed.

Lemma aggregate_fields set ss number r sp ss0 r2 :
  aggregate set ss number r sp = Some (ss0, r2) ->
  rawScore ss0 = (if isCounted r then wrap64 (rawScore ss + ScoreValue r)
                  else rawScore ss)
  /\ numObjects ss0 = (if isCounted r then wrap64 (numObjects ss + 1)
                      else numObjects ss)
  /\ hits ss0 = (if isCounted r
                then <[r := wrap64 (hit_count ss r + 1)]> (hits ss)
                else hits ss)
  /\ maxCombo ss0 = MaxI64 (GetCombo sp) (maxCombo ss)
  /\ accuracy ss0 = computeAccuracy (rawScore ss0) (numObjects ss0)
  /\ grade ss0 =
     computeGrade (hit_count ss0 Hit300) (hit_count ss0 Hit50)
       (hit_count ss0 Miss) (numObjects ss0) (Mods (diff (player ss0))).
Proof.
  unfold aggregate. intros Hagg.
  destruct (index (mapStats set) _); [|done]. simpl in Hagg.
  destruct (oppDiffs set !! _) as [tbl|]; [|done]. simpl in Hagg.
  destruct (index tbl _); [|done]. simpl in Hagg.
  destruct (closesCombo set r number) as [closes|]; [|done].
  simpl in Hagg.
  match type of Hagg with
  | context [mbind _ ?m] => destruct m as [[[[[r3 geki] katuC] katu] bad]|]
  end; [|done].
  simpl in Hagg. by simplify_eq.
Qed.

(** C2: after a counted judgement the grade of the player is the
    threshold function of the hit counts: SS (SSH with Hidden or
    Flashlight) when every counted object is a 300; else S (SH) when
    ratio > 0.9, fifties below 1% and no miss; else A when (ratio > 0.8
    and no miss) or ratio > 0.9; else B when (ratio > 0.7 and no miss) or
    ratio > 0.8; else C when ratio > 0.6; else D. *)
Theorem C2_grade_thresholds set time c src x y result cr set' evs ss r sp :
  SendResult set time c src x y result cr = Some (set', evs) ->
  (result =? Ignore) || (result =? PositionalMiss) = false ->
  cursors set !! c = Some ss ->
  ModifyResult (scoreProcessor_ ss) result src = (r, sp) ->
  isCounted r = true ->
  0 <= numObjects ss < 2 ^ 63 - 1 ->
  exists ss',
    cursors set' !! c = Some ss'
    /\ numObjects ss' = numObjects ss + 1
    /\ grade ss' =
       gradeByThresholds (hit_count ss' Hit300) (hit_count ss' Hit50)
         (hit_count ss' Miss) (numObjects ss')
         (0 <? Z.land (Mods (diff (player ss'))) (Z.lor Hidden Flashlight)).
Proof.
  intros Hrun Hearly Hss Hmod Hcounted Hn.
  apply SendResult_scoring in Hrun
    as (ss_ & r_ & sp_ & ss0 & r2 & ss' & Hss_ & Hmod_ & Hagg & Hss' & Hsc
        & _); [|done].
  rewrite Hss in Hss_. injection Hss_ as <-.
  rewrite Hmod in Hmod_. injection Hmod_ as <- <-.
  exists ss'. split; [done|].
  apply aggregate_fields in Hagg as (_ & Hnum & _ & _ & _ & Hgrade).
  rewrite Hcounted in Hnum.
  rewrite wrap64_id in Hnum by (unfold in_int64; lia).
  unfold scoring in Hsc. injection Hsc as _ _ _ Hn' Hg' Hh' _ _ _ _ _ _ Hd' _.
  unfold hit_count in *.
  rewrite Hn', Hg', Hh', Hd', Hgrade. split; [done|].
  apply computeGrade_thresholds. lia.
Qed.

(** C9 (amended): a judgement [Ignore] or [PositionalMiss] returns at
    once and leaves the whole rule set as it was (raw score, histogram,
    judged objects, accuracy, combo, max combo, grade, bonus counters,
    health).  An [Ignore] is never reported; a [PositionalMiss] is
    reported to the hit listener when one is registered and the player
    does not play with Relax. *)
Theorem C9_discarded_outcomes set time c src x y result cr ss :
  cursors set !! c = Some ss ->
  Ignore ≠ PositionalMiss ->
  result = Ignore \/ result = PositionalMiss ->
  exists evs,
    SendResult set time c src x y result cr = Some (set, evs)
    /\ (result = Ignore -> evs = [])
    /\ (result = PositionalMiss ->
        evs = if hitListener set
                 && negb (Active (Mods (diff (player ss))) Relax)
              then [HitEvent c time (GetNumber src) (x, y) result cr
                      (performance.Results (ppv2 ss))
                      (GetScore (scoreProcessor_ ss))]
              else []).
Proof.
  intros Hss Hne Hres. unfold SendResult.
  destruct Hres as [-> | ->].
  - rewrite Z.eqb_refl. simpl.
    destruct (Z.eqb_spec Ignore PositionalMiss); [done|]. simpl.
    exists []. split; [done|]. split; [done|]. by intros ?.
  - rewrite Z.eqb_refl, orb_true_r. simpl.
    destruct (hitListener set); simpl.
    + rewrite Hss. simpl. destruct (Active _ _); simpl.
      * exists []. split; [done|]. split; [done|]. done.
      * eexists. split; [done|]. split; [|done]. by intros ?.
    + exists []. split; [done|]. split; done.
Qed.

Lemma allClickedScan_run set pl l :
  Forall (fun g => is_Some (index (HitObjects (beatMap set)) (GetNumber g)))
         l ->
  allClickedScan set pl l =
  Some (forallb (fun g => IsHit (targets set) g pl) (comboRunOf set l)).
Proof.
  induction 1 as [|g l [o Ho] _ IH]; [done|].
  simpl. rewrite Ho. simpl.
  destruct (IsHit (targets set) g pl) eqn:Hhit; simpl.
  - destruct (IsNewCombo o); simpl; [by rewrite Hhit|].
    by rewrite Hhit, IH.
  - destruct (IsNewCombo o); simpl; by rewrite Hhit.
Qed.

(** With the active set in the order of the ordinals, [allClicked] says
    whether the active targets before the judged one are all hit, back
    to the start of its combo run. *)
Lemma allClicked_sorted set pl number :
  (forall i j gi gj, (i <= j)%nat ->
     processed set !! i = Some gi -> processed set !! j = Some gj ->
     GetNumber gi <= GetNumber gj) ->
  Forall (fun g => is_Some (index (HitObjects (beatMap set)) (GetNumber g)))
         (processed set) ->
  exists earlier later,
    processed set = earlier ++ later
    /\ Forall (fun g => GetNumber g < number) earlier
    /\ Forall (fun g => number <= GetNumber g) later
    /\ allClicked set pl number =
       Some (forallb (fun g => IsHit (targets set) g pl)
                     (comboRunOf set (rev earlier))).
Proof.
  intros Hsorted Hrange. unfold allClicked.
  set (f := fun i => match index (processed set) i with
                     | Some g => number <=? GetNumber g
                     | None => false
                     end).
  set (n := Z.of_nat (length (processed set))).
  destruct (sort_Search_spec f n) as (Hr & Hlow & Hhigh); [lia| |].
  { intros a b Hab Hb. unfold f, index.
    destruct (Z.ltb_spec a 0); [lia|]. destruct (Z.ltb_spec b 0); [lia|].
    destruct (processed set !! Z.to_nat a) as [ga|] eqn:Hga; [|done].
    destruct (lookup_lt_is_Some_2 (processed set) (Z.to_nat b)) as [gb Hgb];
      [lia|].
    rewrite Hgb. intros Ha%Z.leb_le. apply Z.leb_le.
    pose proof (Hsorted (Z.to_nat a) (Z.to_nat b) ga gb) as Hle.
    etrans; [exact Ha|]. apply Hle; [lia|done|done]. }
  exists (take (Z.to_nat (sort_Search n f)) (processed set)),
         (drop (Z.to_nat (sort_Search n f)) (processed set)).
  split; [by rewrite take_drop|]. split; [|split].
  - apply Forall_forall. intros g Hg.
    apply list_elem_of_lookup in Hg as [k Hk].
    apply lookup_take_Some in Hk as [Hk Hlt].
    assert (f (Z.of_nat k) = false) as Hf by (apply Hlow; lia).
    unfold f, index in Hf.
    destruct (Z.ltb_spec (Z.of_nat k) 0); [lia|].
    rewrite Nat2Z.id, Hk in Hf. by apply Z.leb_gt in Hf.
  - apply Forall_forall. intros g Hg.
    apply list_elem_of_lookup in Hg as [k Hk].
    rewrite lookup_drop in Hk.
    pose proof (lookup_lt_Some _ _ _ Hk) as Hlen.
    assert (f (Z.of_nat (Z.to_nat (sort_Search n f) + k)) = true) as Hf
      by (apply Hhigh; subst n; lia).
    unfold f at 1, index in Hf.
    destruct (Z.ltb_spec (Z.of_nat (Z.to_nat (sort_Search n f) + k)) 0);
      [lia|].
    rewrite Nat2Z.id, Hk in Hf. by apply Z.leb_le.
  - apply allClickedScan_run. apply Forall_rev. by apply Forall_take.
Qed.

Lemma aggregate_close set ss number r sp ss0 r2 clicked :
  aggregate set ss number r sp = Some (ss0, r2) ->
  closesCombo set r number = Some true ->
  allClicked set (player ss) number = Some clicked ->
  (r2, gekiCount ss0, katuCount ss0) =
    classify r (katuAfter ss r) (badAfter ss r) clicked
      (gekiCount ss) (katuCount ss)
  /\ currentKatu ss0 = 0 /\ currentBad ss0 = 0.
Proof.
  unfold aggregate. intros Hagg Hcl Hall.
  destruct (index (mapStats set) _); [|done]. simpl in Hagg.
  destruct (oppDiffs set !! _) as [tbl|]; [|done]. simpl in Hagg.
  destruct (index tbl _); [|done]. simpl in Hagg.
  rewrite Hcl in Hagg. simpl in Hagg. rewrite Hall in Hagg. simpl in Hagg.
  fold (katuAfter ss r) (badAfter ss r) in Hagg.
  destruct (classify _ _ _ _ _ _) as [[r3 g] k].
  simpl in Hagg. by simplify_eq.
Qed.

(** A judgement that closes a combo run, on the counters as the state
    holds them: the run counters are reset; a closing hit is tagged with
    the tier that the counters and [clicked] give and moves the
    cumulative counter of the tier, a closing miss is reported as it
    is. *)
Lemma SendResult_close set time c src x y result cr set' evs
    ss r sp clicked :
  SendResult set time c src x y result cr = Some (set', evs) ->
  (result =? Ignore) || (result =? PositionalMiss) = false ->
  cursors set !! c = Some ss ->
  ModifyResult (scoreProcessor_ ss) result src = (r, sp) ->
  closesCombo set r (GetNumber src) = Some true ->
  allClicked set (player ss) (GetNumber src) = Some clicked ->
  let tier := tierOf (katuAfter ss r) (badAfter ss r) clicked in
  let hit := 0 <? Z.land r BaseHits in
  let reported := if hit then Z.lor r (tagOf tier) else r in
  exists ss',
    cursors set' !! c = Some ss'
    /\ currentKatu ss' = 0 /\ currentBad ss' = 0
    /\ gekiCount ss' =
       (if hit then match tier with Geki => wrap64 (gekiCount ss + 1)
                                  | _ => gekiCount ss end
        else gekiCount ss)
    /\ katuCount ss' =
       (if hit then match tier with Katu => wrap64 (katuCount ss + 1)
                                  | _ => katuCount ss end
        else katuCount ss)
    /\ (badAfter ss r ≠ 0 ->
        gekiCount ss' = gekiCount ss /\ katuCount ss' = katuCount ss)
    /\ (hitListener set = true ->
        exists evs1 ppResults score,
          evs = evs1 ++ [HitEvent c time (GetNumber src) (x, y) reported cr
                           ppResults score]).
Proof.
  intros Hrun Hearly Hss Hmod Hcl Hall tier hit reported.
  apply SendResult_scoring in Hrun
    as (ss_ & r_ & sp_ & ss0 & r2 & ss' & Hss_ & Hmod_ & Hagg & Hss' & Hsc
        & _ & evs1 & ->); [|done].
  rewrite Hss in Hss_. injection Hss_ as <-.
  rewrite Hmod in Hmod_. injection Hmod_ as <- <-.
  exists ss'. split; [done|].
  destruct (aggregate_close _ _ _ _ _ _ _ _ Hagg Hcl Hall)
    as (Hclass & Hk & Hb).
  unfold scoring in Hsc. injection Hsc as _ _ _ _ _ _ Hk' Hb' Hg' Hkc' _ _ _ _.
  rewrite Hk', Hb', Hg', Hkc', Hk, Hb.
  assert (r2 = reported
          /\ gekiCount ss0 =
             (if hit then match tier with Geki => wrap64 (gekiCount ss + 1)
                                        | _ => gekiCount ss end
              else gekiCount ss)
          /\ katuCount ss0 =
             (if hit then match tier with Katu => wrap64 (katuCount ss + 1)
                                        | _ => katuCount ss end
              else katuCount ss)) as (Hr2 & Hgeki & Hkatu).
  { unfold classify in Hclass. subst reported tier hit. unfold tierOf.
    destruct (0 <? Z.land r BaseHits); [|by simplify_eq].
    destruct ((katuAfter ss r =? 0) && (badAfter ss r =? 0) && clicked);
      [by simplify_eq|].
    destruct ((badAfter ss r =? 0) && clicked); by simplify_eq. }
  split; [done|]. split; [done|]. split; [done|]. split; [done|].
  split.
  - intros Hbad. rewrite Hgeki, Hkatu. subst tier. unfold tierOf.
    destruct (Z.eqb_spec (badAfter ss r) 0); [done|].
    rewrite andb_false_r. simpl. by destruct hit.
  - intros Hl. rewrite Hl, Hr2. by eexists _, _, _.
Qed.

(** *** Runs: how the per-cursor states evolve *)

Lemma SendResult_early set time c src x y result cr set' evs :
  (result =? Ignore) || (result =? PositionalMiss) = true ->
  SendResult set time c src x y result cr = Some (set', evs) ->
  set' = set.
Proof.
  intros Hearly Hrun. unfold SendResult in Hrun. rewrite Hearly in Hrun.
  destruct ((result =? PositionalMiss) && hitListener set); [|by simplify_eq].
  destruct (cursors set !! c); [|done]. simpl in Hrun.
  destruct (negb _); by simplify_eq.
Qed.

Lemma updateHp_scoring time set c0 set' evs c :
  updateHp time set c0 = Some (set', evs) ->
  scoring <$> cursors set' !! c = scoring <$> cursors set !! c.
Proof.
  unfold updateHp. intros Hrun.
  destruct (cursors set !! c0) as [ss0|] eqn:Hc0; [|by simplify_eq].
  destruct (HealthProcessor.Update _ _) as [h fired].
  assert (scoring <$>
            cursors (with_cursors set (<[c0 := with_hp ss0 h]> (cursors set)))
              !! c = scoring <$> cursors set !! c) as Hsame.
  { simpl. destruct (decide (c0 = c)) as [Heq|Hne].
    - by rewrite <- Heq, lookup_insert_eq, Hc0.
    - by rewrite lookup_insert_ne. }
  destruct fired; [|by simplify_eq].
  rewrite <- Hsame. by eapply failInternal_scoring.
Qed.

Lemma updateHpAll_scoring time order set set' evs c :
  updateHpAll time order set = Some (set', evs) ->
  scoring <$> cursors set' !! c = scoring <$> cursors set !! c.
Proof.
  revert set evs. induction order as [|c0 order IH]; intros set evs Hrun.
  - simpl in Hrun. by simplify_eq.
  - simpl in Hrun.
    destruct (updateHp time set c0) as [[set1 evs1]|] eqn:Hstep; [|done].
    simpl in Hrun.
    destruct (updateHpAll time order set1) as [[set2 evs2]|] eqn:Hrest;
      [|done].
    simpl in Hrun. simplify_eq.
    rewrite (IH _ _ Hrest). by eapply updateHp_scoring.
Qed.

Lemma Update_scoring order set time set' evs c :
  Update order set time = Some (set', evs) ->
  scoring <$> cursors set' !! c = scoring <$> cursors set !! c.
Proof.
  unfold Update. intros Hrun.
  destruct (retire _ _ _ _) as [[keep w] evs0].
  destruct (activate _ _) as [moved rest].
  match type of Hrun with
  | context [updateHpAll _ _ ?s] => set (set1 := s) in *
  end.
  destruct (updateHpAll time order set1) as [[set2 evs1]|] eqn:Hall; [|done].
  simpl in Hrun. simplify_eq. simpl.
  by rewrite (updateHpAll_scoring _ _ _ _ _ c Hall).
Qed.

Lemma editPlayer_scoring set c0 new c :
  scoring <$> cursors (editPlayer set c0 (fun pl => withClickState pl new))
                !! c
  = scoring <$> cursors set !! c.
Proof.
  unfold editPlayer.
  destruct (cursors set !! c0) as [ss0|] eqn:Hc0; [|done]. simpl.
  destruct (decide (c0 = c)) as [Heq|Hne].
  - by rewrite <- Heq, lookup_insert_eq, Hc0.
  - by rewrite lookup_insert_ne.
Qed.

(** After a call the scoring fields of a cursor are what they were, or
    the call was a judgement for that cursor and they are the aggregated
    ones. *)
Lemma call_scoring set k set' evs c :
  call set k = Some (set', evs) ->
  scoring <$> cursors set' !! c = scoring <$> cursors set !! c
  \/ exists time src x y result cr ss r sp ss0 r2,
       k = DoSendResult time c src x y result cr
       /\ cursors set !! c = Some ss
       /\ ModifyResult (scoreProcessor_ ss) result src = (r, sp)
       /\ aggregate set ss (GetNumber src) r (AddResult sp r cr)
          = Some (ss0, r2)
       /\ scoring <$> cursors set' !! c = Some (scoring ss0).
Proof.
  intros Hcall. destruct k; simpl in Hcall.
  - left. by eapply Update_scoring.
  - destruct ((result =? Ignore) || (result =? PositionalMiss)) eqn:Hearly.
    { left. by rewrite (SendResult_early _ _ _ _ _ _ _ _ _ _ Hearly Hcall). }
    apply SendResult_scoring in Hcall
      as (ss & r & sp & ss0 & r2 & ss' & Hss & Hmod & Hagg & Hss' & Hsc
          & Hother & _); [|done].
    destruct (decide (c = c0)) as [->|Hne]; [|left; by apply Hother].
    right. exists time, src, x, y, result, comboResult, ss, r, sp, ss0, r2.
    rewrite Hss'. simpl. by rewrite Hsc.
  - left. by simplify_eq.
  - left. simplify_eq. apply editPlayer_scoring.
  - left. by simplify_eq.
  - left. by simplify_eq.
  - left. by simplify_eq.
Qed.

Lemma initCursors_entries bm lazer cs mods i opp subs players
    opp' subs' players' c ss :
  initCursors bm lazer cs mods i opp subs players
    = Some (opp', subs', players') ->
  subs' !! c = Some ss ->
  subs !! c = Some ss
  \/ exists d h sc,
       ss = newSubSet (newPlayer c d) h (initialRecoveries d) sc.
Proof.
  revert i opp subs players.
  induction cs as [|[c0 cur] cs IH]; intros i opp subs players Hinit Hss.
  - simpl in Hinit. simplify_eq. by left.
  - simpl in Hinit.
    destruct (mods !! i) as [m|]; [|done]. simpl in Hinit.
    match type of Hinit with
    | context [mbind _ ?o] => destruct o as [opp1|]
    end; [|done].
    simpl in Hinit.
    destruct (IH _ _ _ _ Hinit Hss) as [Hold|Hnew]; [|by right].
    destruct (decide (c0 = c)) as [Heq|Hne].
    + rewrite Heq, lookup_insert_eq in Hold. right.
      injection Hold as <-. by eexists _, _, _.
    + rewrite lookup_insert_ne in Hold by done. by left.
Qed.

Lemma NewOsuRuleset_entries lazer bm cs mods set0 c ss :
  NewOsuRuleset lazer bm cs mods = Some set0 ->
  cursors set0 !! c = Some ss ->
  exists d h sc, ss = newSubSet (newPlayer c d) h (initialRecoveries d) sc.
Proof.
  unfold NewOsuRuleset. intros Hnew Hss.
  destruct (initCursors _ _ _ _ _ _ _ _) as [[[opp subs] players]|] eqn:Hinit;
    [|done].
  simpl in Hnew. simplify_eq. simpl in Hss.
  by destruct (initCursors_entries _ _ _ _ _ _ _ _ _ _ _ _ _ Hinit Hss).
Qed.

(** *** Accuracy *)

Lemma accInv_scoring k ss ss' :
  scoring ss' = scoring ss -> accInv k ss -> accInv k ss'.
Proof.
  unfold scoring, accInv. intros Hsc.
  injection Hsc as Hraw Hacc _ Hn _ _ _ _ _ _ _ _ _ _.
  by rewrite Hraw, Hacc, Hn.
Qed.

Lemma accInv_mono k k' ss : k <= k' -> accInv k ss -> accInv k' ss.
Proof. unfold accInv. intros ? (? & ? & ?). repeat split; try done; lia. Qed.

Lemma aggregate_accInv set ss number r sp ss0 r2 k :
  (forall r, isCounted r = true -> 0 <= ScoreValue r <= 300) ->
  k + 1 < 2 ^ 54 ->
  aggregate set ss number r sp = Some (ss0, r2) ->
  accInv k ss -> accInv (k + 1) ss0.
Proof.
  intros Hval Hk Hagg (Hn & Hraw & Hacc).
  apply aggregate_fields in Hagg as (Hraw0 & Hn0 & _ & _ & Hacc0 & _).
  unfold accInv. rewrite Hacc0, Hraw0, Hn0.
  destruct (isCounted r) eqn:Hcounted; [|repeat split; try done; lia].
  specialize (Hval _ Hcounted).
  rewrite !wrap64_id by (unfold in_int64; lia).
  repeat split; try done; lia.
Qed.

Lemma call_invariant P set kk set' evs k :
  scoringInvariant P ->
  0 <= k -> k + 1 < 2 ^ 54 ->
  (forall c ss, cursors set !! c = Some ss -> P k ss) ->
  call set kk = Some (set', evs) ->
  forall c ss, cursors set' !! c = Some ss -> P (k + 1) ss.
Proof.
  intros (Hsc & Hmono & Hstep) Hk0 Hk Hinv Hcall c ss' Hss'.
  destruct (call_scoring _ _ _ _ c Hcall) as [Hsame|Hagg].
  - rewrite Hss' in Hsame.
    destruct (cursors set !! c) as [ss|] eqn:Hss; [|done].
    apply (inj Some) in Hsame.
    eapply Hsc; [done|]. eapply (Hmono k); [lia|]. by eapply Hinv.
  - destruct Hagg as (time & src & x & y & result & cr & ss & r & sp & ss0
                     & r2 & _ & Hss & _ & Hagg & Hsc').
    rewrite Hss' in Hsc'. apply (inj Some) in Hsc'.
    eapply Hsc; [done|].
    eapply Hstep; [done|done|done|]. by eapply Hinv.
Qed.

Lemma run_invariant P ks set set' evs k :
  scoringInvariant P ->
  0 <= k -> k + Z.of_nat (length ks) < 2 ^ 54 ->
  (forall c ss, cursors set !! c = Some ss -> P k ss) ->
  run set ks = Some (set', evs) ->
  forall c ss, cursors set' !! c = Some ss ->
               P (k + Z.of_nat (length ks)) ss.
Proof.
  intros Hinvariant. revert set evs k.
  induction ks as [|kk ks IH]; intros set evs k Hk0 Hk Hinv Hrun c ss Hss.
  - simpl in Hrun. simplify_eq. rewrite Z.add_0_r. by eapply Hinv.
  - simpl in Hrun.
    destruct (call set kk) as [[set1 evs1]|] eqn:Hstep; [|done].
    simpl in Hrun.
    destruct (run set1 ks) as [[set2 evs2]|] eqn:Hrest; [|done].
    simpl in Hrun. simplify_eq.
    replace (k + Z.of_nat (length (kk :: ks)))
      with ((k + 1) + Z.of_nat (length ks)) by (simpl length; lia).
    simpl length in Hk.
    eapply (IH set1 evs2 (k + 1)); [lia|lia| |done|done].
    eapply call_invariant; [done|lia|lia|done|done].
Qed.

Lemma accInv_invariant :
  (forall r, isCounted r = true -> 0 <= ScoreValue r <= 300) ->
  scoringInvariant accInv.
Proof.
  intros Hval. split; [|split].
  - intros k ss ss' Hsc. by apply accInv_scoring.
  - intros k k' ss. apply accInv_mono.
  - intros set ss number r sp ss0 r2 k _ Hk. by apply aggregate_accInv.
Qed.

Lemma accuracy_bounds raw n :
  0 < n -> 0 <= raw <= 300 * n ->
  (0 <= 100 * inject_Z raw / inject_Z (n * 300) <= 100)%Q.
Proof.
  intros Hn Hraw.
  assert (0 < inject_Z (n * 300))%Q as Hpos.
  { change 0%Q with (inject_Z 0). rewrite <- Zlt_Qlt. lia. }
  change 100%Q with (inject_Z 100). change 0%Q with (inject_Z 0).
  split.
  - apply Qle_shift_div_l; [done|].
    rewrite <- !inject_Z_mult. rewrite <- Zle_Qle. lia.
  - apply Qle_shift_div_r; [done|].
    rewrite <- !inject_Z_mult. rewrite <- Zle_Qle. lia.
Qed.

(** C3: at every point of a run that starts from [NewOsuRuleset], for
    every player, the accuracy is 100 while no object is judged, is
    [100 * rawScore / (numObjects * 300)] once one is, and lies in
    [0, 100].  (Counted outcomes are worth between 0 and 300; the run is
    shorter than 2^54 calls, so no counter wraps.) *)
Theorem C3_accuracy_invariant lazer bm cs mods set0 ks set evs c ss :
  (forall r, isCounted r = true -> 0 <= ScoreValue r <= 300) ->
  NewOsuRuleset lazer bm cs mods = Some set0 ->
  run set0 ks = Some (set, evs) ->
  Z.of_nat (length ks) < 2 ^ 54 ->
  cursors set !! c = Some ss ->
  0 <= numObjects ss
  /\ (numObjects ss = 0 -> accuracy ss = Fnum 100)
  /\ (0 < numObjects ss ->
      accuracy ss =
      Fnum (100 * inject_Z (rawScore ss) / inject_Z (numObjects ss * 300)))
  /\ exists q, accuracy ss = Fnum q /\ (0 <= q <= 100)%Q.
Proof.
  intros Hval Hnew Hrun Hlen Hss.
  assert (accInv (0 + Z.of_nat (length ks)) ss) as (Hn & Hraw & Hacc).
  { eapply (run_invariant accInv); [by apply accInv_invariant|lia|lia|
      |done|done].
    intros c0 ss0 Hss0.
    destruct (NewOsuRuleset_entries _ _ _ _ _ _ _ Hnew Hss0)
      as (d & h & sc & ->).
    unfold accInv. simpl. repeat split; lia. }
  assert (0 < numObjects ss ->
          accuracy ss =
          Fnum (100 * inject_Z (rawScore ss) / inject_Z (numObjects ss * 300)))
    as Hpos.
  { intros Hgt. rewrite Hacc. unfold computeAccuracy.
    destruct (Z.eqb_spec (numObjects ss) 0); [lia|].
    rewrite wrap64_id by (unfold in_int64; lia).
    apply fdiv_finite. lia. }
  split; [lia|]. split; [|split; [done|]].
  - intros Hzero. rewrite Hacc, Hzero. done.
  - destruct (Z.eq_dec (numObjects ss) 0) as [Hzero|Hne].
    + exists 100%Q. rewrite Hacc, Hzero. split; [done|].
      split; by apply Qle_bool_imp_le.
    + eexists. split; [apply Hpos; lia|]. apply accuracy_bounds; lia.
Qed.

(** *** The histogram *)

Lemma histTotal_insert_new (m : gmap Z Z) r v :
  m !! r = None -> histTotal (<[r := v]> m) = v + histTotal m.
Proof.
  intros Hr. unfold histTotal. rewrite map_fold_insert_L; [done| |done].
  intros. lia.
Qed.

Lemma histTotal_delete (m : gmap Z Z) r v :
  m !! r = Some v -> histTotal m = v + histTotal (delete r m).
Proof.
  intros Hr. unfold histTotal.
  rewrite (map_fold_delete_L _ _ r v m); [done| |done].
  intros. lia.
Qed.

Lemma histTotal_insert (m : gmap Z Z) r v :
  histTotal (<[r := v]> m) = v + histTotal m - default 0 (m !! r).
Proof.
  destruct (m !! r) as [v0|] eqn:Hr; simpl.
  - rewrite <- insert_delete_eq.
    rewrite histTotal_insert_new by apply lookup_delete_eq.
    rewrite (histTotal_delete m r v0 Hr). lia.
  - rewrite histTotal_insert_new by done. lia.
Qed.

Lemma nonneg_delete (m : gmap Z Z) r :
  map_Forall (fun _ v => 0 <= v) m ->
  map_Forall (fun _ v => 0 <= v) (delete r m).
Proof.
  intros Hall k x Hk. apply lookup_delete_Some in Hk as [_ Hk].
  by eapply Hall.
Qed.

Lemma histTotal_nonneg (m : gmap Z Z) :
  map_Forall (fun _ v => 0 <= v) m -> 0 <= histTotal m.
Proof.
  induction m as [|r v m Hr IH] using map_ind; intros Hall.
  - unfold histTotal. by rewrite map_fold_empty.
  - rewrite histTotal_insert_new by done.
    apply map_Forall_insert in Hall as [? Hrest]; [|done].
    specialize (IH Hrest). lia.
Qed.

Lemma histTotal_entry (m : gmap Z Z) r v :
  map_Forall (fun _ v => 0 <= v) m -> m !! r = Some v -> v <= histTotal m.
Proof.
  intros Hall Hr. rewrite (histTotal_delete m r v Hr).
  pose proof (histTotal_nonneg _ (nonneg_delete m r Hall)). lia.
Qed.

(** One count makes up the whole histogram exactly when all the others
    are zero. *)
Lemma histTotal_only (m : gmap Z Z) r :
  map_Forall (fun _ v => 0 <= v) m ->
  default 0 (m !! r) = histTotal m <->
  (forall r', r' ≠ r -> default 0 (m !! r') = 0).
Proof.
  intros Hall. pose proof (nonneg_delete m r Hall) as Hall'.
  assert (histTotal m = default 0 (m !! r) + histTotal (delete r m))
    as Hsplit.
  { destruct (m !! r) as [v|] eqn:Hr; simpl.
    - by apply histTotal_delete.
    - by rewrite delete_id. }
  split.
  - intros Heq r' Hne.
    destruct (m !! r') as [v'|] eqn:Hr'; [|done]. simpl.
    assert (delete r m !! r' = Some v') as Hd by by rewrite lookup_delete_ne.
    pose proof (histTotal_entry _ _ _ Hall' Hd).
    pose proof (Hall _ _ Hr'). simpl in *. lia.
  - intros Hzero. rewrite Hsplit.
    assert (histTotal (delete r m) = 0) as ->; [|lia].
    assert (forall k x, delete r m !! k = Some x -> x = 0) as Hz.
    { intros k x Hk. apply lookup_delete_Some in Hk as [Hne Hk].
      specialize (Hzero k ltac:(done)). by rewrite Hk in Hzero. }
    clear -Hz. induction (delete r m) as [|k x m' Hk IH] using map_ind.
    + unfold histTotal. by rewrite map_fold_empty.
    + rewrite histTotal_insert_new by done.
      rewrite (Hz k x) by apply lookup_insert_eq.
      rewrite IH; [done|]. intros k' x' Hk'. apply (Hz k').
      rewrite lookup_insert_ne; [done|]. intros ->. congruence.
Qed.

Lemma histInv_invariant : scoringInvariant histInv.
Proof.
  split; [|split].
  - unfold scoring, histInv. intros k ss ss' Hsc.
    injection Hsc as _ _ _ Hn _ Hh _ _ _ _ _ _ _ _. by rewrite Hn, Hh.
  - unfold histInv. intros k k' ss ? (? & ? & ?).
    repeat split; try done; lia.
  - intros set ss number r sp ss0 r2 k Hk0 Hk Hagg (Hall & Hn & Hrange).
    apply aggregate_fields in Hagg as (_ & Hn0 & Hh0 & _).
    unfold histInv. rewrite Hn0, Hh0.
    destruct (isCounted r); [|repeat split; try done; lia].
    assert (0 <= hit_count ss r <= k) as Hcount.
    { unfold hit_count. destruct (hits ss !! r) as [v|] eqn:Hr; simpl; [|lia].
      pose proof (Hall _ _ Hr). pose proof (histTotal_entry _ _ _ Hall Hr).
      simpl in *. lia. }
    rewrite !wrap64_id by (unfold in_int64; lia).
    split; [|split; [|lia]].
    + apply map_Forall_insert_2; [lia|done].
    + rewrite histTotal_insert. unfold hit_count. lia.
Qed.

(** Along a run from [NewOsuRuleset] the judged objects are the sum of
    the histogram: "every judged object is a 300", the first case of the
    grade, is [hits[Hit300] == numObjects]. *)
Lemma histogram_all_best lazer bm cs mods set0 ks set evs c ss :
  NewOsuRuleset lazer bm cs mods = Some set0 ->
  run set0 ks = Some (set, evs) ->
  Z.of_nat (length ks) < 2 ^ 54 ->
  cursors set !! c = Some ss ->
  numObjects ss = histTotal (hits ss)
  /\ (hit_count ss Hit300 = numObjects ss <->
      forall r, r ≠ Hit300 -> hit_count ss r = 0).
Proof.
  intros Hnew Hrun Hlen Hss.
  assert (histInv (0 + Z.of_nat (length ks)) ss) as (Hall & Hn & _).
  { eapply (run_invariant histInv);
      [apply histInv_invariant|lia|lia| |done|done].
    intros c0 ss0 Hss0.
    destruct (NewOsuRuleset_entries _ _ _ _ _ _ _ Hnew Hss0)
      as (d & h & sc & ->).
    unfold histInv. simpl. split; [|split; [|lia]].
    - apply map_Forall_empty.
    - unfold histTotal. by rewrite map_fold_empty. }
  split; [done|]. rewrite Hn. by apply histTotal_only.
Qed.

(** *** IsPerfect *)

Lemma wrap64_add_l a b : wrap64 (wrap64 a + b) = wrap64 (a + b).
Proof.
  unfold wrap64. f_equal.
  replace ((a + 2 ^ 63) mod 2 ^ 64 - 2 ^ 63 + b + 2 ^ 63)
    with ((a + 2 ^ 63) mod 2 ^ 64 + b) by lia.
  rewrite Zplus_mod_idemp_l. f_equal. lia.
Qed.

Lemma nextMapTo_maxCombo prev o :
  MapTo.maxCombo (nextMapTo prev o) = wrap64 (MapTo.maxCombo prev + comboOf o).
Proof.
  unfold nextMapTo, comboOf. destruct (kind o); simpl; try done.
  rewrite wrap64_add_l. f_equal. lia.
Qed.

Lemma buildMapStats_maxCombo objs prev i m :
  buildMapStats prev objs !! i = Some m ->
  MapTo.maxCombo m =
  wrap64 (MapTo.maxCombo prev + maxComboOf (take (S i) objs)).
Proof.
  revert prev i. induction objs as [|o objs IH]; intros prev i Hm; [done|].
  simpl in Hm. destruct i as [|i].
  - simpl in Hm. simplify_eq. rewrite nextMapTo_maxCombo.
    simpl. f_equal. lia.
  - simpl in Hm. rewrite (IH _ _ Hm), nextMapTo_maxCombo, wrap64_add_l.
    f_equal. change (take (S (S i)) (o :: objs)) with (o :: take (S i) objs).
    simpl. lia.
Qed.

Lemma buildMapStats_length prev objs :
  length (buildMapStats prev objs) = length objs.
Proof.
  revert prev. induction objs as [|o objs IH]; intros prev; [done|].
  simpl. by rewrite IH.
Qed.

Lemma NewOsuRuleset_mapStats lazer bm cs mods set0 :
  NewOsuRuleset lazer bm cs mods = Some set0 ->
  beatMap set0 = bm
  /\ mapStats set0 = buildMapStats zeroMapTo (HitObjects (beatMap set0)).
Proof.
  unfold NewOsuRuleset. intros Hnew.
  destruct (initCursors _ _ _ _ _ _ _ _) as [[[opp subs] players]|];
    [|done].
  simpl in Hnew. by simplify_eq.
Qed.

(** The beatmap and the prefix table are never written, so the first
    hypothesis of the theorem on [IsPerfect] below holds in every state
    of a run from [NewOsuRuleset] ([run_mapStats]). *)
Lemma failInternal_static set pl set' evs :
  failInternal set pl = Some (set', evs) -> static set' = static set.
Proof.
  unfold failInternal. intros Hrun.
  destruct (CheckModActive _ _); [by simplify_eq|].
  destruct (cursors set !! cursor pl) as [ss0|]; [|done]. simpl in Hrun.
  destruct (0 <? recoveries ss0); by simplify_eq.
Qed.

Lemma updateHpAll_static time order set set' evs :
  updateHpAll time order set = Some (set', evs) -> static set' = static set.
Proof.
  revert set evs. induction order as [|c0 order IH]; intros set evs Hrun.
  - simpl in Hrun. by simplify_eq.
  - simpl in Hrun.
    destruct (updateHp time set c0) as [[set1 evs1]|] eqn:Hstep; [|done].
    simpl in Hrun.
    destruct (updateHpAll time order set1) as [[set2 evs2]|] eqn:Hrest;
      [|done].
    simpl in Hrun. simplify_eq. rewrite (IH _ _ Hrest).
    unfold updateHp in Hstep.
    destruct (cursors set !! c0) as [ss0|]; [|by simplify_eq].
    destruct (HealthProcessor.Update _ _) as [h fired].
    destruct fired; [|by simplify_eq].
    by rewrite (failInternal_static _ _ _ _ Hstep).
Qed.

Lemma call_static set k set' evs :
  call set k = Some (set', evs) -> static set' = static set.
Proof.
  intros Hcall. destruct k; simpl in Hcall; try by simplify_eq.
  - unfold Update in Hcall.
    destruct (retire _ _ _ _) as [[keep w] evs0].
    destruct (activate _ _) as [moved rest].
    match type of Hcall with
    | context [updateHpAll _ _ ?s] => set (set1 := s) in *
    end.
    destruct (updateHpAll time order set1) as [[set2 evs1]|] eqn:Hall;
      [|done].
    simpl in Hcall. simplify_eq.
    apply updateHpAll_static in Hall. unfold static in *. simpl in *.
    done.
  - destruct ((result =? Ignore) || (result =? PositionalMiss)) eqn:Hearly.
    { by rewrite (SendResult_early _ _ _ _ _ _ _ _ _ _ Hearly Hcall). }
    apply SendResult_inv in Hcall
      as (ss & r & sp & ss0 & r2 & h & fired & set1 & evs1 & _ & _ & _ & _
          & -> & Hfail & _); [|done].
    destruct fired; [|by simplify_eq].
    by rewrite (failInternal_static _ _ _ _ Hfail).
  - simplify_eq. unfold editPlayer. by destruct (cursors set !! c).
Qed.

Lemma run_static ks set set' evs :
  run set ks = Some (set', evs) -> static set' = static set.
Proof.
  revert set evs. induction ks as [|k ks IH]; intros set evs Hrun.
  - simpl in Hrun. by simplify_eq.
  - simpl in Hrun.
    destruct (call set k) as [[set1 evs1]|] eqn:Hstep; [|done].
    simpl in Hrun.
    destruct (run set1 ks) as [[set2 evs2]|] eqn:Hrest; [|done].
    simpl in Hrun. simplify_eq.
    by rewrite (IH _ _ Hrest), (call_static _ _ _ _ Hstep).
Qed.

Lemma run_mapStats lazer bm cs mods set0 ks set evs :
  NewOsuRuleset lazer bm cs mods = Some set0 ->
  run set0 ks = Some (set, evs) ->
  mapStats set = buildMapStats zeroMapTo (HitObjects (beatMap set)).
Proof.
  intros Hnew Hrun. apply run_static in Hrun. unfold static in Hrun.
  injection Hrun as -> ->. by apply NewOsuRuleset_mapStats in Hnew as [_ ?].
Qed.

(** C10 (amended): with the prefix table that [NewOsuRuleset] builds,
    [IsPerfect] compares the player's max combo with the largest combo of
    the first [numObjects] objects, the objects judged so far; this is
    the total of the sequence only when every object is judged. *)
Theorem C10_IsPerfect_prefix set c ss :
  mapStats set = buildMapStats zeroMapTo (HitObjects (beatMap set)) ->
  cursors set !! c = Some ss ->
  0 < numObjects ss <= Z.of_nat (length (HitObjects (beatMap set))) ->
  in_int64 (numObjects ss) ->
  IsPerfect set c =
    Some (maxCombo ss =?
          wrap64 (maxComboOf (take (Z.to_nat (numObjects ss))
                                   (HitObjects (beatMap set)))))
  /\ (numObjects ss = Z.of_nat (length (HitObjects (beatMap set))) ->
      IsPerfect set c =
        Some (maxCombo ss =? wrap64 (maxComboOf (HitObjects (beatMap set))))).
Proof.
  intros Hstats Hss Hn Hrange. unfold in_int64 in Hrange.
  assert (IsPerfect set c =
    Some (maxCombo ss =?
          wrap64 (maxComboOf (take (Z.to_nat (numObjects ss))
                                   (HitObjects (beatMap set)))))) as Hprefix.
  { unfold IsPerfect. rewrite Hss. simpl.
    rewrite wrap64_id by (unfold in_int64; lia).
    unfold index. destruct (Z.ltb_spec (numObjects ss - 1) 0); [lia|].
    rewrite Hstats.
    destruct (buildMapStats zeroMapTo (HitObjects (beatMap set))
                !! Z.to_nat (numObjects ss - 1)) as [m|] eqn:Hm.
    - simpl. rewrite (buildMapStats_maxCombo _ _ _ _ Hm). simpl.
      by replace (S (Z.to_nat (numObjects ss - 1)))
        with (Z.to_nat (numObjects ss)) by lia.
    - apply lookup_ge_None in Hm. rewrite buildMapStats_length in Hm. lia. }
  split; [done|]. intros Hall. rewrite Hprefix, Hall, Nat2Z.id.
  by rewrite firstn_all.
Qed.

(** *** The passes over the active set *)

Lemma clickLoop_calls c pl time l set :
  (clickLoop c pl time l set).2 = map CallUpdateClickFor l.
Proof.
  revert set. induction l as [|g l IH]; intros set; [done|].
  simpl. destruct (applyTarget _ _) as [set1 evs1].
  specialize (IH set1). destruct (clickLoop c pl time l set1) as [[? ?] ?].
  simpl in *. by rewrite IH.
Qed.

Lemma editPlayer_processed set c f :
  processed (editPlayer set c f) = processed set.
Proof. unfold editPlayer. by destruct (cursors set !! c). Qed.

Lemma normalLoop_blocked c pl time ahead l set :
  Forall nonSliderUpdate (normalLoop c pl time ahead l true set).2.
Proof.
  revert set. induction l as [|g l IH]; intros set; [by constructor|].
  simpl. destruct (isSlider g) eqn:Hs; simpl; [apply IH|].
  destruct (applyTarget _ _) as [set1 evs1].
  specialize (IH set1).
  destruct (normalLoop c pl time ahead l true set1) as [[? ?] ?].
  simpl in *. constructor; [by exists g|done].
Qed.

Lemma normalLoop_after_unhit c pl time ahead l was set pre s post :
  (normalLoop c pl time ahead l was set).2 = pre ++ AskIsHit s false :: post ->
  exists rest, post = CallUpdateFor s :: rest /\ Forall nonSliderUpdate rest.
Proof.
  revert was set pre. induction l as [|g l IH]; intros was set pre Hcalls.
  { simpl in Hcalls. by destruct pre. }
  simpl in Hcalls.
  destruct (isSlider g && was) eqn:Hskip; [by eapply IH|].
  destruct (applyTarget _ _) as [set1 evs1].
  match type of Hcalls with
  | context [normalLoop c pl time ahead l ?w set1] => set (was' := w) in *
  end.
  pose proof (normalLoop_blocked c pl time ahead l set1) as Hblocked.
  specialize (IH was' set1).
  destruct (normalLoop c pl time ahead l was' set1) as [[set2 evs2] calls]
    eqn:Hloop.
  simpl in Hcalls, IH.
  destruct (isSlider g) eqn:Hs; simpl in Hcalls.
  - destruct pre as [|a pre]; simpl in Hcalls.
    + injection Hcalls as -> Hhit <-. exists calls. split; [done|].
      subst was'. rewrite Hhit in Hloop. simpl in Hloop.
      by rewrite Hloop in Hblocked.
    + injection Hcalls as _ Hcalls.
      destruct pre as [|b pre]; simpl in Hcalls; [done|].
      injection Hcalls as _ Hcalls. by eapply IH.
  - destruct pre as [|a pre]; simpl in Hcalls; [done|].
    injection Hcalls as _ Hcalls. by eapply IH.
Qed.

(** C7 (amended): the rule "after a slider that the player has not yet
    hit, skip every later slider" belongs to the pass [UpdateNormalFor]:
    once [IsHit] has answered false for a slider, that slider is updated
    and after it only targets that are not sliders are.  The click pass
    [UpdateClickFor] has no such rule and offers the click to every
    active target. *)
Theorem C7_slider_suppression mem set c time ahead
    setN evsN callsN setC evsC callsC :
  UpdateNormalFor set c time ahead = Some (setN, evsN, callsN) ->
  UpdateClickFor mem set c time = Some (setC, evsC, callsC) ->
  (forall pre s post,
     callsN = pre ++ AskIsHit s false :: post ->
     exists rest,
       post = CallUpdateFor s :: rest /\ Forall nonSliderUpdate rest)
  /\ callsC = map CallUpdateClickFor (processed set).
Proof.
  intros HrunN HrunC. split.
  - intros pre s post Hcalls.
    unfold UpdateNormalFor in HrunN.
    destruct (cursors set !! c) as [ss|]; [|done]. simpl in HrunN.
    injection HrunN as HrunN.
    eapply normalLoop_after_unhit. rewrite HrunN. exact Hcalls.
  - unfold UpdateClickFor in HrunC.
    destruct (cursors set !! c) as [ss|]; [|done]. simpl in HrunC.
    match type of HrunC with
    | context [clickLoop ?a ?b ?t ?l ?s] =>
        pose proof (clickLoop_calls a b t l s) as Hcalls;
        destruct (clickLoop a b t l s) as [[set2 evs2] calls2]
    end.
    simpl in Hcalls. injection HrunC as _ _ <-.
    by rewrite Hcalls, editPlayer_processed.
Qed.

(** *** Determinism *)

Lemma with_cursors_id set : with_cursors set (cursors set) = set.
Proof. by destruct set. Qed.

Lemma alter_present {A} (f : A -> A) (m : gmap positive A) c x :
  m !! c = Some x -> alter f c m = <[c := f x]> m.
Proof.
  intros Hx. apply map_eq. intros k. rewrite lookup_alter, lookup_insert.
  case_decide; [|done]. by rewrite Hx.
Qed.

Lemma failInternal_own set ss :
  cursors set !! cursor (player ss) = Some ss ->
  exists evs,
    failInternal set (player ss) =
    Some (with_cursors set
            (<[cursor (player ss) := failSub ss]> (cursors set)), evs).
Proof.
  intros Hss. unfold failInternal, failSub.
  destruct (CheckModActive _ _).
  - exists []. by rewrite insert_id, with_cursors_id.
  - rewrite Hss. simpl. destruct (0 <? recoveries ss); by eexists.
Qed.

Lemma player_failSub ss : player (failSub ss) = player ss.
Proof.
  unfold failSub. destruct (CheckModActive _ _); [done|].
  by destruct (0 <? recoveries ss).
Qed.

Lemma player_hpTick time ss : player (hpTick time ss) = player ss.
Proof.
  unfold hpTick. destruct (HealthProcessor.Update _ _) as [h fired].
  destruct fired; [by rewrite player_failSub|done].
Qed.

Lemma updateHp_alter time set c :
  keyed set ->
  exists evs,
    updateHp time set c =
    Some (with_cursors set (alter (hpTick time) c (cursors set)), evs).
Proof.
  intros Hkeyed. unfold updateHp.
  destruct (cursors set !! c) as [ss|] eqn:Hss.
  2: { exists []. by rewrite alter_id', with_cursors_id. }
  rewrite (alter_present _ _ _ _ Hss). unfold hpTick.
  destruct (HealthProcessor.Update (hp ss) time) as [h fired].
  destruct fired; [|by eexists].
  pose proof (Hkeyed _ _ Hss) as Hc.
  destruct (failInternal_own
              (with_cursors set (<[c := with_hp ss h]> (cursors set)))
              (with_hp ss h)) as [evs Hfail].
  { simpl. by rewrite Hc, lookup_insert_eq. }
  simpl in Hfail. rewrite Hc in Hfail. exists evs.
  replace (player ss) with (player (with_hp ss h)) by done.
  simpl. rewrite Hfail. by rewrite insert_insert_eq.
Qed.

Lemma keyed_alter set c time :
  keyed set ->
  keyed (with_cursors set (alter (hpTick time) c (cursors set))).
Proof.
  intros Hkeyed k ss Hss. simpl in Hss.
  apply lookup_alter_Some in Hss as [(-> & ss0 & Hss0 & ->)|[_ Hss]].
  - rewrite player_hpTick. by eapply Hkeyed.
  - by eapply Hkeyed.
Qed.

Lemma updateHpAll_tickAll time order set :
  keyed set ->
  exists evs,
    updateHpAll time order set =
    Some (with_cursors set (tickAll time order (cursors set)), evs).
Proof.
  revert set. induction order as [|c order IH]; intros set Hkeyed.
  - exists []. simpl. by rewrite with_cursors_id.
  - simpl. destruct (updateHp_alter time set c Hkeyed) as [evs1 ->].
    simpl.
    destruct (IH _ (keyed_alter set c time Hkeyed)) as [evs2 ->].
    simpl. by eexists.
Qed.

Lemma tickAll_perm time order1 order2 (m : gmap positive subSet) :
  order1 ≡ₚ order2 -> tickAll time order1 m = tickAll time order2 m.
Proof.
  intros Hperm. revert m. unfold tickAll.
  induction Hperm as [|c l1 l2 _ IH|c1 c2 l|l1 l2 l3 _ IH1 _ IH2]; intros m.
  - done.
  - simpl. apply IH.
  - simpl. destruct (decide (c1 = c2)) as [->|Hne]; [done|].
    by rewrite alter_alter_ne.
  - by rewrite IH1, IH2.
Qed.

Lemma Update_perm order1 order2 set time :
  keyed set -> order1 ≡ₚ order2 ->
  fst <$> Update order1 set time = fst <$> Update order2 set time.
Proof.
  intros Hkeyed Hperm. unfold Update.
  destruct (retire _ _ _ _) as [[keep w] evs0].
  destruct (activate _ _) as [moved rest].
  match goal with
  | |- context [updateHpAll _ _ ?s] => set (set1 := s)
  end.
  assert (keyed set1) as Hkeyed1 by exact Hkeyed.
  destruct (updateHpAll_tickAll time order1 set1 Hkeyed1) as [evs1 ->].
  destruct (updateHpAll_tickAll time order2 set1 Hkeyed1) as [evs2 ->].
  simpl. by rewrite (tickAll_perm _ _ _ _ Hperm).
Qed.

Lemma call_keyed set k set' evs :
  keyed set -> call set k = Some (set', evs) -> keyed set'.
Proof.
  intros Hkeyed Hcall c ss' Hss'.
  destruct (call_scoring _ _ _ _ c Hcall) as [Hsame|Hagg].
  - rewrite Hss' in Hsame.
    destruct (cursors set !! c) as [ss|] eqn:Hss; [|done].
    apply (inj Some) in Hsame. unfold scoring in Hsame.
    injection Hsame as _ _ _ _ _ _ _ _ _ _ _ _ _ Hcur.
    rewrite Hcur. by eapply Hkeyed.
  - destruct Hagg as (time & src & x & y & result & cr & ss & r & sp & ss0
                     & r2 & _ & Hss & _ & Hagg & Hsc).
    rewrite Hss' in Hsc. apply (inj Some) in Hsc. unfold scoring in Hsc.
    injection Hsc as _ _ _ _ _ _ _ _ _ _ _ _ _ Hcur.
    apply aggregate_keeps in Hagg as (Hpl & _).
    rewrite Hcur, Hpl. by eapply Hkeyed.
Qed.

Lemma call_sameInput set k1 k2 :
  keyed set -> sameInput k1 k2 ->
  fst <$> call set k1 = fst <$> call set k2.
Proof.
  intros Hkeyed Hsame. destruct Hsame; [|done].
  simpl. by apply Update_perm.
Qed.

Lemma run_sameInput ks1 ks2 set :
  keyed set -> Forall2 sameInput ks1 ks2 ->
  fst <$> run set ks1 = fst <$> run set ks2.
Proof.
  intros Hkeyed Hsame. revert set Hkeyed.
  induction Hsame as [|k1 k2 ks1 ks2 Hk _ IH]; intros set Hkeyed; [done|].
  simpl. pose proof (call_sameInput set k1 k2 Hkeyed Hk) as Hcall.
  destruct (call set k1) as [[set1 evs1]|] eqn:Hc1;
    destruct (call set k2) as [[set2 evs2]|] eqn:Hc2; try done.
  simpl in Hcall. injection Hcall as <-. simpl.
  specialize (IH set1 (call_keyed _ _ _ _ Hkeyed Hc1)).
  destruct (run set1 ks1) as [[? ?]|]; destruct (run set1 ks2) as [[? ?]|];
    simpl in *; by simplify_eq.
Qed.

Lemma NewOsuRuleset_keyed lazer bm cs mods set0 :
  NewOsuRuleset lazer bm cs mods = Some set0 -> keyed set0.
Proof.
  intros Hnew c ss Hss.
  by destruct (NewOsuRuleset_entries _ _ _ _ _ _ _ Hnew Hss)
    as (d & h & sc & ->).
Qed.

(** C6: two rule sets built by [NewOsuRuleset] from the same beatmap,
    cursors and modifiers and driven by the same calls reach the same
    state after every call, and so the same score, hit counts, combo,
    max combo, accuracy, grade, bonus counters and fail flag for every
    player, whatever orders the run time picks when [Update] ranges over
    [cursors] (if one run panics, so does the other). *)
Theorem C6_determinism lazer bm cs mods setA setB ks1 ks2 n :
  NewOsuRuleset lazer bm cs mods = Some setA ->
  NewOsuRuleset lazer bm cs mods = Some setB ->
  Forall2 sameInput ks1 ks2 ->
  fst <$> run setA (take n ks1) = fst <$> run setB (take n ks2).
Proof.
  intros HnewA HnewB Hsame.
  rewrite HnewA in HnewB. injection HnewB as <-.
  apply run_sameInput.
  - by eapply NewOsuRuleset_keyed.
  - by apply Forall2_take.
Qed.

(** ** Further properties of the rule set *)

(** *** What the health loop leaves alone *)

Lemma failInternal_frame set pl set' evs :
  failInternal set pl = Some (set', evs) ->
  set' = with_cursors set (cursors set').
Proof.
  unfold failInternal. intros Hf.
  destruct (CheckModActive _ _).
  { simplify_eq. by rewrite with_cursors_id. }
  destruct (cursors set !! cursor pl) as [ss|]; [|done]. simpl in Hf.
  destruct (0 <? recoveries ss); by simplify_eq.
Qed.

Lemma updateHp_frame time set c set' evs :
  updateHp time set c = Some (set', evs) ->
  set' = with_cursors set (cursors set').
Proof.
  unfold updateHp. intros Hu.
  destruct (cursors set !! c) as [ss|].
  2: { simplify_eq. by rewrite with_cursors_id. }
  destruct (HealthProcessor.Update (hp ss) time) as [h fired].
  destruct fired; [|by simplify_eq].
  apply failInternal_frame in Hu. by rewrite Hu.
Qed.

Lemma updateHpAll_frame time order set set' evs :
  updateHpAll time order set = Some (set', evs) ->
  set' = with_cursors set (cursors set').
Proof.
  revert set evs. induction order as [|c order IH]; intros set evs Hu.
  { simpl in Hu. simplify_eq. by rewrite with_cursors_id. }
  simpl in Hu.
  destruct (updateHp time set c) as [[set1 evs1]|] eqn:Hstep; [|done].
  simpl in Hu.
  destruct (updateHpAll time order set1) as [[set2 evs2]|] eqn:Hrest; [|done].
  simpl in Hu. simplify_eq.
  apply updateHp_frame in Hstep. apply IH in Hrest.
  rewrite Hrest. rewrite Hstep. done.
Qed.

(** The fail handler and the health loop only report fails. *)
Lemma failInternal_events set pl set' evs :
  failInternal set pl = Some (set', evs) ->
  List.filter isEndEvent evs = [].
Proof.
  unfold failInternal. intros Hf.
  destruct (CheckModActive _ _); [by simplify_eq|].
  destruct (cursors set !! cursor pl) as [ss|]; [|done]. simpl in Hf.
  destruct (0 <? recoveries ss); simplify_eq; [done|].
  by destruct (failListener set && negb (failed ss)).
Qed.

Lemma updateHpAll_events time order set set' evs :
  updateHpAll time order set = Some (set', evs) ->
  List.filter isEndEvent evs = [].
Proof.
  revert set evs. induction order as [|c order IH]; intros set evs Hu.
  { simpl in Hu. by simplify_eq. }
  simpl in Hu.
  destruct (updateHp time set c) as [[set1 evs1]|] eqn:Hstep; [|done].
  simpl in Hu.
  destruct (updateHpAll time order set1) as [[set2 evs2]|] eqn:Hrest; [|done].
  simpl in Hu. simplify_eq.
  rewrite List.filter_app, (IH _ _ Hrest), app_nil_r.
  unfold updateHp in Hstep.
  destruct (cursors set !! c) as [ss|]; [|by simplify_eq].
  destruct (HealthProcessor.Update (hp ss) time) as [h fired].
  destruct fired; [|by simplify_eq].
  by eapply failInternal_events.
Qed.

(** *** Retirement and activation *)

Lemma retire_split time hasEnd l (w : W) keep w' evs :
  retire time hasEnd l w = (keep, w', evs) ->
  exists removed,
    sublist keep l /\ sublist removed l /\ l ≡ₚ keep ++ removed
    /\ evs = if hasEnd
             then map (fun g => EndEvent time (GetNumber g) : Event) removed
             else [].
Proof.
  revert w keep w' evs. induction l as [|g l IH]; intros w keep w' evs Hr.
  { simpl in Hr. simplify_eq. exists []. by destruct hasEnd. }
  simpl in Hr. destruct (UpdatePost w g time) as [w1 isDone].
  destruct (retire time hasEnd l w1) as [[keep1 w2] evs1] eqn:Hrec.
  destruct (IH _ _ _ _ Hrec) as (removed & Hk & Hrm & Hperm & Hevs).
  destruct isDone; simplify_eq.
  - exists (g :: removed). split; [by apply sublist_cons|].
    split; [by apply sublist_skip|].
    split; [rewrite <- Permutation_middle; by f_equiv|].
    by destruct hasEnd.
  - exists removed. split; [by apply sublist_skip|].
    split; [by apply sublist_cons|].
    split; [simpl; by f_equiv|done].
Qed.

Lemma filter_end_events time (l : list HitObject) :
  List.filter isEndEvent
    (map (fun g => EndEvent time (GetNumber g) : Event) l)
  = map (fun g => EndEvent time (GetNumber g)) l.
Proof. induction l as [|g l IH]; [done|]. simpl. by rewrite IH. Qed.

Lemma activate_split time q moved rest :
  activate time q = (moved, rest) ->
  q = moved ++ rest
  /\ Forall (fun g => GetFadeTime g <= time) moved
  /\ (forall g, head rest = Some g -> time < GetFadeTime g).
Proof.
  revert moved rest. induction q as [|g q IH]; intros moved rest Ha.
  { simpl in Ha. by simplify_eq. }
  simpl in Ha. destruct (Z.ltb_spec time (GetFadeTime g)).
  { simplify_eq. split; [done|]. split; [done|].
    intros g' Hg'. simpl in Hg'. by simplify_eq. }
  destruct (activate time q) as [moved1 rest1] eqn:Hrec.
  destruct (IH _ _ eq_refl) as (Hq & Hm & Hr). simplify_eq.
  split; [done|]. split; [by constructor|done].
Qed.

(** The state between the two halves of [Update]. *)
Lemma Update_inv order set time set' evs :
  Update order set time = Some (set', evs) ->
  exists keep w evs0 moved rest evs1 set1 set2,
    retire time (endListener set) (processed set) (targets set)
      = (keep, w, evs0)
    /\ activate time (queue set) = (moved, rest)
    /\ (cursors set1 = cursors set /\ failListener set1 = failListener set
        /\ updateHpAll time order set1 = Some (set2, evs1)
        /\ cursors set' = cursors set2)
    /\ processed set' = keep ++ moved /\ queue set' = rest
    /\ targets set' = w /\ evs = evs0 ++ evs1
    /\ List.filter isEndEvent evs1 = []
    /\ ended set' =
       ended set
       || (bool_decide (queue set' = []) && bool_decide (processed set' = []))
    /\ beatMap set' = beatMap set /\ mapStats set' = mapStats set
    /\ oppDiffs set' = oppDiffs set
    /\ hitListener set' = hitListener set
    /\ endListener set' = endListener set
    /\ failListener set' = failListener set
    /\ experimentalPP set' = experimentalPP set.
Proof.
  unfold Update. intros Hu.
  destruct (retire _ _ _ _) as [[keep w] evs0] eqn:Hret.
  destruct (activate _ _) as [moved rest] eqn:Hact.
  match type of Hu with
  | context [updateHpAll time order ?s] =>
      destruct (updateHpAll time order s) as [[set2 evs1]|] eqn:Hall;
        [|done]
  end.
  simpl in Hu. simplify_eq.
  pose proof (updateHpAll_events _ _ _ _ _ Hall) as Hevs.
  pose proof (updateHpAll_frame _ _ _ _ _ Hall) as Hframe.
  eexists keep, w, evs0, moved, rest, evs1, _, set2.
  split; [done|]. split; [done|]. split.
  { split; [|split; [|split; [exact Hall|]]]; done. }
  rewrite Hframe. simpl.
  repeat split; try done.
  destruct (ended set); simpl.
  { by destruct (_ && _). }
  rewrite andb_true_r.
  destruct rest, (keep ++ moved); done.
Qed.

(** The targets that [retire] keeps are the ones whose [UpdatePost]
    answer is not "done". *)
Lemma retire_answers time hasEnd l (w : W) keep w' evs :
  retire time hasEnd l w = (keep, w', evs) ->
  keep = notDone l (postAnswers time l w).
Proof.
  revert w keep w' evs. induction l as [|g l IH]; intros w keep w' evs Hr.
  { simpl in Hr. by simplify_eq. }
  simpl in Hr. unfold notDone. simpl.
  destruct (UpdatePost w g time) as [w1 isDone].
  destruct (retire time hasEnd l w1) as [[keep1 w2] evs1] eqn:Hrec.
  apply IH in Hrec. destruct isDone; by simplify_eq.
Qed.

(** X1: [Update] asks [UpdatePost] of every active target, in order,
    and keeps the targets that do not answer "done"; behind them it
    moves exactly the longest prefix of the queue whose targets have
    [GetFadeTime() <= time].  The order of the targets is kept and a
    target that is due behind one that is not stays queued. *)
Theorem X1_Update_activation order set time set' evs :
  Update order set time = Some (set', evs) ->
  exists moved,
    processed set' =
      notDone (processed set)
              (postAnswers time (processed set) (targets set)) ++ moved
    /\ queue set = moved ++ queue set'
    /\ sublist (notDone (processed set)
                        (postAnswers time (processed set) (targets set)))
               (processed set)
    /\ Forall (fun g => GetFadeTime g <= time) moved
    /\ (forall g, head (queue set') = Some g -> time < GetFadeTime g).
Proof.
  intros Hu. apply Update_inv in Hu
    as (keep & w & evs0 & moved & rest & evs1 & set1 & set2 & Hret & Hact
        & _ & Hp & Hq & _).
  pose proof (retire_answers _ _ _ _ _ _ _ Hret) as Hkeep.
  apply retire_split in Hret as (removed & Hk & _).
  apply activate_split in Hact as (Hsplit & Hmoved & Hrest).
  exists moved. rewrite Hp, Hq, <- Hkeep. done.
Qed.

(** X2: [Update] calls the end listener once for every target that it
    removes from the active set, in the order of the active set and with
    the target's ordinal; without an end listener nothing is reported,
    and an [Update] reports no other end of a target. *)
Theorem X2_Update_end_events order set time set' evs :
  Update order set time = Some (set', evs) ->
  exists keep moved removed,
    processed set' = keep ++ moved
    /\ queue set = moved ++ queue set'
    /\ processed set ≡ₚ keep ++ removed
    /\ sublist removed (processed set)
    /\ List.filter isEndEvent evs =
       if endListener set
       then map (fun g => EndEvent time (GetNumber g)) removed
       else [].
Proof.
  intros Hu. apply Update_inv in Hu
    as (keep & w & evs0 & moved & rest & evs1 & set1 & set2 & Hret & Hact
        & _ & Hp & Hq & _ & -> & Hevs1 & _).
  apply retire_split in Hret as (removed & _ & Hrm & Hperm & ->).
  apply activate_split in Hact as (Hsplit & _).
  exists keep, moved, removed. rewrite Hp, Hq.
  repeat split; try done.
  rewrite List.filter_app, Hevs1, app_nil_r.
  destruct (endListener set); [apply filter_end_events|done].
Qed.

(** *** Invariants of runs *)

Lemma run_preserves (I : OsuRuleSet -> Prop) ks set set' evs :
  (forall set k set' evs, I set -> call set k = Some (set', evs) -> I set') ->
  I set -> run set ks = Some (set', evs) -> I set'.
Proof.
  intros Hcall. revert set evs.
  induction ks as [|k ks IH]; intros set evs Hset Hrun.
  { simpl in Hrun. by simplify_eq. }
  simpl in Hrun.
  destruct (call set k) as [[set1 evs1]|] eqn:Hstep; [|done].
  simpl in Hrun.
  destruct (run set1 ks) as [[set2 evs2]|] eqn:Hrest; [|done].
  simpl in Hrun. simplify_eq. eauto.
Qed.

Lemma SendResult_frame set time c src x y result cr set' evs :
  SendResult set time c src x y result cr = Some (set', evs) ->
  set' = with_cursors set (cursors set').
Proof.
  intros Hs.
  destruct ((result =? Ignore) || (result =? PositionalMiss)) eqn:Hearly.
  { apply SendResult_early in Hs; [|done]. subst.
    by rewrite with_cursors_id. }
  apply SendResult_inv in Hs; [|done].
  destruct Hs as (ss & r & sp & ss0 & r2 & h & fired & set1 & evs1
                  & _ & _ & _ & _ & -> & Hfail & _).
  destruct fired; [|by simplify_eq].
  apply failInternal_frame in Hfail. by rewrite Hfail.
Qed.

(** A call other than [Update] writes neither the queue nor the active
    set nor the end flag; no call writes the beatmap, the tables or
    the setting. *)
Lemma call_frame set k set' evs :
  call set k = Some (set', evs) ->
  beatMap set' = beatMap set /\ mapStats set' = mapStats set
  /\ oppDiffs set' = oppDiffs set
  /\ experimentalPP set' = experimentalPP set
  /\ ((exists order time, k = DoUpdate order time)
      \/ queue set' = queue set /\ processed set' = processed set
         /\ ended set' = ended set).
Proof.
  destruct k as [order time|time c src x y result cr|w|c new|b|b|b];
    simpl; intros Hcall.
  - apply Update_inv in Hcall
      as (keep & w & evs0 & moved & rest & evs1 & set1 & set2 & _ & _ & _
          & _ & _ & _ & _ & _ & _ & ? & ? & ? & _ & _ & _ & ?).
    repeat split; try done. left. eauto.
  - apply SendResult_frame in Hcall. rewrite Hcall. simpl.
    repeat split; try done. by right.
  - simplify_eq. simpl. repeat split; try done. by right.
  - simplify_eq. unfold editPlayer.
    destruct (cursors set !! c); simpl; repeat split; try done; by right.
  - simplify_eq. simpl. repeat split; try done. by right.
  - simplify_eq. simpl. repeat split; try done. by right.
  - simplify_eq. simpl. repeat split; try done. by right.
Qed.

Lemma run_frame ks set set' evs :
  run set ks = Some (set', evs) ->
  beatMap set' = beatMap set /\ mapStats set' = mapStats set
  /\ oppDiffs set' = oppDiffs set
  /\ experimentalPP set' = experimentalPP set.
Proof.
  intros Hrun.
  apply (run_preserves
           (fun s => beatMap s = beatMap set /\ mapStats s = mapStats set
                     /\ oppDiffs s = oppDiffs set
                     /\ experimentalPP s = experimentalPP set)
           ks set set' evs); [|done|done].
  intros s k s' e (? & ? & ? & ?) Hcall.
  apply call_frame in Hcall as (? & ? & ? & ? & _).
  repeat split; congruence.
Qed.

Lemma run_keyed ks set set' evs :
  keyed set -> run set ks = Some (set', evs) -> keyed set'.
Proof.
  intros Hk Hrun.
  apply (run_preserves keyed ks set set' evs); [|done|done].
  intros s k s' e ? Hcall. by eapply call_keyed.
Qed.

(** *** The end of the map *)

Lemma call_ended_empty set k set' evs :
  (ended set = true -> queue set = [] /\ processed set = []) ->
  call set k = Some (set', evs) ->
  ended set' = true -> queue set' = [] /\ processed set' = [].
Proof.
  intros Hinv Hcall Hended.
  destruct (call_frame _ _ _ _ Hcall) as (_ & _ & _ & _ & [Hup|Hsame]).
  2: { destruct Hsame as (-> & -> & Heq). rewrite Heq in Hended. auto. }
  destruct Hup as (order & time & ->). simpl in Hcall.
  apply Update_inv in Hcall
    as (keep & w & evs0 & moved & rest & evs1 & set1 & set2 & Hret & Hact
        & _ & Hp & Hq & _ & _ & _ & He & _).
  rewrite He in Hended. apply orb_true_iff in Hended as [Hended|Hended].
  - destruct (Hinv Hended) as [Hqueue Hproc].
    rewrite Hqueue in Hact. rewrite Hproc in Hret. simpl in Hact, Hret.
    injection Hret as <- _ _. injection Hact as <- <-.
    by rewrite Hp, Hq.
  - apply andb_true_iff in Hended as [Hl Hr].
    apply bool_decide_eq_true in Hl, Hr. done.
Qed.

Lemma call_ended_stays set k set' evs :
  call set k = Some (set', evs) -> ended set = true -> ended set' = true.
Proof.
  intros Hcall Hended.
  destruct (call_frame _ _ _ _ Hcall) as (_ & _ & _ & _ & [Hup|Hsame]).
  2: { destruct Hsame as (_ & _ & ->). done. }
  destruct Hup as (order & time & ->). simpl in Hcall.
  apply Update_inv in Hcall
    as (keep & w & evs0 & moved & rest & evs1 & set1 & set2 & _ & _ & _
        & _ & _ & _ & _ & _ & He & _).
  by rewrite He, Hended.
Qed.

(** X3: the end flag of a rule set.  In every state reached from
    [NewOsuRuleset] the flag is only set when no target is queued or
    active; an [Update] leaves it set exactly when it leaves no target
    behind; and no later call clears it. *)
Theorem X3_ended lazer bm cs mods set0 ks set evs :
  NewOsuRuleset lazer bm cs mods = Some set0 ->
  run set0 ks = Some (set, evs) ->
  (ended set = true -> queue set = [] /\ processed set = [])
  /\ (forall order time set' evs',
        Update order set time = Some (set', evs') ->
        ended set' = true <-> queue set' = [] /\ processed set' = [])
  /\ (forall ks' set' evs',
        run set ks' = Some (set', evs') ->
        ended set = true -> ended set' = true).
Proof.
  intros Hnew Hrun.
  assert (ended set = true -> queue set = [] /\ processed set = [])
    as Hinv.
  { apply (run_preserves
             (fun s => ended s = true -> queue s = [] /\ processed s = [])
             ks set0 set evs); [| |done].
    - intros s k s' e. apply call_ended_empty.
    - unfold NewOsuRuleset in Hnew.
      destruct (initCursors _ _ _ _ _ _ _ _) as [[[opp subs] players]|];
        [|done].
      simpl in Hnew. by simplify_eq. }
  split; [done|]. split.
  - intros order time set' evs' Hu. split.
    + apply (call_ended_empty set (DoUpdate order time) set' evs'); done.
    + intros [Hq Hp]. apply Update_inv in Hu
        as (keep & w & evs0 & moved & rest & evs1 & set1 & set2 & _ & _ & _
            & _ & _ & _ & _ & _ & He & _).
      rewrite He, Hq, Hp. apply orb_true_r.
  - intros ks' set' evs' Hrun' Hended.
    apply (run_preserves (fun s => ended s = true) ks' set set' evs');
      [|done|done].
    intros s k s' e ? Hcall. by eapply call_ended_stays.
Qed.

(** *** The order of the targets *)

Lemma sublist_Forall {A} (P : A -> Prop) (l1 l2 : list A) :
  sublist l1 l2 -> Forall P l2 -> Forall P l1.
Proof.
  induction 1 as [|x l1 l2 _ IH|x l1 l2 _ IH]; intros Hall;
    [done| |]; inversion_clear Hall; auto.
Qed.

Lemma ascending_sublist (l1 l2 : list HitObject) :
  sublist l1 l2 -> ascending l2 -> ascending l1.
Proof.
  induction 1 as [|x l1 l2 Hsub IH|x l1 l2 _ IH]; simpl; [done| |].
  - intros [Hall Hasc]. split; [by eapply sublist_Forall|auto].
  - intros [_ Hasc]. auto.
Qed.

Lemma ascending_lookup (l : list HitObject) (i j : nat) gi gj :
  ascending l -> (i < j)%nat ->
  l !! i = Some gi -> l !! j = Some gj -> GetNumber gi < GetNumber gj.
Proof.
  revert i j. induction l as [|g l IH]; intros i j Hasc Hlt Hi Hj; [done|].
  destruct Hasc as [Hall Hasc].
  destruct j as [|j]; [lia|]. simpl in Hj.
  destruct i as [|i].
  - simpl in Hi. simplify_eq.
    rewrite Forall_forall in Hall. apply Hall.
    by eapply list_elem_of_lookup_2.
  - simpl in Hi. apply (IH i j); [done|lia|done|done].
Qed.

Lemma initQueue_spec bm pre objs :
  HitObjects bm = pre ++ objs ->
  let q := initQueue bm objs (length pre) in
  length q = length objs
  /\ ascending q
  /\ Forall (fun g => Z.of_nat (length pre) <= GetNumber g) q
  /\ Forall (standsFor bm) q.
Proof.
  revert pre. induction objs as [|o objs IH]; intros pre Hbm; [done|].
  simpl.
  destruct (IH (pre ++ [o])) as (Hlen & Hasc & Hlow & Hfor).
  { by rewrite <- app_assoc. }
  rewrite length_app in Hlen, Hasc, Hlow, Hfor. simpl in *.
  replace (length pre + 1)%nat with (S (length pre)) in * by lia.
  split; [by rewrite Hlen|]. split; [split; [|done]|split].
  - eapply Forall_impl; [exact Hlow|]. simpl. intros g Hg. lia.
  - constructor; [simpl; lia|].
    eapply Forall_impl; [exact Hlow|]. simpl. intros g Hg. lia.
  - constructor; [|done]. exists o. simpl.
    rewrite Hbm. by rewrite index_app_length.
Qed.

Lemma call_sublist set k set' evs :
  call set k = Some (set', evs) ->
  sublist (processed set' ++ queue set') (processed set ++ queue set).
Proof.
  intros Hcall.
  destruct (call_frame _ _ _ _ Hcall) as (_ & _ & _ & _ & [Hup|Hsame]).
  2: { destruct Hsame as (-> & -> & _). done. }
  destruct Hup as (order & time & ->). simpl in Hcall.
  apply Update_inv in Hcall
    as (keep & w & evs0 & moved & rest & evs1 & set1 & set2 & Hret & Hact
        & _ & -> & -> & _).
  apply retire_split in Hret as (removed & Hk & _).
  apply activate_split in Hact as (-> & _).
  rewrite <- app_assoc. by apply sublist_app.
Qed.

Lemma run_sublist lazer bm cs mods set0 ks set evs :
  NewOsuRuleset lazer bm cs mods = Some set0 ->
  run set0 ks = Some (set, evs) ->
  sublist (processed set ++ queue set) (queue set0).
Proof.
  intros Hnew Hrun.
  assert (processed set0 = []) as Hp.
  { unfold NewOsuRuleset in Hnew.
    destruct (initCursors _ _ _ _ _ _ _ _) as [[[opp subs] players]|];
      [|done].
    simpl in Hnew. by simplify_eq. }
  apply (run_preserves
           (fun s => sublist (processed s ++ queue s) (queue set0))
           ks set0 set evs); [|by rewrite Hp|done].
  intros s k s' e Hs Hcall.
  etrans; [by eapply call_sublist|done].
Qed.

(** X4: the targets of a rule set.  [NewOsuRuleset] queues one target
    per object of the beatmap; in every state reached from it the active
    targets followed by the queued ones are a subsequence of that queue:
    no target is duplicated or re-ordered, the ordinals increase
    strictly, and every target stands for the object at its ordinal. *)
Theorem X4_targets_ascending lazer bm cs mods set0 ks set evs :
  NewOsuRuleset lazer bm cs mods = Some set0 ->
  run set0 ks = Some (set, evs) ->
  length (queue set0) = length (HitObjects bm)
  /\ processed set0 = []
  /\ sublist (processed set ++ queue set) (queue set0)
  /\ ascending (processed set ++ queue set)
  /\ Forall (standsFor bm) (processed set ++ queue set).
Proof.
  intros Hnew Hrun.
  assert (queue set0 = initQueue bm (HitObjects bm) 0
          /\ processed set0 = []) as [Hq Hp].
  { unfold NewOsuRuleset in Hnew.
    destruct (initCursors _ _ _ _ _ _ _ _) as [[[opp subs] players]|];
      [|done].
    simpl in Hnew. by simplify_eq. }
  destruct (initQueue_spec bm [] (HitObjects bm) eq_refl)
    as (Hlen & Hasc & _ & Hfor). simpl in *.
  pose proof (run_sublist _ _ _ _ _ _ _ _ Hnew Hrun) as Hsub.
  rewrite Hq in *.
  repeat split; try done.
  - by eapply ascending_sublist.
  - by eapply sublist_Forall.
Qed.

(** *** The per-cursor states along a run *)

Lemma scoring_fields ss ss' :
  scoring ss' = scoring ss ->
  rawScore ss' = rawScore ss /\ accuracy ss' = accuracy ss
  /\ maxCombo ss' = maxCombo ss /\ numObjects ss' = numObjects ss
  /\ grade ss' = grade ss /\ hits ss' = hits ss
  /\ scoreProcessor_ ss' = scoreProcessor_ ss
  /\ diff (player ss') = diff (player ss)
  /\ cursor (player ss') = cursor (player ss).
Proof.
  unfold scoring. intros Heq.
  injection Heq as ? ? ? ? ? ? _ _ _ _ _ ? ? ?. done.
Qed.

Lemma Update_cursors order set time set' evs :
  keyed set ->
  Update order set time = Some (set', evs) ->
  cursors set' = tickAll time order (cursors set).
Proof.
  intros Hkeyed Hu. apply Update_inv in Hu
    as (keep & w & evs0 & moved & rest & evs1 & set1 & set2 & _ & _
        & (Hcs & _ & Hall & ->) & _).
  assert (keyed set1) as Hkeyed1.
  { intros c ss. rewrite Hcs. apply Hkeyed. }
  destruct (updateHpAll_tickAll time order set1 Hkeyed1) as [evs2 Heq].
  rewrite Heq in Hall. simplify_eq. simpl. by rewrite Hcs.
Qed.

Lemma SendResult_entry set time c src x y result cr set' evs :
  keyed set ->
  (result =? Ignore) || (result =? PositionalMiss) = false ->
  SendResult set time c src x y result cr = Some (set', evs) ->
  exists ss r sp ss0 r2 h fired,
    cursors set !! c = Some ss
    /\ ModifyResult (scoreProcessor_ ss) result src = (r, sp)
    /\ aggregate set ss (GetNumber src) r (AddResult sp r cr)
       = Some (ss0, r2)
    /\ HealthProcessor.AddResult (hp ss0) r2 = (h, fired)
    /\ cursors set' =
       <[c := if fired then failSub (with_hp ss0 h) else with_hp ss0 h]>
         (cursors set).
Proof.
  intros Hkeyed Hlate Hs. apply SendResult_inv in Hs; [|done].
  destruct Hs as (ss & r & sp & ss0 & r2 & h & fired & set1 & evs1
                  & Hss & Hmod & Hagg & Hhp & -> & Hfail & _).
  exists ss, r, sp, ss0, r2, h, fired. repeat split; try done.
  destruct fired; [|by simplify_eq].
  pose proof (aggregate_keeps _ _ _ _ _ _ _ Hagg) as (Hpl & _).
  pose proof (Hkeyed _ _ Hss) as Hc.
  destruct (failInternal_own
              (with_cursors set (<[c := with_hp ss0 h]> (cursors set)))
              (with_hp ss0 h)) as [evs2 Hown].
  { simpl. by rewrite Hpl, Hc, lookup_insert_eq. }
  simpl in Hown. rewrite Hpl, Hc in Hown.
  rewrite Hpl in Hfail. rewrite Hown in Hfail. simplify_eq. simpl.
  by rewrite insert_insert_eq.
Qed.

Lemma tickAll_entries (J : positive -> subSet -> Prop) time order
    (m : gmap positive subSet) :
  (forall c ss (h : HP), J c ss -> J c (with_hp ss h)) ->
  (forall c ss, J c ss -> J c (failSub ss)) ->
  (forall c ss, m !! c = Some ss -> J c ss) ->
  forall c ss, tickAll time order m !! c = Some ss -> J c ss.
Proof.
  intros Hhp Hfail. revert m. unfold tickAll.
  induction order as [|c0 order IH]; intros m Hm; [done|].
  simpl. apply IH. intros c ss Hss.
  apply lookup_alter_Some in Hss as [(-> & ss0 & Hss0 & ->)|[_ Hss]];
    [|by apply Hm].
  unfold hpTick. destruct (HealthProcessor.Update (hp ss0) time) as [h fired].
  destruct fired; auto.
Qed.

Lemma call_entries ms J set k set' evs :
  entryInvariant ms J ->
  keyed set -> mapStats set = ms ->
  (forall c ss, cursors set !! c = Some ss -> J c ss) ->
  call set k = Some (set', evs) ->
  forall c ss, cursors set' !! c = Some ss -> J c ss.
Proof.
  intros (Hhp & Hfail & Hclick & Hagg) Hkeyed Hms Hall Hcall.
  destruct k as [order time|time c0 src x y result cr|w|c0 new|b|b|b];
    simpl in Hcall; try (by simplify_eq).
  - apply Update_cursors in Hcall; [|done]. rewrite Hcall.
    by apply tickAll_entries.
  - destruct ((result =? Ignore) || (result =? PositionalMiss)) eqn:Hearly.
    { apply SendResult_early in Hcall; [|done]. by subst. }
    apply SendResult_entry in Hcall; [|done|done].
    destruct Hcall as (ss & r & sp & ss0 & r2 & h & fired & Hss & _ & Haggr
                       & _ & ->).
    intros c ss' Hss'.
    apply lookup_insert_Some in Hss' as [[<- <-]|[_ Hss']]; [|by apply Hall].
    assert (J c0 ss0) as Hss0 by (eapply Hagg; eauto).
    destruct fired; auto.
  - simplify_eq. unfold editPlayer.
    destruct (cursors set !! c0) as [ss0|] eqn:Hss0; [|done].
    intros c ss' Hss'. simpl in Hss'.
    apply lookup_insert_Some in Hss' as [[<- <-]|[_ Hss']]; [|by apply Hall].
    apply Hclick. by apply Hall.
Qed.

Lemma run_entries ms J ks set set' evs :
  entryInvariant ms J ->
  keyed set -> mapStats set = ms ->
  (forall c ss, cursors set !! c = Some ss -> J c ss) ->
  run set ks = Some (set', evs) ->
  forall c ss, cursors set' !! c = Some ss -> J c ss.
Proof.
  intros Hinv Hkeyed Hms Hall Hrun.
  apply (run_preserves
           (fun s => keyed s /\ mapStats s = ms
                     /\ forall c ss, cursors s !! c = Some ss -> J c ss)
           ks set set' evs); [|done|done].
  intros s k s' e (Hk & Hm & Ha) Hcall.
  split; [by eapply call_keyed|]. split.
  - apply call_frame in Hcall as (_ & -> & _). done.
  - by eapply call_entries.
Qed.

(** *** Max combo *)

Lemma call_maxCombo set k set' evs c ss :
  call set k = Some (set', evs) ->
  cursors set !! c = Some ss ->
  exists ss',
    cursors set' !! c = Some ss'
    /\ maxCombo ss <= maxCombo ss'
    /\ (GetCombo (scoreProcessor_ ss) <= maxCombo ss ->
        GetCombo (scoreProcessor_ ss') <= maxCombo ss').
Proof.
  intros Hcall Hss.
  destruct (call_scoring _ _ _ _ c Hcall) as [Hsame|Hagg].
  - rewrite Hss in Hsame.
    destruct (cursors set' !! c) as [ss'|]; [|done].
    apply (inj Some) in Hsame.
    apply scoring_fields in Hsame as (_ & _ & Hmax & _ & _ & _ & Hsp & _).
    exists ss'. rewrite Hmax, Hsp. split; [done|]. split; [lia|done].
  - destruct Hagg as (time & src & x & y & result & cr & ss1 & r & sp & ss0
                     & r2 & _ & Hss1 & _ & Hagg & Hsc).
    rewrite Hss in Hss1. injection Hss1 as <-.
    destruct (cursors set' !! c) as [ss'|]; [|done].
    apply (inj Some) in Hsc.
    apply scoring_fields in Hsc as (_ & _ & Hmax & _ & _ & _ & Hsp & _).
    pose proof (aggregate_fields _ _ _ _ _ _ _ Hagg)
      as (_ & _ & _ & Hmc & _).
    pose proof (aggregate_keeps _ _ _ _ _ _ _ Hagg) as (_ & _ & _ & _ & Hsp0).
    exists ss'. rewrite Hmax, Hsp, Hmc, Hsp0. unfold MaxI64.
    split; [done|]. split; lia.
Qed.

(** X5: the max combo of a player never decreases, whatever calls are
    made, no call removes the player, and once the max combo is at
    least the combo of the score processor it stays so. *)
Theorem X5_maxCombo_monotone ks set set' evs c ss :
  run set ks = Some (set', evs) ->
  cursors set !! c = Some ss ->
  exists ss',
    cursors set' !! c = Some ss'
    /\ maxCombo ss <= maxCombo ss'
    /\ (GetCombo (scoreProcessor_ ss) <= maxCombo ss ->
        GetCombo (scoreProcessor_ ss') <= maxCombo ss').
Proof.
  revert set evs ss. induction ks as [|k ks IH]; intros set evs ss Hrun Hss.
  { simpl in Hrun. simplify_eq. exists ss. split; [done|]. split; [lia|done]. }
  simpl in Hrun.
  destruct (call set k) as [[set1 evs1]|] eqn:Hstep; [|done].
  simpl in Hrun.
  destruct (run set1 ks) as [[set2 evs2]|] eqn:Hrest; [|done].
  simpl in Hrun. simplify_eq.
  destruct (call_maxCombo _ _ _ _ _ _ Hstep Hss) as (ss1 & Hss1 & Hle & Hc).
  destruct (IH _ _ _ Hrest Hss1) as (ss2 & Hss2 & Hle2 & Hc2).
  exists ss2. split; [done|]. split; [lia|auto].
Qed.

(** *** The number of judged objects *)

Lemma aggregate_index set ss number r sp ss0 r2 :
  aggregate set ss number r sp = Some (ss0, r2) ->
  is_Some (index (mapStats set)
             (MaxI64 0 (wrap64 (numObjects ss0 - 1)))).
Proof.
  intros Hagg.
  pose proof (aggregate_fields _ _ _ _ _ _ _ Hagg) as (_ & Hn & _).
  rewrite Hn. unfold aggregate in Hagg.
  destruct (index (mapStats set) _) as [m|] eqn:Hidx; [|done].
  by eexists.
Qed.

Lemma index_is_Some {A} (l : list A) i :
  is_Some (index l i) <-> 0 <= i < Z.of_nat (length l).
Proof.
  unfold index. destruct (Z.ltb_spec i 0).
  { split; [by intros [? ?]|lia]. }
  rewrite lookup_lt_is_Some. lia.
Qed.

Lemma counted_entryInvariant (ms : list MapTo.t) :
  Z.of_nat (length ms) < 2 ^ 63 - 1 ->
  entryInvariant ms
    (fun _ ss => 0 <= numObjects ss <= Z.of_nat (length ms)).
Proof.
  intros Hlen. split; [done|]. split.
  { intros c ss. unfold failSub. destruct (CheckModActive _ _); [done|].
    by destruct (0 <? recoveries ss). }
  split; [done|].
  intros set c ss number r sp ss0 r2 Hms Hagg Hn.
  pose proof (aggregate_index _ _ _ _ _ _ _ Hagg) as Hidx.
  pose proof (aggregate_fields _ _ _ _ _ _ _ Hagg) as (_ & Hn0 & _).
  rewrite Hms in Hidx. apply index_is_Some in Hidx.
  destruct (isCounted r); [|by rewrite Hn0].
  rewrite wrap64_id in Hn0 by (unfold in_int64; lia).
  rewrite Hn0 in Hidx |- *.
  rewrite wrap64_id in Hidx by (unfold in_int64; lia).
  unfold MaxI64 in Hidx. lia.
Qed.

Lemma run_counted lazer bm cs mods set0 ks set evs c ss :
  NewOsuRuleset lazer bm cs mods = Some set0 ->
  run set0 ks = Some (set, evs) ->
  Z.of_nat (length (HitObjects bm)) < 2 ^ 63 - 1 ->
  cursors set !! c = Some ss ->
  0 <= numObjects ss <= Z.of_nat (length (HitObjects bm)).
Proof.
  intros Hnew Hrun Hlen Hss.
  pose proof (NewOsuRuleset_mapStats _ _ _ _ _ Hnew) as [Hbm Hms].
  assert (length (mapStats set0) = length (HitObjects bm)) as Hlen0.
  { by rewrite Hms, buildMapStats_length, Hbm. }
  rewrite <- Hlen0 in *.
  apply (run_entries (mapStats set0) _ ks set0 set evs
           (counted_entryInvariant _ Hlen)
           (NewOsuRuleset_keyed _ _ _ _ _ Hnew) eq_refl) with (c := c);
    [|done|done].
  intros c' ss' Hss'.
  destruct (NewOsuRuleset_entries _ _ _ _ _ _ _ Hnew Hss')
    as (d & h & sc & ->). simpl. lia.
Qed.

(** X6: in every state reached from [NewOsuRuleset] a player's number
    of judged objects lies between zero and the number of objects of the
    beatmap. *)
Theorem X6_numObjects_bounded lazer bm cs mods set0 ks set evs c ss :
  NewOsuRuleset lazer bm cs mods = Some set0 ->
  run set0 ks = Some (set, evs) ->
  Z.of_nat (length (HitObjects bm)) < 2 ^ 63 - 1 ->
  cursors set !! c = Some ss ->
  0 <= numObjects ss <= Z.of_nat (length (HitObjects bm)).
Proof. apply run_counted. Qed.

(** X7: a counted judgement for a player whose number of judged objects
    has reached the number of objects of the beatmap panics (index out
    of range in the prefix table, line 497): on an empty beatmap that is
    every counted judgement. *)
Theorem X7_SendResult_overrun lazer bm cs mods set0 ks set evs
    time c src x y result cr ss r sp :
  NewOsuRuleset lazer bm cs mods = Some set0 ->
  run set0 ks = Some (set, evs) ->
  Z.of_nat (length (HitObjects bm)) < 2 ^ 63 - 1 ->
  cursors set !! c = Some ss ->
  (result =? Ignore) || (result =? PositionalMiss) = false ->
  ModifyResult (scoreProcessor_ ss) result src = (r, sp) ->
  isCounted r = true ->
  numObjects ss = Z.of_nat (length (HitObjects bm)) ->
  SendResult set time c src x y result cr = None.
Proof.
  intros Hnew Hrun Hlen Hss Hlate Hmod Hcounted Hn.
  pose proof (run_mapStats _ _ _ _ _ _ _ _ Hnew Hrun) as Hms.
  pose proof (NewOsuRuleset_mapStats _ _ _ _ _ Hnew) as [Hbm _].
  pose proof (run_frame _ _ _ _ Hrun) as (Hbm' & _).
  rewrite Hbm', Hbm in Hms.
  destruct (SendResult set time c src x y result cr) as [[set' evs']|] eqn:Hs;
    [|done].
  apply SendResult_inv in Hs; [|done].
  destruct Hs as (ss1 & r1 & sp1 & ss0 & r2 & h & fired & set1 & evs1
                  & Hss1 & Hmod1 & Hagg & _).
  rewrite Hss in Hss1. injection Hss1 as <-.
  rewrite Hmod in Hmod1. injection Hmod1 as <- <-.
  pose proof (aggregate_index _ _ _ _ _ _ _ Hagg) as Hidx.
  pose proof (aggregate_fields _ _ _ _ _ _ _ Hagg) as (_ & Hn0 & _).
  rewrite Hcounted in Hn0.
  rewrite wrap64_id in Hn0 by (unfold in_int64; lia).
  rewrite Hn0 in Hidx.
  rewrite wrap64_id in Hidx by (unfold in_int64; lia).
  apply index_is_Some in Hidx.
  rewrite Hms, buildMapStats_length in Hidx. unfold MaxI64 in Hidx. lia.
Qed.

(** X8: in a state reached from [NewOsuRuleset], [IsPerfect] panics for
    a player without a counted judgement (index -1, line 669) and
    returns for every player with one. *)
Theorem X8_IsPerfect_defined lazer bm cs mods set0 ks set evs c ss :
  NewOsuRuleset lazer bm cs mods = Some set0 ->
  run set0 ks = Some (set, evs) ->
  Z.of_nat (length (HitObjects bm)) < 2 ^ 63 - 1 ->
  cursors set !! c = Some ss ->
  (numObjects ss = 0 -> IsPerfect set c = None)
  /\ (numObjects ss ≠ 0 -> is_Some (IsPerfect set c)).
Proof.
  intros Hnew Hrun Hlen Hss.
  pose proof (run_counted _ _ _ _ _ _ _ _ _ _ Hnew Hrun Hlen Hss) as Hn.
  pose proof (run_mapStats _ _ _ _ _ _ _ _ Hnew Hrun) as Hms.
  pose proof (NewOsuRuleset_mapStats _ _ _ _ _ Hnew) as [Hbm _].
  pose proof (run_frame _ _ _ _ Hrun) as (Hbm' & _).
  rewrite Hbm', Hbm in Hms.
  unfold IsPerfect. rewrite Hss. simpl. split.
  - intros ->. done.
  - intros Hne.
    destruct (index (mapStats set) (wrap64 (numObjects ss - 1)))
      as [m|] eqn:Hidx; [by eexists|].
    assert (is_Some (index (mapStats set) (wrap64 (numObjects ss - 1))))
      as [? Hsome]; [|congruence].
    apply index_is_Some.
    rewrite wrap64_id by (unfold in_int64; lia).
    rewrite Hms, buildMapStats_length. lia.
Qed.

(** *** Fails *)

Lemma failEvents_app c evs1 evs2 :
  failEvents c (evs1 ++ evs2) = (failEvents c evs1 + failEvents c evs2)%nat.
Proof. unfold failEvents. by rewrite List.filter_app, length_app. Qed.

Lemma failEvents_absent c evs : FailEvent c ∉ evs -> failEvents c evs = 0%nat.
Proof.
  unfold failEvents. induction evs as [|e evs IH]; [done|].
  intros Hnot. apply not_elem_of_cons in Hnot as [Hne Hnot].
  simpl. destruct e as [| |c']; simpl; auto.
  rewrite bool_decide_eq_false_2; [auto|]. by intros ->.
Qed.

Lemma failInternal_once set pl set' evs c :
  failInternal set pl = Some (set', evs) ->
  (failEvents c evs <= 1)%nat
  /\ (failEvents c evs = 1%nat -> hasFailed set' c).
Proof.
  unfold failInternal. intros Hf.
  destruct (CheckModActive _ _).
  { simplify_eq. split; [by cbn; lia|done]. }
  destruct (cursors set !! cursor pl) as [ss|]; [|done]. simpl in Hf.
  destruct (0 <? recoveries ss); simplify_eq.
  { split; [by cbn; lia|done]. }
  destruct (failListener set && negb (failed ss)).
  2: { split; [by cbn; lia|done]. }
  unfold failEvents. simpl. case_bool_decide as Hc; simpl; [|split; [lia|done]].
  split; [lia|]. intros _. subst c.
  exists (with_failed ss true). simpl. by rewrite lookup_insert_eq.
Qed.

(** What a step does to the fail of [c]: at most one call of the
    listener, which leaves the player failed; none for a player that has
    failed, who stays failed. *)
Lemma failsOnce_seq c set0 set1 set2 evs1 evs2 :
  ((failEvents c evs1 <= 1)%nat
   /\ (failEvents c evs1 = 1%nat -> hasFailed set1 c)) ->
  ((failEvents c evs2 <= 1)%nat
   /\ (failEvents c evs2 = 1%nat -> hasFailed set2 c)) ->
  (hasFailed set1 c -> hasFailed set2 c /\ FailEvent c ∉ evs2) ->
  (failEvents c (evs1 ++ evs2) <= 1)%nat
  /\ (failEvents c (evs1 ++ evs2) = 1%nat -> hasFailed set2 c).
Proof.
  intros [Hle1 Hone1] [Hle2 Hone2] Hkeep. rewrite failEvents_app.
  destruct (decide (failEvents c evs1 = 1%nat)) as [Heq|Hne].
  - destruct (Hkeep (Hone1 Heq)) as [Hfailed Hnot].
    rewrite (failEvents_absent _ _ Hnot). split; [lia|done].
  - assert (failEvents c evs1 = 0%nat) as -> by lia. simpl. done.
Qed.

Lemma updateHp_once time set c0 set' evs c :
  updateHp time set c0 = Some (set', evs) ->
  (failEvents c evs <= 1)%nat
  /\ (failEvents c evs = 1%nat -> hasFailed set' c).
Proof.
  unfold updateHp. intros Hu.
  destruct (cursors set !! c0) as [ss|].
  2: { simplify_eq. split; [by cbn; lia|done]. }
  destruct (HealthProcessor.Update (hp ss) time) as [h fired].
  destruct fired; [by eapply failInternal_once|].
  simplify_eq. split; [by cbn; lia|done].
Qed.

Lemma updateHpAll_once time order set set' evs c :
  updateHpAll time order set = Some (set', evs) ->
  (failEvents c evs <= 1)%nat
  /\ (failEvents c evs = 1%nat -> hasFailed set' c).
Proof.
  revert set evs. induction order as [|c0 order IH]; intros set evs Hu.
  { simpl in Hu. simplify_eq. split; [by cbn; lia|done]. }
  simpl in Hu.
  destruct (updateHp time set c0) as [[set1 evs1]|] eqn:Hstep; [|done].
  simpl in Hu.
  destruct (updateHpAll time order set1) as [[set2 evs2]|] eqn:Hrest; [|done].
  simpl in Hu. simplify_eq.
  apply (failsOnce_seq c set set1 set').
  - by eapply updateHp_once.
  - by eapply IH.
  - intros Hfailed. by eapply updateHpAll_keeps_failed.
Qed.

Lemma call_once set k set' evs c :
  call set k = Some (set', evs) ->
  (failEvents c evs <= 1)%nat
  /\ (failEvents c evs = 1%nat -> hasFailed set' c).
Proof.
  destruct k as [order time|time c0 src x y result cr|w|c0 new|b|b|b];
    simpl; intros Hcall;
    try (simplify_eq; split; [by cbn; lia|done]).
  - apply Update_inv in Hcall
      as (keep & w & evs0 & moved & rest & evs1 & set1 & set2 & Hret & _
          & (_ & _ & Hall & Hcs) & _ & _ & _ & -> & _).
    rewrite failEvents_app.
    assert (failEvents c evs0 = 0%nat) as ->.
    { apply failEvents_absent. apply retire_events in Hret.
      intros Hin. rewrite Forall_forall in Hret.
      by destruct (Hret _ Hin) as [n Hn]. }
    simpl.
    destruct (updateHpAll_once _ _ _ _ _ c Hall) as [Hle Hone].
    split; [done|]. intros Heq.
    eapply hasFailed_cursors; [exact Hcs|auto].
  - destruct ((result =? Ignore) || (result =? PositionalMiss)) eqn:Hearly.
    { unfold SendResult in Hcall. rewrite Hearly in Hcall.
      destruct ((result =? PositionalMiss) && hitListener set);
        [|simplify_eq; split; [by cbn; lia|done]].
      destruct (cursors set !! c0) as [ss|]; [|done]. simpl in Hcall.
      destruct (negb _); simplify_eq; split; by cbn; lia || done. }
    apply SendResult_inv in Hcall; [|done].
    destruct Hcall as (ss & r & sp & ss0 & r2 & h & fired & set1 & evs1
                       & _ & _ & _ & _ & -> & Hfail & ->).
    rewrite failEvents_app.
    assert (forall l : list Event,
              l = (if hitListener set
                   then [HitEvent c0 time (GetNumber src) (x, y) r2 cr
                           (performance.Results (ppv2 ss0))
                           (GetScore (scoreProcessor_ ss0))]
                   else []) -> failEvents c l = 0%nat) as Hhit.
    { intros l ->. by destruct (hitListener set). }
    rewrite (Hhit _ eq_refl), Nat.add_0_r.
    destruct fired; [by eapply failInternal_once|].
    simplify_eq. split; [by cbn; lia|done].
Qed.

Lemma run_once ks set set' evs c :
  run set ks = Some (set', evs) ->
  (failEvents c evs <= 1)%nat
  /\ (failEvents c evs = 1%nat -> hasFailed set' c).
Proof.
  revert set evs. induction ks as [|k ks IH]; intros set evs Hrun.
  { simpl in Hrun. simplify_eq. split; [by cbn; lia|done]. }
  simpl in Hrun.
  destruct (call set k) as [[set1 evs1]|] eqn:Hstep; [|done].
  simpl in Hrun.
  destruct (run set1 ks) as [[set2 evs2]|] eqn:Hrest; [|done].
  simpl in Hrun. simplify_eq.
  apply (failsOnce_seq c set set1 set').
  - by eapply call_once.
  - by eapply IH.
  - intros Hfailed. by eapply run_keeps_failed.
Qed.

(** X9: over a whole run, from any state, the fail listener is called
    at most once for a cursor, and the player it is called for has
    failed at the end of the run. *)
Theorem X9_fail_listener_once ks set set' evs c :
  run set ks = Some (set', evs) ->
  (failEvents c evs <= 1)%nat
  /\ (failEvents c evs = 1%nat -> hasFailed set' c).
Proof. apply run_once. Qed.

Lemma budget_entryInvariant (ms : list MapTo.t) :
  (forall d, 0 <= initialRecoveries d < 2 ^ 63) ->
  entryInvariant ms (fun _ ss => budget ss).
Proof.
  intros Hinit. unfold budget. split; [done|]. split.
  { intros c ss [Hrange Hfailed]. unfold failSub.
    destruct (CheckModActive _ _); [done|].
    destruct (Z.ltb_spec 0 (recoveries ss)); simpl.
    - specialize (Hinit (diff (player ss))).
      rewrite wrap64_id by (unfold in_int64; lia).
      split; [lia|]. intros Hf. specialize (Hfailed Hf). lia.
    - split; [done|]. intros _. lia. }
  split; [done|].
  intros set c ss number r sp ss0 r2 _ Hagg.
  apply aggregate_keeps in Hagg as (-> & -> & -> & _). done.
Qed.

Lemma initialRecoveries_range d : 0 <= initialRecoveries d < 2 ^ 63.
Proof. unfold initialRecoveries. destruct (CheckModActive d Easy); lia. Qed.

(** X10: the recoveries of a player.  In every state reached from
    [NewOsuRuleset] they lie between zero and the two that Easy gives
    (zero without Easy), and a player that has failed has none left:
    the fail handler only fails a player whose recoveries are used
    up. *)
Theorem X10_recoveries_budget lazer bm cs mods set0 ks set evs c ss :
  NewOsuRuleset lazer bm cs mods = Some set0 ->
  run set0 ks = Some (set, evs) ->
  cursors set !! c = Some ss ->
  0 <= recoveries ss
  /\ recoveries ss <= (if CheckModActive (diff (player ss)) Easy
                       then 2 else 0)
  /\ (failed ss = true -> recoveries ss = 0).
Proof.
  intros Hnew Hrun Hss.
  assert (budget ss) as [[Hlow Hhigh] Hfailed]; [|done].
  apply (run_entries (mapStats set0) (fun _ ss => budget ss) ks set0 set evs
           (budget_entryInvariant _ initialRecoveries_range)
           (NewOsuRuleset_keyed _ _ _ _ _ Hnew) eq_refl) with (c := c);
    [|done|done].
  intros c' ss' Hss'.
  destruct (NewOsuRuleset_entries _ _ _ _ _ _ _ Hnew Hss')
    as (d & h & sc & ->).
  unfold budget. simpl. pose proof (initialRecoveries_range d). split; [lia|done].
Qed.

Lemma immune_entryInvariant (ms : list MapTo.t) :
  entryInvariant ms
    (fun _ ss =>
       immune (diff (player ss)) = true ->
       failed ss = false
       /\ recoveries ss = initialRecoveries (diff (player ss))).
Proof.
  split; [done|]. split.
  { intros c ss Hss. unfold failSub, immune in *.
    destruct (CheckModActive _ _) eqn:Him; [by intros _; apply Hss|].
    destruct (0 <? recoveries ss); simpl; by rewrite Him. }
  split; [done|].
  intros set c ss number r sp ss0 r2 _ Hagg.
  apply aggregate_keeps in Hagg as (-> & -> & -> & _). done.
Qed.

(** X11: a player with NoFail, Relax or Relax2 never fails.  In every
    state reached from [NewOsuRuleset] such a player has not failed and
    has the recoveries it started with, and the fail listener has not
    been called for it. *)
Theorem X11_immune_never_fails lazer bm cs mods set0 ks set evs c ss :
  NewOsuRuleset lazer bm cs mods = Some set0 ->
  run set0 ks = Some (set, evs) ->
  cursors set !! c = Some ss ->
  immune (diff (player ss)) = true ->
  failed ss = false
  /\ recoveries ss = initialRecoveries (diff (player ss))
  /\ failEvents c evs = 0%nat.
Proof.
  intros Hnew Hrun Hss Himmune.
  assert (failed ss = false
          /\ recoveries ss = initialRecoveries (diff (player ss)))
    as [Hfailed Hrec].
  { revert Himmune.
    apply (run_entries (mapStats set0) _ ks set0 set evs
             (immune_entryInvariant _)
             (NewOsuRuleset_keyed _ _ _ _ _ Hnew) eq_refl) with (c := c);
      [|done|done].
    intros c' ss' Hss'.
    destruct (NewOsuRuleset_entries _ _ _ _ _ _ _ Hnew Hss')
      as (d & h & sc & ->). done. }
  split; [done|]. split; [done|].
  destruct (run_once _ _ _ _ c Hrun) as [Hle Hone].
  destruct (decide (failEvents c evs = 1%nat)) as [Heq|Hne]; [|lia].
  destruct (Hone Heq) as (ss' & Hss' & Hf). congruence.
Qed.

(** *** The answer [Ignored] *)

Lemma findObject_found object l i found :
  findObject object l i found = found
  \/ exists k, l !! k = Some object
               /\ findObject object l i found = i + Z.of_nat k.
Proof.
  revert i found. induction l as [|g l IH]; intros i found; [by left|].
  simpl. destruct (IH (i + 1) (if decide (g = object) then i else found))
    as [Heq|(k & Hk & Heq)].
  - rewrite Heq. destruct (decide (g = object)) as [->|]; [|by left].
    right. exists 0%nat. split; [done|]. simpl. lia.
  - right. exists (S k). split; [done|]. rewrite Heq. lia.
Qed.

Lemma index_nat {A} (l : list A) (n : nat) : index l (Z.of_nat n) = l !! n.
Proof.
  unfold index. destruct (Z.ltb_spec (Z.of_nat n) 0); [lia|].
  by rewrite Nat2Z.id.
Qed.

(** X12: [CanBeHit] answers [Ignored] only for a circle that is active
    behind a target of a stacked object that the player has not hit:
    never for a slider or a spinner, and never for the first active
    target. *)
Theorem X12_Ignored_only_stacked set time object pl :
  CanBeHit set time object pl = Some Ignored ->
  isCircle object = true
  /\ exists i prev o,
       processed set !! S i = Some object
       /\ processed set !! i = Some prev
       /\ index (HitObjects (beatMap set)) (GetNumber prev) = Some o
       /\ 0 < GetStackIndex o (Mods (diff pl))
       /\ IsHit (targets set) prev pl = false.
Proof.
  unfold CanBeHit. intros Hcan.
  destruct (stackGuard set object pl) as [stacked|] eqn:Hguard; [|done].
  simpl in Hcan. destruct stacked.
  2: { destruct (skippedScan _ _ _ _) as [skipped|]; [|done].
       simpl in Hcan. destruct skipped; [done|].
       destruct (index _ _) as [o|]; [|done]. simpl in Hcan.
       by destruct (outOfWindow _ _ _). }
  clear Hcan. unfold stackGuard in Hguard.
  destruct (isCircle object); [|done]. split; [done|].
  destruct (Z.ltb_spec 0 (findObject object (processed set) 0 (-1)))
    as [Hpos|]; [|done].
  destruct (findObject_found object (processed set) 0 (-1))
    as [Heq|(k & Hk & Heq)]; [lia|].
  rewrite Heq in Hguard, Hpos.
  destruct k as [|i]; [simpl in Hpos; lia|].
  replace (0 + Z.of_nat (S i) - 1) with (Z.of_nat i) in Hguard by lia.
  rewrite index_nat in Hguard.
  destruct (processed set !! i) as [prev|] eqn:Hprev; [|done].
  simpl in Hguard.
  destruct (index (HitObjects (beatMap set)) (GetNumber prev))
    as [o|] eqn:Ho; [|done].
  simpl in Hguard. injection Hguard as Hguard.
  apply andb_true_iff in Hguard as [Hstack Hhit].
  apply Z.ltb_lt in Hstack. apply negb_true_iff in Hhit.
  by exists i, prev, o.
Qed.

(** *** The constructor *)

Lemma initCursors_keys bm lazer cs mods i opp subs players
    opp' subs' players' c :
  initCursors bm lazer cs mods i opp subs players
    = Some (opp', subs', players') ->
  is_Some (subs' !! c) <-> is_Some (subs !! c) \/ c ∈ cs.*1.
Proof.
  revert i opp subs players.
  induction cs as [|[c0 cur] cs IH]; intros i opp subs players Hinit.
  - simpl in Hinit. simplify_eq. simpl. split; [by left|].
    intros [?|Hin]; [done|]. by apply elem_of_nil in Hin.
  - simpl in Hinit.
    destruct (mods !! i) as [m|]; [|done]. simpl in Hinit.
    match type of Hinit with
    | context [mbind _ ?o] => destruct o as [opp1|]
    end; [|done].
    simpl in Hinit. rewrite (IH _ _ _ _ Hinit).
    rewrite lookup_insert_is_Some, fmap_cons, elem_of_cons. simpl.
    destruct (decide (c0 = c)) as [->|Hne]; intuition congruence.
Qed.

(** X13: [NewOsuRuleset] registers exactly the cursors it is given.  A
    fresh rule set reports accuracy 100, max combo 0, no grade and empty
    hit counts for each of them; for any other cursor the queries
    panic. *)
Theorem X13_NewOsuRuleset_players lazer bm cs mods set0 c :
  NewOsuRuleset lazer bm cs mods = Some set0 ->
  (c ∈ cs.*1 ->
   exists score,
     GetResults set0 c = Some (Fnum 100, 0, score, Grade.NONE)
     /\ GetHits set0 c = Some (0, 0, 0, 0, 0, 0))
  /\ (c ∉ cs.*1 -> GetResults set0 c = None /\ GetHits set0 c = None).
Proof.
  intros Hnew.
  assert (is_Some (cursors set0 !! c) <-> c ∈ cs.*1) as Hkeys.
  { unfold NewOsuRuleset in Hnew.
    destruct (initCursors _ _ _ _ _ _ _ _) as [[[opp subs] players]|] eqn:Hi;
      [|done].
    simpl in Hnew. simplify_eq. simpl.
    rewrite (initCursors_keys _ _ _ _ _ _ _ _ _ _ _ c Hi).
    rewrite lookup_empty. split; [|by right].
    intros [[? ?]|?]; done. }
  unfold GetResults, GetHits. split.
  - intros Hin. apply Hkeys in Hin as [ss Hss].
    destruct (NewOsuRuleset_entries _ _ _ _ _ _ _ Hnew Hss)
      as (d & h & sc & ->).
    rewrite Hss. simpl. by eexists.
  - intros Hnot. destruct (cursors set0 !! c) as [ss|] eqn:Hss; [|done].
    destruct Hnot. apply Hkeys. by eexists.
Qed.

Lemma initCursors_short bm lazer cs mods i opp subs players :
  (i <= length mods < i + length cs)%nat ->
  initCursors bm lazer cs mods i opp subs players = None.
Proof.
  revert i opp subs players.
  induction cs as [|[c cur] cs IH]; intros i opp subs players Hlen.
  { simpl in Hlen. lia. }
  simpl. destruct (mods !! i) as [m|] eqn:Hm; [|done]. simpl.
  match goal with
  | |- context [mbind _ ?o] => destruct o as [opp1|]
  end; [|done].
  simpl. apply IH. apply lookup_lt_Some in Hm. simpl in Hlen. lia.
Qed.

(** X14: [NewOsuRuleset] panics when it is given fewer modifiers than
    cursors ([mods[i]] out of range, line 199). *)
Theorem X14_NewOsuRuleset_short_mods lazer bm cs mods :
  (length mods < length cs)%nat ->
  NewOsuRuleset lazer bm cs mods = None.
Proof.
  intros Hlen. unfold NewOsuRuleset.
  rewrite initCursors_short; [done|lia].
Qed.

(** X15: an empty beatmap cannot be played.  With at least one cursor,
    [NewOsuRuleset] panics on a beatmap without objects when the star
    rating has one entry per object: the last entry of the empty table
    is read for the log (line 208), unless the modifiers have run out
    before (line 199). *)
Theorem X15_NewOsuRuleset_empty_beatmap lazer bm cs mods :
  HitObjects bm = [] -> cs ≠ [] ->
  (forall d, length (performance.CalculateStep (HitObjects bm) d lazer)
             = length (HitObjects bm)) ->
  NewOsuRuleset lazer bm cs mods = None.
Proof.
  intros Hobjs Hcs Hlen. destruct cs as [|[c cur] cs]; [done|].
  unfold NewOsuRuleset. simpl. destruct mods as [|m mods]; [done|].
  simpl. rewrite lookup_empty.
  specialize (Hlen {| Mods := Z.lor m (Z.land (Mods (Diff bm)) ScoreV2) |}).
  destruct (performance.CalculateStep _ _ _) as [|star tbl]; [done|].
  rewrite Hobjs in Hlen. done.
Qed.

Lemma initCursors_returns bm lazer cs mods i opp subs players :
  (i + length cs <= length mods)%nat ->
  (forall d, performance.CalculateStep (HitObjects bm) d lazer ≠ []) ->
  is_Some (initCursors bm lazer cs mods i opp subs players).
Proof.
  intros Hlen Htbl. revert i opp subs players Hlen.
  induction cs as [|[c cur] cs IH]; intros i opp subs players Hlen.
  { by eexists. }
  simpl in Hlen |- *.
  destruct (lookup_lt_is_Some_2 mods i) as [m ->]; [lia|]. simpl.
  match goal with
  | |- context [opp !! ?k] => destruct (opp !! k) as [tbl|]
  end; simpl.
  { apply IH. lia. }
  match goal with
  | |- context [index ?t _] =>
      destruct (index_is_Some t (Z.of_nat (length t) - 1)) as [_ Hidx];
      destruct Hidx as [x ->]
  end.
  { specialize (Htbl {| Mods := Z.lor m (Z.land (Mods (Diff bm)) ScoreV2) |}).
    destruct (performance.CalculateStep _ _ _); [done|]. simpl. lia. }
  simpl. apply IH. lia.
Qed.

(** X16: [NewOsuRuleset] returns whenever it is given at least as many
    modifiers as cursors and the star rating of the map is never
    empty. *)
Theorem X16_NewOsuRuleset_returns lazer bm cs mods :
  (length cs <= length mods)%nat ->
  (forall d, performance.CalculateStep (HitObjects bm) d lazer ≠ []) ->
  is_Some (NewOsuRuleset lazer bm cs mods).
Proof.
  intros Hlen Htbl. unfold NewOsuRuleset.
  destruct (initCursors_returns bm lazer cs mods 0 ∅ ∅ [] Hlen Htbl)
    as [[[opp subs] players] ->].
  by eexists.
Qed.

(** What [NewOsuRuleset] returns. *)
Lemma NewOsuRuleset_inv lazer bm cs mods set0 :
  NewOsuRuleset lazer bm cs mods = Some set0 ->
  exists opp subs players,
    initCursors bm lazer cs mods 0 ∅ ∅ [] = Some (opp, subs, players)
    /\ cursors set0 = subs /\ oppDiffs set0 = opp
    /\ queue set0 = initQueue bm (HitObjects bm) 0
    /\ processed set0 = [] /\ ended set0 = false /\ beatMap set0 = bm
    /\ hitListener set0 = false /\ endListener set0 = false
    /\ failListener set0 = false.
Proof.
  unfold NewOsuRuleset. intros Hnew.
  destruct (initCursors _ _ _ _ _ _ _ _) as [[[opp subs] players]|];
    [|done].
  simpl in Hnew. simplify_eq. by exists opp, subs, players.
Qed.

(** *** Judgements that return *)

Lemma initCursors_tables bm lazer cs mods i opp subs players
    opp' subs' players' :
  Z.land ScoreV2 DifficultyAdjustMask = 0 ->
  (forall d, length (performance.CalculateStep (HitObjects bm) d lazer)
             = length (HitObjects bm)) ->
  initCursors bm lazer cs mods i opp subs players
    = Some (opp', subs', players') ->
  (forall key tbl, opp !! key = Some tbl ->
                   length tbl = length (HitObjects bm)) ->
  (forall c ss, subs !! c = Some ss ->
                hasTable opp (length (HitObjects bm)) ss) ->
  (forall key tbl, opp !! key = Some tbl -> opp' !! key = Some tbl)
  /\ (forall key tbl, opp' !! key = Some tbl ->
                      length tbl = length (HitObjects bm))
  /\ (forall c ss, subs' !! c = Some ss ->
                   hasTable opp' (length (HitObjects bm)) ss).
Proof.
  intros Hmask Hlen. revert i opp subs players.
  induction cs as [|[c0 cur] cs IH];
    intros i opp subs players Hinit Hopp Hsubs.
  { simpl in Hinit. by simplify_eq. }
  simpl in Hinit.
  destruct (mods !! i) as [m|]; [|done]. simpl in Hinit.
  match type of Hinit with
  | context [mbind _ ?o] => destruct o as [opp1|] eqn:Hopp1
  end; [|done].
  simpl in Hinit.
  assert ((forall key tbl, opp !! key = Some tbl -> opp1 !! key = Some tbl)
          /\ (forall key tbl, opp1 !! key = Some tbl ->
                              length tbl = length (HitObjects bm))
          /\ is_Some (opp1 !! Z.land m DifficultyAdjustMask))
    as (Hmono & Hlen1 & Hkey).
  { destruct (opp !! Z.land m DifficultyAdjustMask) as [tbl0|] eqn:Hk.
    { simplify_eq. split; [done|]. split; [done|]. by eexists. }
    match type of Hopp1 with
    | context [index ?t _] => destruct (index t (Z.of_nat (length t) - 1))
    end; [|done].
    simpl in Hopp1. simplify_eq. split; [|split].
    - intros key tbl Hk'. rewrite lookup_insert_ne; [done|].
      intros <-. congruence.
    - intros key tbl Hk'.
      apply lookup_insert_Some in Hk' as [[_ <-]|[_ Hk']]; [apply Hlen|].
      by eapply Hopp.
    - rewrite lookup_insert_eq. by eexists. }
  destruct (IH _ _ _ _ Hinit Hlen1) as (Hmono' & Hlen' & Hsubs').
  { intros c ss Hss.
    apply lookup_insert_Some in Hss as [[_ <-]|[_ Hss]].
    - destruct Hkey as [tbl Htbl]. exists tbl. simpl.
      rewrite Z.land_lor_distr_l, <- Z.land_assoc, Hmask, Z.land_0_r,
        Z.lor_0_r.
      split; [done|]. by eapply Hlen1.
    - destruct (Hsubs _ _ Hss) as (tbl & Htbl & Hl).
      exists tbl. split; [by apply Hmono|done]. }
  split; [|done]. intros key tbl Hk. by apply Hmono', Hmono.
Qed.

Lemma hasTable_entryInvariant (ms : list MapTo.t)
    (opp : gmap Z (list Stars)) (n : nat) :
  entryInvariant ms (fun _ ss => hasTable opp n ss).
Proof.
  unfold hasTable. split; [done|]. split.
  { intros c ss. by rewrite player_failSub. }
  split; [done|].
  intros set c ss number r sp ss0 r2 _ Hagg.
  apply aggregate_keeps in Hagg as (-> & _). done.
Qed.

Lemma closesCombo_returns set r number :
  -1 <= number -> is_Some (closesCombo set r number).
Proof.
  intros Hnum. unfold closesCombo.
  destruct (isCounted r); [|by eexists].
  destruct (Z.eqb_spec number
              (Z.of_nat (length (HitObjects (beatMap set))) - 1));
    [by eexists|].
  destruct (Z.ltb_spec number
              (Z.of_nat (length (HitObjects (beatMap set))) - 1));
    [|by eexists].
  destruct (index_is_Some (HitObjects (beatMap set)) (number + 1))
    as [_ Hidx].
  destruct Hidx as [o ->]; [lia|]. by eexists.
Qed.

Lemma allClicked_returns set pl number :
  Forall (fun g => is_Some (index (HitObjects (beatMap set)) (GetNumber g)))
         (processed set) ->
  is_Some (allClicked set pl number).
Proof.
  intros Hall. unfold allClicked. rewrite allClickedScan_run; [by eexists|].
  apply Forall_rev. by apply Forall_take.
Qed.

Lemma aggregate_returns set ss number r sp :
  let n := if isCounted r then wrap64 (numObjects ss + 1)
           else numObjects ss in
  let idx := MaxI64 0 (wrap64 (n - 1)) in
  is_Some (index (mapStats set) idx) ->
  (exists tbl,
     oppDiffs set !! Z.land (Mods (diff (player ss))) DifficultyAdjustMask
       = Some tbl
     /\ is_Some (index tbl idx)) ->
  -1 <= number ->
  Forall (fun g => is_Some (index (HitObjects (beatMap set)) (GetNumber g)))
         (processed set) ->
  is_Some (aggregate set ss number r sp).
Proof.
  intros n idx [mapTo HmapTo] (tbl & Htbl & [stars Hstars]) Hnum Hall.
  unfold aggregate. fold n. fold idx.
  rewrite HmapTo. simpl. rewrite Htbl. simpl. rewrite Hstars. simpl.
  destruct (closesCombo_returns set r number Hnum) as [closes ->]. simpl.
  destruct closes; [|by eexists].
  destruct (allClicked_returns set (player ss) number Hall) as [clicked ->].
  simpl. destruct (classify _ _ _ _ _ _) as [[r' g'] k']. by eexists.
Qed.

(** X17: judgements that cannot panic.  In a state reached from
    [NewOsuRuleset], for a cursor of the rule set that has fewer judged
    objects than the beatmap has objects, [SendResult] returns for every
    outcome and every source with a non-negative ordinal, provided the
    star rating has one entry per object and ScoreV2 is not among the
    modifiers of [DifficultyAdjustMask] (so that the key read at line
    498 is the key written at line 206). *)
Theorem X17_SendResult_returns lazer bm cs mods set0 ks set evs
    time c src x y result cr ss :
  NewOsuRuleset lazer bm cs mods = Some set0 ->
  run set0 ks = Some (set, evs) ->
  Z.land ScoreV2 DifficultyAdjustMask = 0 ->
  (forall d, length (performance.CalculateStep (HitObjects bm) d lazer)
             = length (HitObjects bm)) ->
  Z.of_nat (length (HitObjects bm)) < 2 ^ 63 - 1 ->
  cursors set !! c = Some ss ->
  numObjects ss < Z.of_nat (length (HitObjects bm)) ->
  0 <= GetNumber src ->
  is_Some (SendResult set time c src x y result cr).
Proof.
  intros Hnew Hrun Hmask Htbl Hlen Hss Hn Hsrc.
  pose proof (NewOsuRuleset_keyed _ _ _ _ _ Hnew) as Hkeyed0.
  pose proof (run_keyed _ _ _ _ Hkeyed0 Hrun) as Hkeyed.
  pose proof (run_counted _ _ _ _ _ _ _ _ _ _ Hnew Hrun Hlen Hss) as Hn0.
  pose proof (run_mapStats _ _ _ _ _ _ _ _ Hnew Hrun) as Hms.
  pose proof (NewOsuRuleset_mapStats _ _ _ _ _ Hnew) as [Hbm _].
  pose proof (run_frame _ _ _ _ Hrun) as (Hbm' & _ & Hopp' & _).
  rewrite Hbm', Hbm in Hms.
  assert (hasTable (oppDiffs set0) (length (HitObjects bm)) ss) as Htable.
  { apply (run_entries (mapStats set0) _ ks set0 set evs
             (hasTable_entryInvariant _ (oppDiffs set0) _) Hkeyed0 eq_refl)
      with (c := c); [|done|done].
    destruct (NewOsuRuleset_inv _ _ _ _ _ Hnew)
      as (opp & subs & players & Hi & -> & -> & _).
    destruct (initCursors_tables _ _ _ _ _ _ _ _ _ _ _ Hmask Htbl Hi)
      as (_ & _ & Hsubs); [by intros ? ?; rewrite lookup_empty..|].
    exact Hsubs. }
  assert (Forall (fun g => is_Some (index (HitObjects (beatMap set))
                                      (GetNumber g))) (processed set))
    as Hproc.
  { assert (sublist (processed set ++ queue set) (queue set0)) as Hsub.
    { by eapply run_sublist. }
    destruct (NewOsuRuleset_inv _ _ _ _ _ Hnew)
      as (opp & subs & players & _ & _ & _ & Hq & _).
    destruct (initQueue_spec bm [] (HitObjects bm) eq_refl)
      as (_ & _ & _ & Hfor). simpl in Hfor. rewrite <- Hq in Hfor.
    apply (sublist_Forall _ _ _ Hsub) in Hfor.
    apply Forall_app in Hfor as [Hfor _].
    eapply Forall_impl; [exact Hfor|]. simpl.
    intros g (o & Ho & _). rewrite Hbm', Hbm. by eexists. }
  unfold SendResult.
  destruct ((result =? Ignore) || (result =? PositionalMiss)).
  { destruct ((result =? PositionalMiss) && hitListener set);
      [|by eexists].
    rewrite Hss. simpl. destruct (negb _); by eexists. }
  rewrite Hss. simpl.
  destruct (ModifyResult (scoreProcessor_ ss) result src) as [r sp].
  destruct (aggregate_returns set ss (GetNumber src) r (AddResult sp r cr))
    as [[ss0 r2] Hagg]; [| |lia|done|].
  - apply index_is_Some. rewrite Hms, buildMapStats_length.
    destruct (isCounted r).
    + rewrite (wrap64_id (numObjects ss + 1)) by (unfold in_int64; lia).
      rewrite wrap64_id by (unfold in_int64; lia). unfold MaxI64. lia.
    + unfold MaxI64.
      rewrite wrap64_id by (unfold in_int64; lia). lia.
  - destruct Htable as (tbl & Hkey & Hl). exists tbl.
    rewrite Hopp'. split; [done|].
    apply index_is_Some. rewrite Hl.
    destruct (isCounted r).
    + rewrite (wrap64_id (numObjects ss + 1)) by (unfold in_int64; lia).
      rewrite wrap64_id by (unfold in_int64; lia). unfold MaxI64. lia.
    + unfold MaxI64.
      rewrite wrap64_id by (unfold in_int64; lia). lia.
  - rewrite Hagg. simpl.
    destruct (HealthProcessor.AddResult (hp ss0) r2) as [h fired].
    destruct fired; [|by eexists].
    pose proof (aggregate_keeps _ _ _ _ _ _ _ Hagg) as (Hpl & _).
    pose proof (Hkeyed _ _ Hss) as Hc.
    destruct (failInternal_own
                (with_cursors set (<[c := with_hp ss0 h]> (cursors set)))
                (with_hp ss0 h)) as [evs2 Hown].
    { simpl. by rewrite Hpl, Hc, lookup_insert_eq. }
    simpl in Hown |- *. rewrite Hown. by eexists.
Qed.

(** *** Cursors that the rule set does not know *)

(** X18: a cursor that is not a key of [cursors].  A judgement for it
    panics (nil dereference) unless it is discarded before the player
    is read: [Ignore] always is, [PositionalMiss] only without a hit
    listener.  The three passes and the queries by cursor panic as
    well. *)
Theorem X18_unknown_cursor mem set time c src x y result cr ahead :
  cursors set !! c = None ->
  SendResult set time c src x y result cr =
    (if ((result =? Ignore) || (result =? PositionalMiss))
        && negb ((result =? PositionalMiss) && hitListener set)
     then Some (set, []) else None)
  /\ UpdateClickFor mem set c time = None
  /\ UpdateNormalFor set c time ahead = None
  /\ UpdatePostFor set c time = None
  /\ GetResults set c = None /\ GetHits set c = None
  /\ GetPP (PPv2Results := PPv2Results) set c = None
  /\ IsPerfect set c = None /\ GetPlayer set c = None.
Proof.
  intros Hc.
  unfold SendResult, UpdateClickFor, UpdateNormalFor, UpdatePostFor,
    GetResults, GetHits, GetPP, IsPerfect, GetPlayer.
  rewrite Hc. simpl. repeat split.
  destruct ((result =? Ignore) || (result =? PositionalMiss)); [|done].
  by destruct ((result =? PositionalMiss) && hitListener set).
Qed.

(** *** The passes over the active set *)

Lemma postLoop_calls c pl time l set :
  (postLoop c pl time l set).2 = map CallUpdatePostFor l.
Proof.
  revert set. induction l as [|g l IH]; intros set; [done|].
  simpl. destruct (applyTarget _ _) as [set1 evs1].
  specialize (IH set1).
  destruct (postLoop c pl time l set1) as [[set2 evs2] called].
  simpl in *. by rewrite IH.
Qed.

Lemma normalLoop_updates c pl time ahead l was set :
  let updated := omap updatedBy (normalLoop c pl time ahead l was set).2 in
  sublist updated l
  /\ List.filter (fun g => negb (isSlider g)) updated
     = List.filter (fun g => negb (isSlider g)) l
  /\ (was = false -> head (List.filter isSlider updated)
                     = head (List.filter isSlider l)).
Proof.
  revert was set. induction l as [|g l IH]; intros was set; [done|].
  simpl. destruct (isSlider g) eqn:Hs; simpl.
  - destruct was; simpl.
    + destruct (IH true set) as (Hsub & Hfilter & _).
      split; [by apply sublist_cons|]. split; [done|]. done.
    + destruct (applyTarget _ _) as [set1 evs1].
      match goal with
      | |- context [normalLoop c pl time ahead l ?w set1] =>
          specialize (IH w set1);
          destruct (normalLoop c pl time ahead l w set1)
            as [[set2 evs2] called]
      end.
      simpl in *. destruct IH as (Hsub & Hfilter & _).
      rewrite Hs. simpl.
      split; [by apply sublist_skip|]. split; [done|]. done.
  - destruct (applyTarget _ _) as [set1 evs1].
    specialize (IH was set1).
    destruct (normalLoop c pl time ahead l was set1)
      as [[set2 evs2] called].
    simpl in *. destruct IH as (Hsub & Hfilter & Hhead).
    rewrite Hs. simpl.
    split; [by apply sublist_skip|]. split; [|done].
    f_equal. exact Hfilter.
Qed.

(** X19: what the passes visit.  [UpdatePostFor] calls every active
    target once, in order.  [UpdateNormalFor] updates a subsequence of
    the active set that contains every target that is not a slider,
    and the first active slider: the suppression of sliders never
    costs a circle or a spinner its update. *)
Theorem X19_passes_visit set c time ahead :
  (forall set' evs calls,
     UpdatePostFor set c time = Some (set', evs, calls) ->
     calls = map CallUpdatePostFor (processed set))
  /\ (forall set' evs calls,
        UpdateNormalFor set c time ahead = Some (set', evs, calls) ->
        let updated := omap updatedBy calls in
        sublist updated (processed set)
        /\ List.filter (fun g => negb (isSlider g)) updated
           = List.filter (fun g => negb (isSlider g)) (processed set)
        /\ head (List.filter isSlider updated)
           = head (List.filter isSlider (processed set))).
Proof.
  split.
  - unfold UpdatePostFor. intros set' evs calls Hpost.
    destruct (cursors set !! c) as [ss|]; [|done]. simpl in Hpost.
    pose proof (postLoop_calls c (player ss) time (processed set) set)
      as Hcalls.
    destruct (postLoop _ _ _ _ _) as [[set2 evs2] called].
    simpl in Hcalls. by simplify_eq.
  - unfold UpdateNormalFor. intros set' evs calls Hnormal.
    destruct (cursors set !! c) as [ss|]; [|done]. simpl in Hnormal.
    pose proof (normalLoop_updates c (player ss) time ahead (processed set)
                  false set) as (Hsub & Hfilter & Hhead).
    destruct (normalLoop _ _ _ _ _ _ _) as [[set2 evs2] called].
    simpl in *. simplify_eq. auto.
Qed.

(** X20: one press, one click.  After [UpdateClickFor] for a replay or
    player cursor the buttons stored for the player are the buttons of
    the cursor, whatever the targets did in between; so the edge
    detection of the next pass raises no click while the cursor's
    buttons stay as they are, and leaves the button history alone. *)
Theorem X20_click_consumed mem set c time ss set' evs calls ss' :
  cursors set !! c = Some ss ->
  UpdateClickFor mem set c time = Some (set', evs, calls) ->
  cursors set' !! c = Some ss' ->
  let cur := mem (cursor (player ss)) in
  IsReplayFrame cur || IsPlayer cur = true ->
  buttons (player ss') = buttonsOf cur
  /\ leftCond (clickEdges cur (player ss')) = false
  /\ rightCond (clickEdges cur (player ss')) = false
  /\ mouseDownButton (clickEdges cur (player ss'))
     = mouseDownButton (player ss')
  /\ lastButton (clickEdges cur (player ss')) = lastButton (player ss')
  /\ lastButton2 (clickEdges cur (player ss')) = lastButton2 (player ss').
Proof.
  intros Hss Hclick Hss' cur Hcur. unfold UpdateClickFor in Hclick.
  rewrite Hss in Hclick. simpl in Hclick. fold cur in Hclick.
  destruct (clickLoop _ _ _ _ _) as [[set2 evs2] called].
  simplify_eq. unfold editPlayer in Hss'.
  destruct (cursors set2 !! c) as [s2|] eqn:Hs2; [|congruence].
  simpl in Hss'. rewrite lookup_insert_eq in Hss'. simplify_eq.
  assert (buttons (player (with_player s2 (storeButtons cur (player s2))))
          = buttonsOf cur) as Hb.
  { unfold storeButtons. by rewrite Hcur. }
  split; [done|]. unfold clickEdges. rewrite Hcur, Hb. simpl.
  destruct (LeftButton cur), (RightButton cur); done.
Qed.

(** *** The grade *)

Lemma Qlt_bool_iff (a b : Q) : Qlt_bool a b = true <-> (a < b)%Q.
Proof.
  unfold Qlt_bool. rewrite negb_true_iff. split.
  - intros Hf. apply Qnot_le_lt. intros Hle.
    apply Qle_bool_iff in Hle. congruence.
  - intros Hlt. destruct (Qle_bool b a) eqn:Hle; [|done].
    apply Qle_bool_iff in Hle. by apply Qlt_not_le in Hlt.
Qed.

Lemma ratio_mono (h h' n : Z) :
  0 < n -> h <= h' ->
  (inject_Z h / inject_Z n <= inject_Z h' / inject_Z n)%Q.
Proof.
  intros Hn Hh. unfold Qdiv. apply Qmult_le_compat_r.
  - by rewrite <- Zle_Qle.
  - apply Qinv_le_0_compat. change 0%Q with (inject_Z 0).
    rewrite <- Zle_Qle. lia.
Qed.

(** X21: the grade is monotone in the hit counts.  For the same number
    of judged objects, more 300s, fewer 50s and fewer misses never give
    a lower grade. *)
Theorem X21_grade_monotone h300 h50 hMiss h300' h50' hMiss' n mods :
  0 < n ->
  h300 <= h300' <= n ->
  h50' <= h50 ->
  0 <= hMiss' <= hMiss ->
  gradeRank (computeGrade h300 h50 hMiss n mods)
  <= gradeRank (computeGrade h300' h50' hMiss' n mods).
Proof.
  intros Hn H300 H50 Hmiss.
  rewrite !computeGrade_thresholds by lia.
  unfold gradeByThresholds. cbv zeta.
  assert (forall c : Q,
            Qlt_bool c (inject_Z h300 / inject_Z n) = true ->
            Qlt_bool c (inject_Z h300' / inject_Z n) = true) as Hratio.
  { intros c. rewrite !Qlt_bool_iff. intros Hlt.
    eapply Qlt_le_trans; [exact Hlt|]. apply ratio_mono; lia. }
  assert (Qlt_bool (inject_Z h50 / inject_Z n) 0.01 = true ->
          Qlt_bool (inject_Z h50' / inject_Z n) 0.01 = true) as Hfifty.
  { rewrite !Qlt_bool_iff. intros Hlt.
    eapply Qle_lt_trans; [|exact Hlt]. apply ratio_mono; lia. }
  assert ((hMiss =? 0) = true -> (hMiss' =? 0) = true) as Hzero.
  { rewrite !Z.eqb_eq. lia. }
  assert ((h300 =? n) = true -> (h300' =? n) = true) as Hall.
  { rewrite !Z.eqb_eq. lia. }
  pose proof (Hratio 0.9%Q) as H9. pose proof (Hratio 0.8%Q) as H8.
  pose proof (Hratio 0.7%Q) as H7. pose proof (Hratio 0.6%Q) as H6.
  clear Hratio.
  destruct (0 <? Z.land mods (Z.lor Hidden Flashlight));
    repeat match goal with
    | Himp : ?b = true -> ?b' = true |- _ =>
        destruct b; [rewrite (Himp eq_refl)|]; clear Himp
    end;
    repeat match goal with
    | |- context [Qlt_bool ?a ?b] => destruct (Qlt_bool a b)
    | |- context [?a =? ?b] => destruct (a =? b)
    end; simpl; lia.
Qed.

(** *** Listeners *)

Lemma failInternal_silent set pl set' evs :
  failListener set = false ->
  failInternal set pl = Some (set', evs) ->
  evs = [] /\ failListener set' = false.
Proof.
  intros Hfl Hf.
  pose proof (failInternal_frame _ _ _ _ Hf) as Hframe.
  split; [|by rewrite Hframe].
  unfold failInternal in Hf.
  destruct (CheckModActive _ _); [by simplify_eq|].
  destruct (cursors set !! cursor pl) as [ss|]; [|done]. simpl in Hf.
  rewrite Hfl in Hf. destruct (0 <? recoveries ss); by simplify_eq.
Qed.

Lemma updateHpAll_silent time order set set' evs :
  failListener set = false ->
  updateHpAll time order set = Some (set', evs) ->
  evs = [].
Proof.
  revert set evs. induction order as [|c order IH]; intros set evs Hfl Hu.
  { simpl in Hu. by simplify_eq. }
  simpl in Hu.
  destruct (updateHp time set c) as [[set1 evs1]|] eqn:Hstep; [|done].
  simpl in Hu.
  destruct (updateHpAll time order set1) as [[set2 evs2]|] eqn:Hrest; [|done].
  simpl in Hu. simplify_eq.
  assert (evs1 = [] /\ failListener set1 = false) as [-> Hfl1].
  { unfold updateHp in Hstep.
    destruct (cursors set !! c) as [ss|]; [|by simplify_eq].
    destruct (HealthProcessor.Update (hp ss) time) as [h fired].
    destruct fired; [|by simplify_eq].
    apply failInternal_silent in Hstep; [done|exact Hfl]. }
  by rewrite (IH _ _ Hfl1 Hrest).
Qed.

Lemma call_silent set k set' evs :
  silent set -> registers k = false ->
  call set k = Some (set', evs) ->
  evs = [] /\ silent set'.
Proof.
  intros (Hhit & Hend & Hfail) Hk Hcall.
  destruct k as [order time|time c src x y result cr|w|c new|b|b|b];
    simpl in Hk, Hcall; try (by simplify_eq).
  - apply Update_inv in Hcall
      as (keep & w & evs0 & moved & rest & evs1 & set1 & set2 & Hret & _
          & (_ & Hfl1 & Hall & _) & _ & _ & _ & -> & _ & _ & _ & _ & _
          & Hh & He & Hf & _).
    rewrite Hfail in Hfl1.
    rewrite (updateHpAll_silent _ _ _ _ _ Hfl1 Hall).
    apply retire_split in Hret as (removed & _ & _ & _ & ->).
    rewrite Hend. split; [done|]. unfold silent. by rewrite Hh, He, Hf.
  - pose proof (SendResult_frame _ _ _ _ _ _ _ _ _ _ Hcall) as Hframe.
    split; [|by rewrite Hframe].
    destruct ((result =? Ignore) || (result =? PositionalMiss)) eqn:Hearly.
    { unfold SendResult in Hcall. rewrite Hearly, Hhit in Hcall.
      rewrite andb_false_r in Hcall. by simplify_eq. }
    apply SendResult_inv in Hcall; [|done].
    destruct Hcall as (ss & r & sp & ss0 & r2 & h & fired & set1 & evs1
                       & _ & _ & _ & _ & -> & Hfl & ->).
    rewrite Hhit, app_nil_r.
    destruct fired; [|by simplify_eq].
    apply failInternal_silent in Hfl as [-> _]; [done|exact Hfail].
  - simplify_eq. split; [done|]. unfold editPlayer.
    by destruct (cursors set !! c).
Qed.

(** X22: a rule set without listeners reports nothing.  From a state
    in which no listener is registered (as [NewOsuRuleset] leaves it),
    a run that registers none produces no event: no judgement, end of
    a target or fail is reported. *)
Theorem X22_silent_without_listeners ks set set' evs :
  silent set ->
  Forall (fun k => registers k = false) ks ->
  run set ks = Some (set', evs) ->
  evs = [] /\ silent set'.
Proof.
  revert set evs. induction ks as [|k ks IH]; intros set evs Hs Hks Hrun.
  { simpl in Hrun. by simplify_eq. }
  simpl in Hrun.
  destruct (call set k) as [[set1 evs1]|] eqn:Hstep; [|done].
  simpl in Hrun.
  destruct (run set1 ks) as [[set2 evs2]|] eqn:Hrest; [|done].
  simpl in Hrun. simplify_eq.
  inversion_clear Hks as [|? ? Hk Hks'].
  destruct (call_silent _ _ _ _ Hs Hk Hstep) as [-> Hs1].
  by destruct (IH _ _ Hs1 Hks' Hrest) as [-> Hs2].
Qed.

(** *** The prefix table *)

Lemma buildMapStats_counts objs prev i m :
  countsInv prev ->
  MapTo.nobjects prev + Z.of_nat (length objs) < 2 ^ 63 ->
  buildMapStats prev objs !! i = Some m ->
  MapTo.nobjects m = MapTo.nobjects prev + Z.of_nat (S i)
  /\ MapTo.ncircles m =
     MapTo.ncircles prev
     + Z.of_nat (length (List.filter isKCircle (take (S i) objs)))
  /\ MapTo.nsliders m =
     MapTo.nsliders prev
     + Z.of_nat (length (List.filter isKSlider (take (S i) objs))).
Proof.
  revert prev i. induction objs as [|o objs IH];
    intros prev i (Hc & Hs & Hsum) Hlen Hm; [done|].
  simpl in Hlen, Hm.
  assert (MapTo.nobjects (nextMapTo prev o) = MapTo.nobjects prev + 1
          /\ MapTo.ncircles (nextMapTo prev o) =
             MapTo.ncircles prev + (if isKCircle o then 1 else 0)
          /\ MapTo.nsliders (nextMapTo prev o) =
             MapTo.nsliders prev + (if isKSlider o then 1 else 0))
    as (Hn1 & Hc1 & Hs1).
  { unfold nextMapTo, isKCircle, isKSlider.
    destruct (kind o); simpl;
      rewrite ?wrap64_id by (unfold in_int64; lia); lia. }
  destruct i as [|i].
  - simpl in Hm. simplify_eq. rewrite Hn1, Hc1, Hs1. simpl.
    destruct (isKCircle o), (isKSlider o); simpl; lia.
  - simpl in Hm. apply IH in Hm as (Hn & Hcc & Hss).
    + rewrite Hn, Hcc, Hss, Hn1, Hc1, Hs1.
      change (take (S (S i)) (o :: objs)) with (o :: take (S i) objs).
      simpl. destruct (isKCircle o), (isKSlider o); simpl; lia.
    + unfold countsInv. rewrite Hn1, Hc1, Hs1.
      unfold isKCircle, isKSlider. destruct (kind o); lia.
    + lia.
Qed.

(** X23: the prefix table.  In every state reached from
    [NewOsuRuleset] the entry [i] of [mapStats] counts the first [i + 1]
    objects of the beatmap, and the circles and the sliders among
    them. *)
Theorem X23_mapStats_counts lazer bm cs mods set0 ks set evs i m :
  NewOsuRuleset lazer bm cs mods = Some set0 ->
  run set0 ks = Some (set, evs) ->
  Z.of_nat (length (HitObjects bm)) < 2 ^ 63 ->
  mapStats set !! i = Some m ->
  MapTo.nobjects m = Z.of_nat (S i)
  /\ MapTo.ncircles m =
     Z.of_nat (length (List.filter isKCircle (take (S i) (HitObjects bm))))
  /\ MapTo.nsliders m =
     Z.of_nat (length (List.filter isKSlider (take (S i) (HitObjects bm)))).
Proof.
  intros Hnew Hrun Hlen Hm.
  pose proof (run_mapStats _ _ _ _ _ _ _ _ Hnew Hrun) as Hms.
  pose proof (NewOsuRuleset_mapStats _ _ _ _ _ Hnew) as [Hbm _].
  pose proof (run_frame _ _ _ _ Hrun) as (Hbm' & _).
  rewrite Hbm', Hbm in Hms. rewrite Hms in Hm.
  apply buildMapStats_counts in Hm; [done| |by simpl].
  unfold countsInv. simpl. lia.
Qed.

(** *** The combo run in a run *)

(** In a run the active set is sorted by ordinal, which is what the
    binary search of line 513 needs. *)
Lemma run_allClicked lazer bm cs mods set0 ks set evs pl number :
  NewOsuRuleset lazer bm cs mods = Some set0 ->
  run set0 ks = Some (set, evs) ->
  exists earlier later,
    processed set = earlier ++ later
    /\ Forall (fun g => GetNumber g < number) earlier
    /\ Forall (fun g => number <= GetNumber g) later
    /\ allClicked set pl number =
       Some (forallb (fun g => IsHit (targets set) g pl)
                     (comboRunOf set (rev earlier))).
Proof.
  intros Hnew Hrun.
  pose proof (run_sublist _ _ _ _ _ _ _ _ Hnew Hrun) as Hsub.
  destruct (NewOsuRuleset_inv _ _ _ _ _ Hnew)
    as (opp & subs & players & _ & _ & _ & Hq & _ & _ & Hbm & _).
  pose proof (run_frame _ _ _ _ Hrun) as (Hbm' & _).
  destruct (initQueue_spec bm [] (HitObjects bm) eq_refl)
    as (_ & Hasc & _ & Hfor). simpl in Hasc, Hfor.
  rewrite <- Hq in Hasc, Hfor.
  apply (ascending_sublist _ _ Hsub) in Hasc.
  apply (sublist_Forall _ _ _ Hsub) in Hfor.
  apply Forall_app in Hfor as [Hfor _].
  apply allClicked_sorted.
  - intros i j gi gj Hij Hi Hj.
    destruct (decide (i = j)) as [->|Hne]; [by simplify_eq|].
    apply Z.lt_le_incl.
    apply (ascending_lookup (processed set ++ queue set) i j);
      [done|lia| |]; by apply lookup_app_l_Some.
  - eapply Forall_impl; [exact Hfor|]. simpl.
    intros g (o & Ho & _). rewrite Hbm', Hbm. by eexists.
Qed.

(** X24: in every state reached from [NewOsuRuleset], [allClicked]
    returns, and what it returns is whether the player has hit every
    active target with a smaller ordinal than the judged object, back
    to the start of the combo: the binary search of line 513 finds its
    place because the active set is sorted by ordinal. *)
Theorem X24_allClicked_in_runs lazer bm cs mods set0 ks set evs pl number :
  NewOsuRuleset lazer bm cs mods = Some set0 ->
  run set0 ks = Some (set, evs) ->
  exists earlier later,
    processed set = earlier ++ later
    /\ Forall (fun g => GetNumber g < number) earlier
    /\ Forall (fun g => number <= GetNumber g) later
    /\ allClicked set pl number =
       Some (forallb (fun g => IsHit (targets set) g pl)
                     (comboRunOf set (rev earlier))).
Proof. apply run_allClicked. Qed.

(** *** The tally of a combo run *)

Lemma closing_static set1 set2 (j : Z * HitResult) :
  beatMap set1 = beatMap set2 -> closing set1 j = closing set2 j.
Proof. intros Hbm. unfold closing, closesCombo. by rewrite Hbm. Qed.

Lemma sinceCloseFrom_static set1 set2 (acc js : list (Z * HitResult)) :
  beatMap set1 = beatMap set2 ->
  sinceCloseFrom set1 acc js = sinceCloseFrom set2 acc js.
Proof.
  intros Hbm. revert acc. induction js as [|j js IH]; intros acc; [done|].
  simpl. rewrite (closing_static _ _ _ Hbm). apply IH.
Qed.

Lemma sinceCloseFrom_app set (acc js1 js2 : list (Z * HitResult)) :
  sinceCloseFrom set acc (js1 ++ js2)
  = sinceCloseFrom set (sinceCloseFrom set acc js1) js2.
Proof.
  revert acc. induction js1 as [|j js1 IH]; intros acc; [done|]. apply IH.
Qed.

(** The judgements since the last close are the longest suffix without
    a closing judgement. *)
Lemma sinceClose_split set (js : list (Z * HitResult)) :
  exists before,
    js = before ++ sinceClose set js
    /\ (before = [] \/ exists j, last before = Some j /\ closing set j = true)
    /\ Forall (fun j => closing set j = false) (sinceClose set js).
Proof.
  unfold sinceClose. induction js as [|j js IH] using rev_ind.
  { exists []. split; [done|]. split; [by left|done]. }
  destruct IH as (before & Hjs & Hlast & Hopen).
  rewrite sinceCloseFrom_app. simpl.
  destruct (closing set j) eqn:Hj.
  - exists (js ++ [j]). split; [by rewrite app_nil_r|]. split; [|done].
    right. exists j. by rewrite last_snoc.
  - exists before. split; [|split; [done|]].
    + rewrite app_assoc. by rewrite <- Hjs.
    + apply Forall_app. split; [done|]. by constructor.
Qed.

Lemma sinceCloseFrom_length set (acc js : list (Z * HitResult)) :
  (length (sinceCloseFrom set acc js) <= length acc + length js)%nat.
Proof.
  revert acc. induction js as [|j js IH]; intros acc; simpl; [lia|].
  etrans; [apply IH|]. destruct (closing set j); simpl; [lia|].
  rewrite length_app. simpl. lia.
Qed.

Lemma judgements_length set c (ks : list (Call (W := W))) :
  (length (judgements set c ks) <= length ks)%nat.
Proof.
  revert set. induction ks as [|k ks IH]; intros set; simpl; [lia|].
  rewrite length_app.
  assert (length (judgementOf set c k) <= 1)%nat as Hone.
  { destruct k; simpl; try lia.
    destruct (_ && _); simpl; [|lia]. destruct (cursors set !! c); simpl; lia. }
  destruct (call set k) as [[set1 evs1]|]; simpl; [|lia].
  specialize (IH set1). lia.
Qed.

Lemma count100_snoc (rs : list HitResult) (r : HitResult) :
  count100 (rs ++ [r]) = count100 rs + (if r =? Hit100 then 1 else 0).
Proof.
  unfold count100. rewrite List.filter_app, length_app. simpl.
  destruct (r =? Hit100); simpl; lia.
Qed.

Lemma countBad_snoc (rs : list HitResult) (r : HitResult) :
  countBad (rs ++ [r]) =
  countBad rs + (if negb (r =? Hit100) && ((r =? Hit50) || (r =? Miss))
                 then 1 else 0).
Proof.
  unfold countBad. rewrite List.filter_app, length_app. simpl.
  destruct (negb (r =? Hit100) && ((r =? Hit50) || (r =? Miss))); simpl; lia.
Qed.

Lemma count_bounds (rs : list HitResult) :
  0 <= count100 rs <= Z.of_nat (length rs)
  /\ 0 <= countBad rs <= Z.of_nat (length rs).
Proof.
  unfold count100, countBad.
  pose proof (List.filter_length_le (fun r => r =? Hit100) rs).
  pose proof (List.filter_length_le
                (fun r => negb (r =? Hit100)
                          && ((r =? Hit50) || (r =? Miss))) rs).
  lia.
Qed.

Lemma aggregate_counters set ss number r sp ss0 r2 :
  aggregate set ss number r sp = Some (ss0, r2) ->
  exists closes,
    closesCombo set r number = Some closes
    /\ currentKatu ss0 = (if closes then 0 else katuAfter ss r)
    /\ currentBad ss0 = (if closes then 0 else badAfter ss r).
Proof.
  unfold aggregate. intros Hagg.
  destruct (index (mapStats set) _); [|done]. simpl in Hagg.
  destruct (oppDiffs set !! _) as [tbl|]; [|done]. simpl in Hagg.
  destruct (index tbl _); [|done]. simpl in Hagg.
  destruct (closesCombo set r number) as [closes|]; [|done].
  simpl in Hagg. exists closes. split; [done|].
  fold (katuAfter ss r) (badAfter ss r) in Hagg.
  destruct closes; simpl in Hagg.
  - destruct (allClicked _ _ _) as [clicked|]; [|done]. simpl in Hagg.
    destruct (classify _ _ _ _ _ _) as [[r3 g] k].
    simpl in Hagg. by simplify_eq.
  - by simplify_eq.
Qed.

Lemma runCounters_scoring set1 set2 c :
  scoring <$> cursors set1 !! c = scoring <$> cursors set2 !! c ->
  runCounters set1 c = runCounters set2 c.
Proof.
  unfold runCounters.
  destruct (cursors set1 !! c) as [ss1|], (cursors set2 !! c) as [ss2|];
    simpl; intros Heq; try done.
  apply (inj Some) in Heq. unfold scoring in Heq.
  injection Heq as _ _ _ _ _ _ Hk Hb _ _ _ _ _ _. by rewrite Hk, Hb.
Qed.

Lemma tallied_snoc ss (acc : list (Z * HitResult)) number r :
  (currentKatu ss, currentBad ss)
    = (wrap64 (count100 acc.*2), wrap64 (countBad acc.*2)) ->
  (katuAfter ss r, badAfter ss r)
    = (wrap64 (count100 (acc ++ [(number, r)]).*2),
       wrap64 (countBad (acc ++ [(number, r)]).*2)).
Proof.
  intros Heq. injection Heq as Hk Hb.
  rewrite fmap_app. simpl. rewrite count100_snoc, countBad_snoc.
  unfold katuAfter, badAfter. rewrite Hk, Hb.
  destruct (r =? Hit100); simpl.
  - by rewrite wrap64_add_l, Z.add_0_r.
  - rewrite Z.add_0_r.
    destruct ((r =? Hit50) || (r =? Miss)); [by rewrite wrap64_add_l|].
    by rewrite Z.add_0_r.
Qed.

(** What a call does to the run counters of a player. *)
Lemma call_tallied set c k set' evs (acc : list (Z * HitResult)) :
  call set k = Some (set', evs) ->
  tallied set c acc ->
  tallied set' c (sinceCloseFrom set acc (judgementOf set c k)).
Proof.
  intros Hcall Hacc.
  assert (judgementOf set c k = [] ->
          scoring <$> cursors set' !! c = scoring <$> cursors set !! c ->
          tallied set' c (sinceCloseFrom set acc (judgementOf set c k)))
    as Hsame.
  { intros -> Hsc kb Hkb. apply Hacc.
    by rewrite <- (runCounters_scoring _ _ _ Hsc). }
  destruct k as [order time|time c0 src x y result cr|w|c0 new|b|b|b];
    simpl in Hcall.
  - apply Hsame; [done|]. by eapply Update_scoring.
  - destruct ((result =? Ignore) || (result =? PositionalMiss)) eqn:Hearly.
    { apply Hsame.
      - simpl. by rewrite Hearly, andb_false_r.
      - by rewrite (SendResult_early _ _ _ _ _ _ _ _ _ _ Hearly Hcall). }
    apply SendResult_scoring in Hcall
      as (ss & r & sp & ss0 & r2 & ss' & Hss & Hmod & Hagg & Hss' & Hsc
          & Hother & _); [|done].
    destruct (decide (c0 = c)) as [->|Hne].
    2: { apply Hsame; [|by apply Hother].
         simpl. by rewrite bool_decide_eq_false_2. }
    simpl. rewrite bool_decide_eq_true_2 by done.
    rewrite Hearly, Hss, Hmod. simpl.
    destruct (aggregate_counters _ _ _ _ _ _ _ Hagg)
      as (closes & Hcl & Hk & Hb).
    unfold closing. simpl. rewrite Hcl.
    intros kb Hkb. unfold runCounters in Hkb. rewrite Hss' in Hkb.
    simpl in Hkb. injection Hkb as <-.
    unfold scoring in Hsc. injection Hsc as _ _ _ _ _ _ Hk' Hb' _ _ _ _ _ _.
    rewrite Hk', Hb', Hk, Hb.
    destruct closes; [done|].
    apply tallied_snoc. apply Hacc.
    unfold runCounters. by rewrite Hss.
  - apply Hsame; [done|]. by simplify_eq.
  - apply Hsame; [done|]. simplify_eq. apply editPlayer_scoring.
  - apply Hsame; [done|]. by simplify_eq.
  - apply Hsame; [done|]. by simplify_eq.
  - apply Hsame; [done|]. by simplify_eq.
Qed.

Lemma run_tallied set c ks set' evs (acc : list (Z * HitResult)) :
  run set ks = Some (set', evs) ->
  tallied set c acc ->
  tallied set' c (sinceCloseFrom set acc (judgements set c ks)).
Proof.
  revert set evs acc.
  induction ks as [|k ks IH]; intros set evs acc Hrun Hacc.
  { simpl in Hrun. by simplify_eq. }
  simpl in Hrun. simpl.
  destruct (call set k) as [[set1 evs1]|] eqn:Hcall; [|done].
  simpl in Hrun.
  destruct (run set1 ks) as [[set2 evs2]|] eqn:Hrest; [|done].
  simpl in Hrun. simplify_eq.
  rewrite sinceCloseFrom_app.
  pose proof (call_frame _ _ _ _ Hcall) as (Hbm & _).
  rewrite <- (sinceCloseFrom_static set1 set _ _ Hbm).
  apply (IH _ _ _ Hrest).
  by apply (call_tallied _ _ _ _ _ _ Hcall Hacc).
Qed.

Lemma NewOsuRuleset_tallied lazer bm cs mods set0 c :
  NewOsuRuleset lazer bm cs mods = Some set0 -> tallied set0 c [].
Proof.
  intros Hnew kb Hkb. unfold runCounters in Hkb.
  destruct (cursors set0 !! c) as [ss|] eqn:Hss; [|done].
  destruct (NewOsuRuleset_entries _ _ _ _ _ _ _ Hnew Hss)
    as (d & h & sc & ->).
  simpl in Hkb. by simplify_eq.
Qed.

Lemma filter_earlier number (earlier later : list HitObject) :
  Forall (fun g => GetNumber g < number) earlier ->
  Forall (fun g => number <= GetNumber g) later ->
  List.filter (fun g => GetNumber g <? number) (earlier ++ later) = earlier.
Proof.
  intros He Hl. rewrite List.filter_app.
  assert (List.filter (fun g => GetNumber g <? number) later = []) as ->.
  { induction Hl as [|g later Hg _ IH]; [done|]. simpl.
    destruct (Z.ltb_spec (GetNumber g) number); [lia|done]. }
  rewrite app_nil_r.
  induction He as [|g earlier Hg _ IH]; [done|]. simpl.
  destruct (Z.ltb_spec (GetNumber g) number); [by rewrite IH|lia].
Qed.

(** C4 (amended): a counted judgement of a player on the last object,
    or on an object whose successor starts a new combo, closes a combo
    run.  The two run counters of the player are then reset.  Before
    the reset they hold, as [int64], the numbers of 100s and of 50s and
    misses among the outcomes given to the player since the player's
    previous closing judgement, the closing outcome included, whatever
    run their targets belong to ([given] is the longest suffix of the
    player's judgements without a closing one).
    - A closing hit (50, 100 or 300) is Geki when both numbers are zero
      and [clicked] holds, else Katu when the number of 50s and misses
      is zero and [clicked] holds, else Mu; it is reported with the
      flag of the tier; [gekiCount] grows by one for Geki, [katuCount]
      for Katu, and no counter exists for Mu.  [clicked] says that the
      player has resolved the active targets with a smaller ordinal,
      from the judged one back to and including the first one that
      starts a new combo.
    - A closing miss is reported without flag and moves no counter.
    In particular a close with a 50 or a miss in the tally never adds
    to [gekiCount] or [katuCount].  The numbers are not reduced to
    [int64] in a run of fewer than [2^63 - 1] calls. *)
Theorem C4_combo_run_close lazer bm cs mods set0 ks set evs0
    time c src x y result cr set' evs ss r sp :
  NewOsuRuleset lazer bm cs mods = Some set0 ->
  run set0 ks = Some (set, evs0) ->
  SendResult set time c src x y result cr = Some (set', evs) ->
  (result =? Ignore) || (result =? PositionalMiss) = false ->
  cursors set !! c = Some ss ->
  ModifyResult (scoreProcessor_ ss) result src = (r, sp) ->
  closesCombo set r (GetNumber src) = Some true ->
  let given := sinceClose set (judgements set0 c ks) in
  let outcomes := given.*2 ++ [r] in
  let n100 := wrap64 (count100 outcomes) in
  let nBad := wrap64 (countBad outcomes) in
  let earlier :=
    List.filter (fun g => GetNumber g <? GetNumber src) (processed set) in
  let clicked :=
    forallb (fun g => IsHit (targets set) g (player ss))
            (comboRunOf set (rev earlier)) in
  let tier := tierOf n100 nBad clicked in
  let hit := 0 <? Z.land r BaseHits in
  let reported := if hit then Z.lor r (tagOf tier) else r in
  (exists before,
     judgements set0 c ks = before ++ given
     /\ (before = []
         \/ exists j, last before = Some j /\ closing set j = true)
     /\ Forall (fun j => closing set j = false) given)
  /\ (exists later,
        processed set = earlier ++ later
        /\ Forall (fun g => GetNumber src <= GetNumber g) later)
  /\ (Z.of_nat (length ks) < 2 ^ 63 - 1 ->
      n100 = count100 outcomes /\ nBad = countBad outcomes)
  /\ exists ss',
       cursors set' !! c = Some ss'
       /\ currentKatu ss' = 0 /\ currentBad ss' = 0
       /\ gekiCount ss' =
          (if hit then match tier with Geki => wrap64 (gekiCount ss + 1)
                                     | _ => gekiCount ss end
           else gekiCount ss)
       /\ katuCount ss' =
          (if hit then match tier with Katu => wrap64 (katuCount ss + 1)
                                     | _ => katuCount ss end
           else katuCount ss)
       /\ (nBad ≠ 0 ->
           gekiCount ss' = gekiCount ss /\ katuCount ss' = katuCount ss)
       /\ (hitListener set = true ->
           exists evs1 ppResults score,
             evs = evs1 ++ [HitEvent c time (GetNumber src) (x, y) reported
                              cr ppResults score]).
Proof.
  intros Hnew Hrun Hsend Hearly Hss Hmod Hcl
         given outcomes n100 nBad earlier clicked tier hit reported.
  pose proof (run_frame _ _ _ _ Hrun) as (Hbm & _).
  split; [apply sinceClose_split|].
  destruct (run_allClicked _ _ _ _ _ _ _ _ (player ss) (GetNumber src)
              Hnew Hrun) as (earlier0 & later & Hproc & He & Hl & Hall).
  assert (earlier = earlier0) as Hearlier.
  { unfold earlier. rewrite Hproc. by apply filter_earlier. }
  split; [exists later; by rewrite Hearlier|].
  split.
  { intros Hlen.
    pose proof (count_bounds outcomes) as ((? & ?) & (? & ?)).
    assert (Z.of_nat (length outcomes) <= Z.of_nat (length ks) + 1) as Hout.
    { unfold outcomes, given, sinceClose.
      rewrite length_app, length_fmap. simpl.
      pose proof (sinceCloseFrom_length set [] (judgements set0 c ks)).
      pose proof (judgements_length set0 c ks). simpl in *. lia. }
    unfold n100, nBad. split; apply wrap64_id; unfold in_int64; lia. }
  pose proof (run_tallied _ c _ _ _ [] Hrun
                (NewOsuRuleset_tallied _ _ _ _ _ c Hnew)) as Htally.
  rewrite (sinceCloseFrom_static set0 set _ _ (eq_sym Hbm)) in Htally.
  fold (sinceClose set (judgements set0 c ks)) in Htally. fold given in Htally.
  assert ((katuAfter ss r, badAfter ss r) = (n100, nBad)) as Hcount.
  { unfold n100, nBad, outcomes.
    pose proof (tallied_snoc ss given (GetNumber src) r) as Hsnoc.
    rewrite fmap_app in Hsnoc. apply Hsnoc. apply Htally.
    unfold runCounters. by rewrite Hss. }
  injection Hcount as Hk Hb.
  rewrite <- Hearlier in Hall. fold clicked in Hall.
  destruct (SendResult_close _ _ _ _ _ _ _ _ _ _ _ _ _ _
              Hsend Hearly Hss Hmod Hcl Hall) as (ss' & Hres).
  rewrite Hk, Hb in Hres. by exists ss'.
Qed.

(** *** The hit counts *)

Lemma histBound_entryInvariant (ms : list MapTo.t) :
  Z.of_nat (length ms) < 2 ^ 63 - 1 ->
  entryInvariant ms (fun _ ss => histBound (Z.of_nat (length ms)) ss).
Proof.
  intros Hlen. split; [done|]. split.
  { intros c ss. unfold failSub. destruct (CheckModActive _ _); [done|].
    by destruct (0 <? recoveries ss). }
  split; [done|].
  intros set c ss number r sp ss0 r2 Hms Hagg (Hall & Hn & Hrange).
  pose proof (aggregate_index _ _ _ _ _ _ _ Hagg) as Hidx.
  pose proof (aggregate_fields _ _ _ _ _ _ _ Hagg) as (_ & Hn0 & Hh0 & _).
  rewrite Hms in Hidx. apply index_is_Some in Hidx.
  unfold histBound. rewrite Hn0, Hh0. rewrite Hn0 in Hidx.
  destruct (isCounted r); [|done].
  assert (0 <= hit_count ss r <= numObjects ss) as Hcount.
  { unfold hit_count. destruct (hits ss !! r) as [v|] eqn:Hr; simpl; [|lia].
    pose proof (Hall _ _ Hr). pose proof (histTotal_entry _ _ _ Hall Hr).
    simpl in *. lia. }
  rewrite (wrap64_id (numObjects ss + 1)) in Hidx |- *
    by (unfold in_int64; lia).
  rewrite wrap64_id in Hidx by (unfold in_int64; lia).
  rewrite (wrap64_id (hit_count ss r + 1)) by (unfold in_int64; lia).
  unfold MaxI64 in Hidx.
  split; [|split; [|lia]].
  - apply map_Forall_insert_2; [lia|done].
  - rewrite histTotal_insert. unfold hit_count. lia.
Qed.

(** X25: the hit counts of a player.  In every state reached from
    [NewOsuRuleset] the number of judged objects is the sum of the
    histogram, and every hit count lies between zero and the number of
    judged objects. *)
Theorem X25_hit_counts lazer bm cs mods set0 ks set evs c ss :
  NewOsuRuleset lazer bm cs mods = Some set0 ->
  run set0 ks = Some (set, evs) ->
  Z.of_nat (length (HitObjects bm)) < 2 ^ 63 - 1 ->
  cursors set !! c = Some ss ->
  numObjects ss = histTotal (hits ss)
  /\ forall r, 0 <= hit_count ss r <= numObjects ss.
Proof.
  intros Hnew Hrun Hlen Hss.
  pose proof (NewOsuRuleset_mapStats _ _ _ _ _ Hnew) as [Hbm Hms].
  assert (length (mapStats set0) = length (HitObjects bm)) as Hlen0.
  { by rewrite Hms, buildMapStats_length, Hbm. }
  rewrite <- Hlen0 in Hlen.
  assert (histBound (Z.of_nat (length (mapStats set0))) ss)
    as (Hall & Hn & _).
  { apply (run_entries (mapStats set0) _ ks set0 set evs
             (histBound_entryInvariant _ Hlen)
             (NewOsuRuleset_keyed _ _ _ _ _ Hnew) eq_refl) with (c := c);
      [|done|done].
    intros c' ss' Hss'.
    destruct (NewOsuRuleset_entries _ _ _ _ _ _ _ Hnew Hss')
      as (d & h & sc & ->).
    unfold histBound. simpl. split; [apply map_Forall_empty|].
    unfold histTotal. rewrite map_fold_empty. lia. }
  split; [done|]. intros r. unfold hit_count.
  destruct (hits ss !! r) as [v|] eqn:Hr; simpl.
  - pose proof (Hall _ _ Hr). pose proof (histTotal_entry _ _ _ Hall Hr).
    simpl in *. lia.
  - pose proof (histTotal_nonneg _ Hall). lia.
Qed.

(** *** The events of two runs *)

Lemma failInternal_report set ss :
  cursors set !! cursor (player ss) = Some ss ->
  failInternal set (player ss) =
  Some (with_cursors set
          (<[cursor (player ss) := failSub ss]> (cursors set)),
        (failReport (failListener set) ss : list Event)).
Proof.
  intros Hss. unfold failInternal, failSub, failReport, immune.
  destruct (CheckModActive _ _).
  - by rewrite insert_id, with_cursors_id.
  - rewrite Hss. simpl. by destruct (0 <? recoveries ss).
Qed.

Lemma updateHp_report time set c :
  keyed set ->
  updateHp time set c =
  Some (with_cursors set (alter (hpTick time) c (cursors set)),
        (tickReport time (failListener set) (cursors set !! c)
         : list Event)).
Proof.
  intros Hkeyed. unfold updateHp, tickReport.
  destruct (cursors set !! c) as [ss|] eqn:Hss.
  2: { by rewrite alter_id', with_cursors_id. }
  rewrite (alter_present _ _ _ _ Hss). unfold hpTick.
  destruct (HealthProcessor.Update (hp ss) time) as [h fired].
  destruct fired; [|done].
  pose proof (Hkeyed _ _ Hss) as Hc.
  pose proof (failInternal_report
                (with_cursors set (<[c := with_hp ss h]> (cursors set)))
                (with_hp ss h)) as Hfail.
  simpl in Hfail. rewrite Hc, lookup_insert_eq in Hfail.
  specialize (Hfail eq_refl).
  replace (player ss) with (player (with_hp ss h)) by done.
  simpl. rewrite Hfail. by rewrite insert_insert_eq.
Qed.

Lemma updateHpAll_report time order set :
  keyed set ->
  updateHpAll time order set =
  Some (with_cursors set (tickAll time order (cursors set)),
        (tickReports time (failListener set) order (cursors set)
         : list Event)).
Proof.
  revert set. induction order as [|c order IH]; intros set Hkeyed.
  - simpl. by rewrite with_cursors_id.
  - simpl. rewrite (updateHp_report time set c Hkeyed). simpl.
    rewrite (IH _ (keyed_alter set c time Hkeyed)). done.
Qed.

Lemma tickReports_perm time listening order1 order2
    (m : gmap positive subSet) :
  order1 ≡ₚ order2 ->
  (tickReports time listening order1 m : list Event)
  ≡ₚ tickReports time listening order2 m.
Proof.
  intros Hperm. revert m.
  induction Hperm as [|c l1 l2 _ IH|c1 c2 l|l1 l2 l3 _ IH1 _ IH2]; intros m.
  - done.
  - simpl. by rewrite IH.
  - simpl. destruct (decide (c1 = c2)) as [->|Hne]; [done|].
    rewrite !lookup_alter_ne by done.
    rewrite (alter_alter_ne (hpTick time) (hpTick time) m c1 c2) by done.
    rewrite !app_assoc. f_equiv. apply Permutation_app_comm.
  - by rewrite IH1, IH2.
Qed.

Lemma tickReports_fails time listening order (m : gmap positive subSet) :
  List.filter (fun e => negb (isFailEvent e))
    (tickReports time listening order m : list Event) = [].
Proof.
  revert m. induction order as [|c order IH]; intros m; [done|].
  simpl. rewrite List.filter_app, IH, app_nil_r.
  unfold tickReport. destruct (m !! c) as [ss|]; [|done].
  destruct (HealthProcessor.Update (hp ss) time) as [h fired].
  destruct fired; [|done]. unfold failReport.
  repeat match goal with
  | |- context [if ?b then _ else _] => destruct b
  end; done.
Qed.

Lemma Update_report set time :
  keyed set ->
  exists set' evs0,
    (forall order',
       Update order' set time =
       Some (with_cursors set' (tickAll time order' (cursors set)),
             evs0 ++ tickReports time (failListener set) order'
                       (cursors set))).
Proof.
  intros Hkeyed. unfold Update.
  destruct (retire _ _ _ _) as [[keep w] evs0].
  destruct (activate _ _) as [moved rest].
  match goal with
  | |- context [updateHpAll _ _ ?s] => set (set1 := s)
  end.
  assert (keyed set1) as Hkeyed1 by exact Hkeyed.
  exists {| beatMap := beatMap set; cursors := cursors set;
            ended := if (length rest =? 0)%nat
                        && (length (keep ++ moved) =? 0)%nat
                        && negb (ended set)
                     then true else ended set;
            mapStats := mapStats set; oppDiffs := oppDiffs set;
            queue := rest; processed := keep ++ moved;
            hitListener := hitListener set;
            endListener := endListener set;
            failListener := failListener set;
            experimentalPP := experimentalPP set; targets := w |}, evs0.
  intros order'.
  rewrite (updateHpAll_report time order' set1 Hkeyed1). done.
Qed.

Lemma call_events_perm set k1 k2 set' evs1 :
  keyed set -> sameInput k1 k2 ->
  call set k1 = Some (set', evs1) ->
  exists evs2,
    call set k2 = Some (set', evs2)
    /\ evs1 ≡ₚ evs2
    /\ List.filter (fun e => negb (isFailEvent e)) evs1
       = List.filter (fun e => negb (isFailEvent e)) evs2.
Proof.
  intros Hkeyed Hsame Hcall. destruct Hsame as [order1 order2 time Hperm|k].
  2: { by exists evs1. }
  simpl in Hcall |- *.
  destruct (Update_report set time Hkeyed) as (s & evs0 & Hup).
  rewrite Hup in Hcall. simplify_eq.
  eexists. split; [|split].
  - rewrite Hup. by rewrite (tickAll_perm _ _ _ _ Hperm).
  - f_equiv. by apply tickReports_perm.
  - by rewrite !List.filter_app, !tickReports_fails.
Qed.

(** X26: the events of a run do not depend on the order in which
    [Update] ranges over the map of cursors, except for the order of
    the calls of the fail listener: two runs from [NewOsuRuleset] that
    differ in those orders only report the same events up to a
    permutation, and the same judgements and ends of targets in the
    same order. *)
Theorem X26_events_up_to_order lazer bm cs mods set0 ks1 ks2 set evs1 :
  NewOsuRuleset lazer bm cs mods = Some set0 ->
  Forall2 sameInput ks1 ks2 ->
  run set0 ks1 = Some (set, evs1) ->
  exists evs2,
    run set0 ks2 = Some (set, evs2)
    /\ evs1 ≡ₚ evs2
    /\ List.filter (fun e => negb (isFailEvent e)) evs1
       = List.filter (fun e => negb (isFailEvent e)) evs2.
Proof.
  intros Hnew Hsame.
  pose proof (NewOsuRuleset_keyed _ _ _ _ _ Hnew) as Hkeyed.
  clear Hnew. revert set0 Hkeyed set evs1.
  induction Hsame as [|k1 k2 ks1 ks2 Hk _ IH];
    intros set0 Hkeyed set evs1 Hrun.
  { by exists evs1. }
  simpl in Hrun.
  destruct (call set0 k1) as [[set1 e1]|] eqn:Hstep; [|done].
  simpl in Hrun.
  destruct (run set1 ks1) as [[set2 e2]|] eqn:Hrest; [|done].
  simpl in Hrun. simplify_eq.
  destruct (call_events_perm _ _ _ _ _ Hkeyed Hk Hstep)
    as (e1' & Hstep' & Hperm1 & Hfilter1).
  destruct (IH _ (call_keyed _ _ _ _ Hkeyed Hstep) _ _ Hrest)
    as (e2' & Hrest' & Hperm2 & Hfilter2).
  exists (e1' ++ e2'). simpl. rewrite Hstep'. simpl. rewrite Hrest'. simpl.
  split; [done|]. split.
  - by rewrite Hperm1, Hperm2.
  - by rewrite !List.filter_app, Hfilter1, Hfilter2.
Qed.

(** *** The players *)

Lemma initCursors_other bm lazer cs mods i opp subs players
    opp' subs' players' c :
  initCursors bm lazer cs mods i opp subs players
    = Some (opp', subs', players') ->
  c ∉ cs.*1 -> subs' !! c = subs !! c.
Proof.
  revert i opp subs players.
  induction cs as [|[c0 cur] cs IH]; intros i opp subs players Hinit Hnot.
  - simpl in Hinit. by simplify_eq.
  - simpl in Hinit.
    destruct (mods !! i) as [m|]; [|done]. simpl in Hinit.
    match type of Hinit with
    | context [mbind _ ?o] => destruct o as [opp1|]
    end; [|done].
    simpl in Hinit. rewrite fmap_cons in Hnot.
    apply not_elem_of_cons in Hnot as [Hne Hnot]. simpl in Hne.
    rewrite (IH _ _ _ _ Hinit Hnot). by rewrite lookup_insert_ne.
Qed.

Lemma initCursors_player bm lazer cs mods i opp subs players
    opp' subs' players' j c cur m :
  initCursors bm lazer cs mods i opp subs players
    = Some (opp', subs', players') ->
  NoDup cs.*1 ->
  cs !! j = Some (c, cur) -> mods !! (i + j)%nat = Some m ->
  exists ss,
    subs' !! c = Some ss
    /\ player ss =
       newPlayer c {| Mods := Z.lor m (Z.land (Mods (Diff bm)) ScoreV2) |}.
Proof.
  revert i j opp subs players.
  induction cs as [|[c0 cur0] cs IH];
    intros i j opp subs players Hinit Hdup Hj Hm; [done|].
  simpl in Hinit.
  destruct (mods !! i) as [m0|] eqn:Hm0; [|done]. simpl in Hinit.
  match type of Hinit with
  | context [mbind _ ?o] => destruct o as [opp1|]
  end; [|done].
  simpl in Hinit. rewrite fmap_cons in Hdup.
  apply NoDup_cons in Hdup as [Hnot Hdup]. simpl in Hnot.
  destruct j as [|j].
  - simpl in Hj. simplify_eq. rewrite Nat.add_0_r in Hm.
    rewrite Hm0 in Hm. simplify_eq.
    rewrite (initCursors_other _ _ _ _ _ _ _ _ _ _ _ c Hinit Hnot).
    rewrite lookup_insert_eq. by eexists.
  - simpl in Hj. apply (IH (S i) j _ _ _ Hinit Hdup Hj).
    by replace (S i + j)%nat with (i + S j)%nat by lia.
Qed.

(** X27: who plays.  [NewOsuRuleset] gives the cursor at position [i]
    the modifiers [mods[i]], joined with the ScoreV2 flag of the
    beatmap; in every state reached from it [GetPlayer] returns for that
    cursor a player with that cursor and those modifiers, and
    [GetBeatMap] the beatmap that was given. *)
Theorem X27_GetPlayer lazer bm cs mods set0 ks set evs i c cur m :
  NewOsuRuleset lazer bm cs mods = Some set0 ->
  run set0 ks = Some (set, evs) ->
  NoDup cs.*1 ->
  cs !! i = Some (c, cur) -> mods !! i = Some m ->
  GetBeatMap set = bm
  /\ exists pl,
       GetPlayer set c = Some pl
       /\ cursor pl = c
       /\ diff pl = {| Mods := Z.lor m (Z.land (Mods (Diff bm)) ScoreV2) |}.
Proof.
  intros Hnew Hrun Hdup Hi Hm.
  destruct (NewOsuRuleset_inv _ _ _ _ _ Hnew)
    as (opp & subs & players & Hinit & Hcs & _ & _ & _ & _ & Hbm & _).
  pose proof (run_frame _ _ _ _ Hrun) as (Hbm' & _).
  split; [unfold GetBeatMap; congruence|].
  destruct (initCursors_player _ _ _ _ _ _ _ _ _ _ _ i c cur m Hinit Hdup Hi Hm)
    as (ss0 & Hss0 & Hpl0).
  rewrite <- Hcs in Hss0.
  assert (exists ss, cursors set !! c = Some ss
                     /\ diff (player ss) = diff (player ss0)
                     /\ cursor (player ss) = cursor (player ss0))
    as (ss & Hss & Hdiff & Hcur).
  { clear Hnew Hinit Hcs Hpl0 Hbm Hbm'. revert set0 set evs ss0 Hrun Hss0.
    induction ks as [|k ks IH]; intros set0 set evs ss0 Hrun Hss0.
    { simpl in Hrun. simplify_eq. by exists ss0. }
    simpl in Hrun.
    destruct (call set0 k) as [[set1 evs1]|] eqn:Hstep; [|done].
    simpl in Hrun.
    destruct (run set1 ks) as [[set2 evs2]|] eqn:Hrest; [|done].
    simpl in Hrun. simplify_eq.
    assert (exists ss1, cursors set1 !! c = Some ss1
                        /\ diff (player ss1) = diff (player ss0)
                        /\ cursor (player ss1) = cursor (player ss0))
      as (ss1 & Hss1 & Hd1 & Hc1).
    { destruct (call_scoring _ _ _ _ c Hstep) as [Hsame|Hagg].
      - rewrite Hss0 in Hsame.
        destruct (cursors set1 !! c) as [ss1|]; [|done].
        apply (inj Some) in Hsame.
        apply scoring_fields in Hsame
          as (_ & _ & _ & _ & _ & _ & _ & Hd & Hc).
        by exists ss1.
      - destruct Hagg as (time & src & x & y & result & cr & ss' & r & sp
                         & ss0' & r2 & _ & Hss' & _ & Hagg & Hsc).
        rewrite Hss0 in Hss'. injection Hss' as <-.
        destruct (cursors set1 !! c) as [ss1|]; [|done].
        apply (inj Some) in Hsc.
        apply scoring_fields in Hsc
          as (_ & _ & _ & _ & _ & _ & _ & Hd & Hc).
        apply aggregate_keeps in Hagg as (Hpl & _).
        exists ss1. rewrite Hd, Hc, Hpl. done. }
    destruct (IH _ _ _ _ Hrest Hss1) as (ss2 & Hss2 & Hd2 & Hc2).
    exists ss2. split; [done|]. split; congruence. }
  exists (player ss). unfold GetPlayer. rewrite Hss. simpl.
  split; [done|]. rewrite Hdiff, Hcur, Hpl0. done.
Qed.

(** *** Players are independent *)

(** X28: a judgement for one player leaves the others alone.  In a
    state reached from [NewOsuRuleset], [SendResult] for the cursor [c]
    changes nothing but the state of [c]: the state of every other
    cursor, the queue, the active set, the targets and the listeners
    are as before, and the fail listener is not called for another
    cursor. *)
Theorem X28_SendResult_isolation lazer bm cs mods set0 ks set evs
    time c src x y result cr set' evs' c' :
  NewOsuRuleset lazer bm cs mods = Some set0 ->
  run set0 ks = Some (set, evs) ->
  SendResult set time c src x y result cr = Some (set', evs') ->
  c' ≠ c ->
  set' = with_cursors set (cursors set')
  /\ cursors set' !! c' = cursors set !! c'
  /\ failEvents c' evs' = 0%nat.
Proof.
  intros Hnew Hrun Hsend Hne.
  pose proof (run_keyed _ _ _ _ (NewOsuRuleset_keyed _ _ _ _ _ Hnew) Hrun)
    as Hkeyed.
  split; [by eapply SendResult_frame|].
  destruct ((result =? Ignore) || (result =? PositionalMiss)) eqn:Hearly.
  { pose proof (SendResult_early _ _ _ _ _ _ _ _ _ _ Hearly Hsend) as ->.
    split; [done|].
    unfold SendResult in Hsend. rewrite Hearly in Hsend.
    destruct ((result =? PositionalMiss) && hitListener set);
      [|by simplify_eq].
    destruct (cursors set !! c) as [ss|]; [|done]. simpl in Hsend.
    destruct (negb _); by simplify_eq. }
  pose proof (SendResult_entry _ _ _ _ _ _ _ _ _ _ Hkeyed Hearly Hsend)
    as (ss & r & sp & ss0 & r2 & h & fired & Hss & _ & Hagg & _ & Hcs).
  split; [by rewrite Hcs, lookup_insert_ne|].
  apply SendResult_inv in Hsend; [|done].
  destruct Hsend as (ss1 & r1 & sp1 & ss01 & r21 & h1 & fired1 & set1 & evs1
                     & Hss1 & _ & Hagg1 & _ & -> & Hfail & ->).
  rewrite failEvents_app.
  assert (failEvents c' evs1 = 0%nat) as ->.
  { destruct fired1; [|by simplify_eq].
    rewrite Hss in Hss1. injection Hss1 as <-.
    pose proof (aggregate_keeps _ _ _ _ _ _ _ Hagg1) as (Hpl & _).
    pose proof (Hkeyed _ _ Hss) as Hc.
    unfold failInternal in Hfail.
    destruct (CheckModActive _ _); [by injection Hfail as _ <-|].
    destruct (cursors _ !! _) as [ss2|]; [|done]. simpl in Hfail.
    destruct (0 <? recoveries ss2); injection Hfail as _ <-; [done|].
    destruct (failListener _ && negb (failed ss2)); [|done].
    unfold failEvents. simpl. rewrite Hpl, Hc.
    by rewrite bool_decide_eq_false_2. }
  by destruct (hitListener set).
Qed.

(** *** The best grade *)

Lemma computeGrade_best h300 h50 hMiss n mods :
  (computeGrade h300 h50 hMiss n mods = Grade.SS
   \/ computeGrade h300 h50 hMiss n mods = Grade.SSH)
  <-> h300 = n.
Proof.
  unfold computeGrade. destruct (Z.eqb_spec h300 n) as [Heq|Hne].
  - split; [done|]. intros _.
    destruct (0 <? Z.land mods (Z.lor Hidden Flashlight)); auto.
  - split; [|done].
    repeat match goal with
    | |- context [if ?b then _ else _] => destruct b
    end; intros [?|?]; done.
Qed.

Lemma graded_entryInvariant (ms : list MapTo.t) :
  Z.of_nat (length ms) < 2 ^ 63 - 1 ->
  entryInvariant ms
    (fun _ ss => histBound (Z.of_nat (length ms)) ss /\ graded ss).
Proof.
  intros Hlen.
  destruct (histBound_entryInvariant ms Hlen) as (Hhp & Hfail & Hclick & Hagg).
  split; [|split; [|split]].
  - intros c ss h [Hb Hg]. split; [by apply (Hhp c)|done].
  - intros c ss [Hb Hg]. split; [by apply (Hfail c)|].
    unfold failSub. destruct (CheckModActive _ _); [done|].
    by destruct (0 <? recoveries ss).
  - intros c ss new [Hb Hg]. split; [by apply (Hclick c)|done].
  - intros set c ss number r sp ss0 r2 Hms Haggr [Hb Hg].
    split; [by eapply (Hagg set c)|].
    right. by apply aggregate_fields in Haggr as (_ & _ & _ & _ & _ & ->).
Qed.

(** X29: the best grade.  In every state reached from [NewOsuRuleset]
    a player that has a grade has SS or SSH exactly when every judged
    object is a 300, that is when no other outcome has a positive hit
    count. *)
Theorem X29_grade_best lazer bm cs mods set0 ks set evs c ss :
  NewOsuRuleset lazer bm cs mods = Some set0 ->
  run set0 ks = Some (set, evs) ->
  Z.of_nat (length (HitObjects bm)) < 2 ^ 63 - 1 ->
  cursors set !! c = Some ss ->
  grade ss ≠ Grade.NONE ->
  (grade ss = Grade.SS \/ grade ss = Grade.SSH)
  <-> (forall r, r ≠ Hit300 -> hit_count ss r = 0).
Proof.
  intros Hnew Hrun Hlen Hss Hgrade.
  pose proof (NewOsuRuleset_mapStats _ _ _ _ _ Hnew) as [Hbm Hms].
  assert (length (mapStats set0) = length (HitObjects bm)) as Hlen0.
  { by rewrite Hms, buildMapStats_length, Hbm. }
  rewrite <- Hlen0 in Hlen.
  assert (histBound (Z.of_nat (length (mapStats set0))) ss /\ graded ss)
    as [(Hall & Hn & _) [Hnone|Hg]]; [|done|].
  { apply (run_entries (mapStats set0) _ ks set0 set evs
             (graded_entryInvariant _ Hlen)
             (NewOsuRuleset_keyed _ _ _ _ _ Hnew) eq_refl) with (c := c);
      [|done|done].
    intros c' ss' Hss'.
    destruct (NewOsuRuleset_entries _ _ _ _ _ _ _ Hnew Hss')
      as (d & h & sc & ->).
    split; [|by left]. unfold histBound. simpl.
    split; [apply map_Forall_empty|].
    unfold histTotal. rewrite map_fold_empty. lia. }
  rewrite Hg, computeGrade_best, Hn. unfold hit_count.
  by apply histTotal_only.
Qed.

(** *** What the hit listener is told *)

Lemma failInternal_fails set pl set' evs :
  failInternal set pl = Some (set', evs) ->
  Forall (fun e => isFailEvent e = true) evs.
Proof.
  unfold failInternal. intros Hf.
  destruct (CheckModActive _ _); [by simplify_eq|].
  destruct (cursors set !! cursor pl) as [ss|]; [|done]. simpl in Hf.
  destruct (0 <? recoveries ss); simplify_eq; [done|].
  destruct (failListener set && negb (failed ss)); by repeat constructor.
Qed.

(** X30: the hit listener and the queries agree.  In a state reached
    from [NewOsuRuleset] with a hit listener, a judgement that is not
    discarded is reported exactly once, after the fails it caused, and
    with the score and the performance that [GetResults] and [GetPP]
    return afterwards. *)
Theorem X30_hit_listener_agrees lazer bm cs mods set0 ks set evs
    time c src x y result cr set' evs' :
  NewOsuRuleset lazer bm cs mods = Some set0 ->
  run set0 ks = Some (set, evs) ->
  hitListener set = true ->
  (result =? Ignore) || (result =? PositionalMiss) = false ->
  SendResult set time c src x y result cr = Some (set', evs') ->
  exists fails r pp score acc combo rank,
    evs' = fails ++ [HitEvent c time (GetNumber src) (x, y) r cr pp score]
    /\ Forall (fun e => isFailEvent e = true) fails
    /\ GetResults set' c = Some (acc, combo, score, rank)
    /\ GetPP set' c = Some pp.
Proof.
  intros Hnew Hrun Hhit Hlate Hsend.
  pose proof (run_keyed _ _ _ _ (NewOsuRuleset_keyed _ _ _ _ _ Hnew) Hrun)
    as Hkeyed.
  pose proof (SendResult_entry _ _ _ _ _ _ _ _ _ _ Hkeyed Hlate Hsend)
    as (ss & r & sp & ss0 & r2 & h & fired & Hss & Hmod & Hagg & Hhp & Hcs).
  apply SendResult_inv in Hsend; [|done].
  destruct Hsend as (ss1 & r1 & sp1 & ss01 & r21 & h1 & fired1 & set1 & evs1
                     & Hss1 & Hmod1 & Hagg1 & Hhp1 & -> & Hfail & ->).
  rewrite Hss in Hss1. injection Hss1 as <-.
  rewrite Hmod in Hmod1. injection Hmod1 as <- <-.
  rewrite Hagg in Hagg1. injection Hagg1 as <- <-.
  rewrite Hhit.
  exists evs1, r2, (performance.Results (ppv2 ss0)),
    (GetScore (scoreProcessor_ ss0)).
  assert (exists ss', cursors set' !! c = Some ss'
                      /\ ppv2 ss' = ppv2 ss0
                      /\ scoreProcessor_ ss' = scoreProcessor_ ss0)
    as (ss' & Hss' & Hpp & Hsp).
  { rewrite Hcs, lookup_insert_eq. eexists. split; [done|].
    destruct fired; [|done]. unfold failSub.
    destruct (CheckModActive _ _); [done|].
    by destruct (0 <? recoveries _). }
  exists (accuracy ss'), (maxCombo ss'), (grade ss').
  split; [done|]. split.
  - destruct fired1; [by eapply failInternal_fails|by simplify_eq].
  - unfold GetResults, GetPP. rewrite Hss'. simpl. by rewrite Hpp, Hsp.
Qed.

End Properties.

(** ** The theorems on the reference instance *)

Module Examples.

Import Reference.

Lemma scoreValue_bounded (r : HitResult) :
  isCounted r = true -> 0 <= ScoreValue r <= 300.
Proof.
  intros _. cbn [ScoreValue decls].
  repeat match goal with |- context [if ?b then _ else _] => destruct b end;
    lia.
Qed.

(** [round64] against the Standard Library's specification of IEEE 754
    addition, subtraction and conversion from an integer. *)
Lemma round64_checked :
  Forall (fun p => onFinite fadd p.1 p.2 = ofSpec (SFadd 53 1024 p.1 p.2)
                   /\ onFinite fsub p.1 p.2 = ofSpec (SFsub 53 1024 p.1 p.2))
         samples.
Proof. repeat constructor; vm_compute; reflexivity. Qed.

Lemma ofInt64_checked :
  Forall (fun z => ofInt64 z = ofSpec (binary_normalize 53 1024 z 0 false))
         integers.
Proof. repeat constructor; vm_compute; reflexivity. Qed.

(** The start time is truncated: a click at 1400 on the circle that
    starts at 1000.75 is 399.25 ms late, inside the range of 400, and
    shakes, because the distance is taken from 1000.  The sum is
    rounded: the circle at 0.1 is not stale for the circle at 3.1,
    although 0.1 + 3 is below 3.1 in exact arithmetic, because the
    [float64] sum is 3.1. *)
Lemma CanBeHit_measures :
  (Qlt_bool (Qabs (1400 - (4003 # 4))) 400 = true
   /\ CanBeHit lateSet 1400 (target Circle 0 400) (thePlayer lateSet)
      = Some Shake)
  /\ (Qlt_bool (tenth + 3) threeTenth = true
      /\ fadd tenth 3 = Fnum threeTenth
      /\ IsHit (targets closeSet) (target Circle 0 (-600))
           (thePlayer closeSet) = false
      /\ CanBeHit closeSet 3 (target Circle 1 (-597)) (thePlayer closeSet)
         = Some Click).
Proof. repeat split; vm_compute; reflexivity. Qed.

(** In [skipSet] the slider at the head of the active set is unresolved
    and not stale for the last circle; the scan goes on to the circle
    inside the slider, which is stale, and the click of the last circle
    shakes although it comes exactly at its start time. *)
Lemma C1_CanBeHit_shake_witness :
  CanBeHit skipSet 2000 (target Circle 2 1400) (thePlayer skipSet)
  = Some Shake
  /\ scanned skipSet (thePlayer skipSet) (target Circle 2 1400)
     = [target Slider 0 400; target Circle 1 500].
Proof.
  pose proof (C1_CanBeHit_shake skipSet 2000 (target Circle 2 1400)
                (thePlayer skipSet) (circleAt 2000 false 0) false) as Hthm.
  cbv zeta in Hthm.
  destruct Hthm as (Hcan & _ & Hbefore & _).
  - vm_compute; reflexivity.
  - replace (scanned skipSet (thePlayer skipSet) (target Circle 2 1400))
      with [target Slider 0 400; target Circle 1 500]
      by (vm_compute; reflexivity).
    repeat constructor; vm_compute; eexists; reflexivity.
  - vm_compute; reflexivity.
  - split.
    + eapply eq_trans; [exact Hcan|]. vm_compute; reflexivity.
    + apply (Hbefore _ []).
      * vm_compute; reflexivity.
      * vm_compute; reflexivity.
      * repeat constructor; vm_compute; discriminate.
Defined.

(** C1 as stated fails twice.  In [stackSet] the click on the third
    circle at 5000 is 3800 ms from its start, far outside the range of
    400, yet the answer is [Ignored], not [Shake].  In [skipSet] the
    first active target is unresolved, lies before the candidate and is
    not stale, the click comes at the start time of the candidate, yet
    the scan does not stop at that target: it reaches the stale circle
    behind it and the answer is [Shake]. *)
Lemma C1_counterexample :
  (index (HitObjects (beatMap stackSet)) 2 = Some (circleAt 1200 false 0)
   /\ Qle_bool 400 (Qabs (5000 - 1200)) = true
   /\ CanBeHit stackSet 5000 (target Circle 2 600) (thePlayer stackSet)
      = Some Ignored)
  /\ (processed skipSet
      = [target Slider 0 400; target Circle 1 500; target Circle 2 1400]
      /\ index (HitObjects (beatMap skipSet)) 2
         = Some (circleAt 2000 false 0)
      /\ IsHit (targets skipSet) (target Slider 0 400) (thePlayer skipSet)
         = false
      /\ unresolvedStale skipSet (thePlayer skipSet) (target Circle 2 1400)
           (target Slider 0 400) = false
      /\ unresolvedStale skipSet (thePlayer skipSet) (target Circle 2 1400)
           (target Circle 1 500) = true
      /\ Qlt_bool (Qabs (2000 - 2000)) 400 = true
      /\ CanBeHit skipSet 2000 (target Circle 2 1400) (thePlayer skipSet)
         = Some Shake).
Proof. repeat split; vm_compute; reflexivity. Qed.

Lemma C8_stacked_circle_ignored_witness :
  CanBeHit stackSet 5000 (target Circle 2 600) (thePlayer stackSet)
  = Some Ignored.
Proof.
  apply (C8_stacked_circle_ignored stackSet 5000 (target Circle 2 600)
           (thePlayer stackSet) [target Circle 0 400] (target Circle 1 600)
           [] (circleAt 1200 false 1)).
  - vm_compute; reflexivity.
  - apply not_elem_of_nil.
  - reflexivity.
  - vm_compute; reflexivity.
  - vm_compute; reflexivity.
  - vm_compute; reflexivity.
Defined.

(** The first circle of [runSet] judged 300: grade SS. *)
Lemma C2_grade_thresholds_witness :
  exists ss',
    cursors (runAfter 32) !! 1%positive = Some ss'
    /\ numObjects ss' = 1 /\ grade ss' = Grade.SS.
Proof.
  destruct (C2_grade_thresholds runSet 1000 1%positive (target Circle 0 400)
              0%Q 0%Q 32 ComboResults.Increase
              (the (fst <$> judge runSet 1000 Circle 0 400 32
                              ComboResults.Increase))
              [HitEvent 1%positive 1000 0 (0%Q, 0%Q) 32
                 ComboResults.Increase tt 300]
              (theSubSet runSet) 32 (0, 0))
    as (ss' & Hss' & Hn & Hgrade).
  - vm_compute; reflexivity.
  - vm_compute; reflexivity.
  - vm_compute; reflexivity.
  - vm_compute; reflexivity.
  - vm_compute; reflexivity.
  - vm_compute. split; [discriminate|reflexivity].
  - exists ss'. split; [exact Hss'|]. split; [exact Hn|].
    rewrite Hgrade. vm_compute in Hss'. injection Hss' as <-.
    vm_compute; reflexivity.
Defined.

(** After a 100 on the first circle the accuracy is 100 * 100 / 300. *)
Lemma C3_accuracy_invariant_witness :
  exists q,
    accuracy (theSubSet (the (fst <$> run (the (build runObjects 0))
                                       shortRun))) = Fnum q
    /\ (0 <= q <= 100)%Q.
Proof.
  destruct (C3_accuracy_invariant false
              {| HitObjects := runObjects; Diff := {| Mods := 0 |} |}
              [(1%positive, theCursor)] [0]
              (the (build runObjects 0)) shortRun
              (the (fst <$> run (the (build runObjects 0)) shortRun))
              [HitEvent 1%positive 1000 0 (0%Q, 0%Q) 16
                 ComboResults.Increase tt 100]
              1%positive
              (theSubSet (the (fst <$> run (the (build runObjects 0))
                                         shortRun))))
    as (_ & _ & _ & Hq).
  - exact scoreValue_bounded.
  - vm_compute; reflexivity.
  - vm_compute; reflexivity.
  - vm_compute; reflexivity.
  - vm_compute; reflexivity.
  - exact Hq.
Defined.

(** In [crossRun] the player gets a 300, a miss on the first circle of
    the second run and the 300 of the slider that closes the first run.
    Nothing is left in the tally when the 300 on the last circle closes
    the second run, and the targets before it, back to the missed
    circle, are resolved: Geki. *)
Lemma C4_combo_run_close_witness :
  (judgements crossStart 1%positive crossRun = [(0, 32); (2, 4); (1, 32)]
   /\ sinceClose crossSet (judgements crossStart 1%positive crossRun) = [])
  /\ exists ss',
       cursors (the (fst <$> crossClosed)) !! 1%positive = Some ss'
       /\ currentKatu ss' = 0 /\ currentBad ss' = 0
       /\ gekiCount ss' = 1 /\ katuCount ss' = 0.
Proof.
  split; [split; vm_compute; reflexivity|].
  pose proof (C4_combo_run_close false
                {| HitObjects := crossObjects; Diff := {| Mods := 0 |} |}
                [(1%positive, theCursor)] [0] crossStart crossRun crossSet
                crossEvents 3200 1%positive (target Circle 3 2600) 0%Q 0%Q
                32 ComboResults.Increase (the (fst <$> crossClosed))
                (default [] (snd <$> crossClosed)) (theSubSet crossSet)
                32 (scoreProcessor_ (theSubSet crossSet))) as Hthm.
  cbv zeta in Hthm.
  destruct Hthm as (_ & _ & _ & ss' & Hss' & Hk & Hb & Hg & Hkc & _).
  - vm_compute; reflexivity.
  - vm_compute; reflexivity.
  - vm_compute; reflexivity.
  - vm_compute; reflexivity.
  - vm_compute; reflexivity.
  - vm_compute; reflexivity.
  - vm_compute; reflexivity.
  - exists ss'. split; [exact Hss'|]. split; [exact Hk|]. split; [exact Hb|].
    split.
    + eapply eq_trans; [exact Hg|]. vm_compute; reflexivity.
    + eapply eq_trans; [exact Hkc|]. vm_compute; reflexivity.
Defined.

(** C4 as stated fails three times.  A miss and then a 300 that closes
    the run: the tier is Mu, the outcome is reported with the Mu flag
    (32 + 4096) and neither cumulative counter grows.  A 300 and then a
    miss that closes the run: the outcome is reported as the plain miss,
    without any tier flag.  In [crossRun] the first run is a circle and
    a slider, both judged 300, and the second run starts with a circle
    that is missed while the slider is still running: the 300 of the
    slider closes the first run as Mu (32 + 4096), and the 300 on the
    last circle closes the second run, which contains the miss, as Geki
    (32 + 16384) and adds to [gekiCount]. *)
Lemma C4_counterexample :
  (closesCombo (runAfter 4) 32 1 = Some true
   /\ snd <$> runClosed 4 32
      = Some [HitEvent 1%positive 1200 1 (0%Q, 0%Q) (Z.lor 32 MuAddition)
                ComboResults.Increase tt 300]
   /\ gekiCount (theSubSet (the (fst <$> runClosed 4 32)))
      = gekiCount (theSubSet (runAfter 4))
   /\ katuCount (theSubSet (the (fst <$> runClosed 4 32)))
      = katuCount (theSubSet (runAfter 4)))
  /\ (closesCombo (runAfter 32) Miss 1 = Some true
      /\ snd <$> runClosed 32 Miss
         = Some [HitEvent 1%positive 1200 1 (0%Q, 0%Q) Miss
                   ComboResults.Increase tt 300]
      /\ Z.land Miss (Z.lor (Z.lor GekiAddition KatuAddition) MuAddition)
         = 0)
  /\ (map IsNewCombo crossObjects = [true; false; true; false]
      /\ snd <$> run crossStart crossRun
         = Some [HitEvent 1%positive 1000 0 (0%Q, 0%Q) 32
                   ComboResults.Increase tt 300;
                 HitEvent 1%positive 1800 2 (0%Q, 0%Q) Miss
                   ComboResults.Reset tt 300;
                 HitEvent 1%positive 3000 1 (0%Q, 0%Q)
                   (Z.lor 32 MuAddition) ComboResults.Increase tt 600]
      /\ snd <$> crossClosed
         = Some [HitEvent 1%positive 3200 3 (0%Q, 0%Q)
                   (Z.lor 32 GekiAddition) ComboResults.Increase tt 900]
      /\ gekiCount (theSubSet crossSet) = 0
      /\ gekiCount (theSubSet (the (fst <$> crossClosed))) = 1).
Proof. repeat split; vm_compute; reflexivity. Qed.

(** With Easy the first fail signal takes one of the two recoveries. *)
Lemma C5_fail_signal_witness :
  failInternal (PPv2Results := unit) easySet (thePlayer easySet) =
  Some (with_cursors easySet
          (<[1%positive :=
               with_recoveries (with_hp (theSubSet easySet) 359) 1]>
             (cursors easySet)), []).
Proof.
  destruct (C5_fail_signal easySet (thePlayer easySet) (theSubSet easySet))
    as (_ & Hrec & _).
  - vm_compute; reflexivity.
  - vm_compute. split; [discriminate|reflexivity].
  - apply Hrec; vm_compute; reflexivity.
Defined.

(** Two cursors: [Update] visiting them as 1, 2 or as 2, 1. *)
Lemma C6_determinism_witness :
  fst <$> run (the twoCursors)
            (take 1 [DoUpdate [1%positive; 2%positive] 1000])
  = fst <$> run (the twoCursors)
              (take 1 [DoUpdate [2%positive; 1%positive] 1000]).
Proof.
  apply (C6_determinism false
           {| HitObjects := runObjects; Diff := {| Mods := 0 |} |}
           [(1%positive, theCursor); (2%positive, theCursor)] [0; 0]).
  - vm_compute; reflexivity.
  - vm_compute; reflexivity.
  - constructor; [|constructor]. apply sameUpdate. apply perm_swap.
Defined.

Lemma C7_slider_suppression_witness :
  clickCalls = map CallUpdateClickFor (processed sliderSet).
Proof.
  destruct (C7_slider_suppression (fun _ => theCursor) sliderSet 1%positive
              1000 false
              sliderSet [] normalCalls
              (editPlayer
                 (editPlayer sliderSet 1%positive (clickEdges theCursor))
                 1%positive (storeButtons theCursor))
              [] clickCalls) as [_ Hclick].
  - vm_compute; reflexivity.
  - vm_compute; reflexivity.
  - exact Hclick.
Defined.

(** C7 as stated fails: in [sliderSet] the first slider is not yet hit,
    and the click pass still offers the click to the second slider. *)
Lemma C7_counterexample :
  IsHit (targets sliderSet) (target Slider 0 400) (thePlayer sliderSet)
  = false
  /\ IsHit (targets sliderSet) (target Slider 1 600) (thePlayer sliderSet)
     = false
  /\ snd <$> UpdateClickFor (fun _ => theCursor) sliderSet 1%positive 1000
     = Some [CallUpdateClickFor (target Slider 0 400);
             CallUpdateClickFor (target Slider 1 600);
             CallUpdateClickFor (target Circle 2 700)].
Proof. repeat split; vm_compute; reflexivity. Qed.

Lemma C9_discarded_outcomes_witness :
  exists evs,
    judge runSet 1000 Circle 0 400 PositionalMiss ComboResults.Hold
    = Some (runSet, evs).
Proof.
  destruct (C9_discarded_outcomes runSet 1000 1%positive
              (target Circle 0 400) 0%Q 0%Q PositionalMiss
              ComboResults.Hold (theSubSet runSet))
    as (evs & Hrun & _).
  - vm_compute; reflexivity.
  - discriminate.
  - right; reflexivity.
  - exists evs. exact Hrun.
Defined.

(** C9 as stated fails: with Relax a positional miss is not reported to
    the registered hit listener. *)
Lemma C9_counterexample :
  hitListener relaxSet = true
  /\ judge relaxSet 1000 Circle 0 400 PositionalMiss ComboResults.Hold
     = Some (relaxSet, []).
Proof. split; vm_compute; reflexivity. Qed.

Lemma C10_IsPerfect_prefix_witness :
  IsPerfect (runAfter 32) 1%positive = Some true.
Proof.
  destruct (C10_IsPerfect_prefix (runAfter 32) 1%positive
              (theSubSet (runAfter 32))) as [Hprefix _].
  - vm_compute; reflexivity.
  - vm_compute; reflexivity.
  - vm_compute. split; [reflexivity|discriminate].
  - vm_compute. split; [discriminate|reflexivity].
  - rewrite Hprefix. vm_compute; reflexivity.
Defined.

(** C10 as stated fails: after a 300 on the first of three circles the
    player's max combo is 1, the sequence's total is 3, and [IsPerfect]
    answers true. *)
Lemma C10_counterexample :
  IsPerfect (runAfter 32) 1%positive = Some true
  /\ maxCombo (theSubSet (runAfter 32)) = 1
  /\ maxComboOf (HitObjects (beatMap (runAfter 32))) = 3.
Proof. repeat split; vm_compute; reflexivity. Qed.

(** *** The further properties on the reference instance *)

(** In [halfStarted] the first circle is active and the other two are
    queued.  At 700 the first circle is not done and stays, the second
    one is due and moves behind it, the third one stays queued. *)
Lemma X1_Update_activation_witness :
  (processed halfStarted = [target Circle 0 400]
   /\ processed laterSet = [target Circle 0 400; target Circle 1 600]
   /\ queue laterSet = [target Circle 2 800])
  /\ exists moved,
    processed laterSet =
      notDone (processed halfStarted)
        (postAnswers (Targets0 := retiring) 700 (processed halfStarted)
           (targets halfStarted)) ++ moved
    /\ queue halfStarted = moved ++ queue laterSet
    /\ sublist (notDone (processed halfStarted)
                  (postAnswers (Targets0 := retiring) 700
                     (processed halfStarted) (targets halfStarted)))
               (processed halfStarted)
    /\ Forall (fun g => GetFadeTime g <= 700) moved
    /\ (forall g, head (queue laterSet) = Some g -> 700 < GetFadeTime g).
Proof.
  split; [repeat split; vm_compute; reflexivity|].
  apply (X1_Update_activation (Targets0 := retiring) [1%positive]
           halfStarted 700 laterSet []).
  vm_compute; reflexivity.
Defined.

(** At 1500 the first circle is done: one end event, with its
    ordinal. *)
Lemma X2_Update_end_events_witness :
  exists removed,
    sublist removed (processed runSet)
    /\ [EndEvent 1500 0]
       = map (fun g => EndEvent (PPv2Results := unit) 1500 (GetNumber g))
           removed.
Proof.
  destruct (X2_Update_end_events (Targets0 := retiring) [1%positive]
              (SetEndListener runSet true) 1500 retiredSet
              [EndEvent 1500 0])
    as (keep & moved & removed & _ & _ & _ & Hsub & Hevs).
  - vm_compute; reflexivity.
  - exists removed. split; [exact Hsub|exact Hevs].
Defined.

(** After the frame at 3000 the map has ended and no target is left. *)
Lemma X3_ended_witness : queue endedSet = [] /\ processed endedSet = [].
Proof.
  destruct (X3_ended (Targets0 := retiring) false theMap
              [(1%positive, theCursor)] [0]
              (the (build runObjects 0)) wholeRun endedSet [])
    as (Hempty & _ & _).
  - vm_compute; reflexivity.
  - vm_compute; reflexivity.
  - apply Hempty. vm_compute; reflexivity.
Defined.

Lemma X4_targets_ascending_witness :
  ascending (processed halfStarted ++ queue halfStarted)
  /\ Forall (standsFor theMap) (processed halfStarted ++ queue halfStarted).
Proof.
  destruct (X4_targets_ascending false theMap [(1%positive, theCursor)] [0]
              (the (build runObjects 0))
              [DoSetListener true; DoSetFailListener true;
               DoSetEndListener true; DoUpdate [1%positive] 500]
              halfStarted [])
    as (_ & _ & _ & Hasc & Hfor).
  - vm_compute; reflexivity.
  - vm_compute; reflexivity.
  - split; [exact Hasc|exact Hfor].
Defined.

(** Over [fullRun] the max combo of the player goes from 0 to 2. *)
Lemma X5_maxCombo_monotone_witness :
  exists ss',
    cursors playedSet !! 1%positive = Some ss'
    /\ 0 <= maxCombo ss'
    /\ GetCombo (scoreProcessor_ ss') <= maxCombo ss'.
Proof.
  destruct (X5_maxCombo_monotone fullRun (the (build runObjects 0))
              playedSet fullEvents
              1%positive (theSubSet (the (build runObjects 0))))
    as (ss' & Hss' & Hle & Hcombo).
  - vm_compute; reflexivity.
  - vm_compute; reflexivity.
  - exists ss'. split; [exact Hss'|]. split; [exact Hle|].
    apply Hcombo. vm_compute. discriminate.
Defined.

(** After [fullRun] the three objects of [runObjects] are judged. *)
Lemma X6_numObjects_bounded_witness :
  0 <= numObjects (theSubSet playedSet) <= 3.
Proof.
  apply (X6_numObjects_bounded false theMap [(1%positive, theCursor)] [0]
           (the (build runObjects 0)) fullRun playedSet fullEvents
           1%positive (theSubSet playedSet)).
  - vm_compute; reflexivity.
  - vm_compute; reflexivity.
  - vm_compute; reflexivity.
  - vm_compute; reflexivity.
Defined.

(** A fourth counted judgement on the three objects panics. *)
Lemma X7_SendResult_overrun_witness :
  judge playedSet 1500 Circle 2 800 32 ComboResults.Increase = None.
Proof.
  apply (X7_SendResult_overrun false theMap [(1%positive, theCursor)] [0]
           (the (build runObjects 0)) fullRun playedSet fullEvents
           1500 1%positive (target Circle 2 800) 0%Q 0%Q 32
           ComboResults.Increase (theSubSet playedSet) 32 (400, 0)).
  - vm_compute; reflexivity.
  - vm_compute; reflexivity.
  - vm_compute; reflexivity.
  - vm_compute; reflexivity.
  - vm_compute; reflexivity.
  - vm_compute; reflexivity.
  - vm_compute; reflexivity.
  - vm_compute; reflexivity.
Defined.

(** [IsPerfect] on a fresh rule set panics. *)
Lemma X8_IsPerfect_defined_witness :
  IsPerfect (the (build runObjects 0)) 1%positive = None.
Proof.
  destruct (X8_IsPerfect_defined false theMap [(1%positive, theCursor)] [0]
              (the (build runObjects 0)) [] (the (build runObjects 0)) []
              1%positive (theSubSet (the (build runObjects 0))))
    as [Hfresh _].
  - vm_compute; reflexivity.
  - vm_compute; reflexivity.
  - vm_compute; reflexivity.
  - vm_compute; reflexivity.
  - apply Hfresh. vm_compute; reflexivity.
Defined.

(** The second miss of [failingRun] fails the player: one call of the
    fail listener. *)
Lemma X9_fail_listener_once_witness : hasFailed (failedSet 0) 1%positive.
Proof.
  destruct (X9_fail_listener_once failingRun (the (build runObjects 0))
              (failedSet 0) [FailEvent 1%positive] 1%positive)
    as [_ Hfailed].
  - vm_compute; reflexivity.
  - apply Hfailed. vm_compute; reflexivity.
Defined.

(** With Easy the second miss costs a recovery instead. *)
Lemma X10_recoveries_budget_witness :
  0 <= recoveries (theSubSet (failedSet 2))
  /\ recoveries (theSubSet (failedSet 2)) <= 2.
Proof.
  destruct (X10_recoveries_budget false theMap [(1%positive, theCursor)] [2]
              (the (build runObjects 2)) failingRun (failedSet 2) []
              1%positive (theSubSet (failedSet 2)))
    as (Hlow & Hhigh & _).
  - vm_compute; reflexivity.
  - vm_compute; reflexivity.
  - vm_compute; reflexivity.
  - split; [exact Hlow|exact Hhigh].
Defined.

(** With NoFail the two misses do not fail the player. *)
Lemma X11_immune_never_fails_witness :
  failed (theSubSet (failedSet 1)) = false.
Proof.
  destruct (X11_immune_never_fails false theMap [(1%positive, theCursor)]
              [1] (the (build runObjects 1)) failingRun (failedSet 1) []
              1%positive (theSubSet (failedSet 1)))
    as (Hfailed & _).
  - vm_compute; reflexivity.
  - vm_compute; reflexivity.
  - vm_compute; reflexivity.
  - vm_compute; reflexivity.
  - exact Hfailed.
Defined.

(** The click on the third circle of [stackSet] is ignored: the circle
    lies behind the unhit, stacked second one. *)
Lemma X12_Ignored_only_stacked_witness :
  isCircle (target Circle 2 600) = true
  /\ exists i prev o,
       processed stackSet !! S i = Some (target Circle 2 600)
       /\ processed stackSet !! i = Some prev
       /\ index (HitObjects (beatMap stackSet)) (GetNumber prev) = Some o
       /\ 0 < GetStackIndex o (Mods (diff (thePlayer stackSet)))
       /\ IsHit (targets stackSet) prev (thePlayer stackSet) = false.
Proof.
  apply (X12_Ignored_only_stacked stackSet 5000 (target Circle 2 600)
           (thePlayer stackSet)).
  vm_compute; reflexivity.
Defined.

Lemma X13_NewOsuRuleset_players_witness :
  (exists score,
     GetResults (the twoCursors) 2%positive
     = Some (Fnum 100, 0, score, Grade.NONE)
     /\ GetHits (the twoCursors) 2%positive = Some (0, 0, 0, 0, 0, 0))
  /\ GetResults (the twoCursors) 3%positive = None.
Proof.
  destruct (X13_NewOsuRuleset_players false theMap
              [(1%positive, theCursor); (2%positive, theCursor)] [0; 0]
              (the twoCursors) 2%positive) as [Hin _];
    [vm_compute; reflexivity|].
  destruct (X13_NewOsuRuleset_players false theMap
              [(1%positive, theCursor); (2%positive, theCursor)] [0; 0]
              (the twoCursors) 3%positive) as [_ Hout];
    [vm_compute; reflexivity|].
  split.
  - apply Hin. simpl. apply elem_of_cons. right.
    apply elem_of_cons. by left.
  - apply Hout. simpl. intros Hin'.
    apply elem_of_cons in Hin' as [?|Hin']; [discriminate|].
    apply elem_of_cons in Hin' as [?|Hin']; [discriminate|].
    by apply elem_of_nil in Hin'.
Defined.

Lemma X14_NewOsuRuleset_short_mods_witness :
  NewOsuRuleset false theMap
    [(1%positive, theCursor); (2%positive, theCursor)] [0] = None.
Proof.
  apply (X14_NewOsuRuleset_short_mods false theMap
           [(1%positive, theCursor); (2%positive, theCursor)] [0]).
  simpl; lia.
Defined.

Lemma X15_NewOsuRuleset_empty_beatmap_witness :
  NewOsuRuleset false {| HitObjects := []; Diff := {| Mods := 0 |} |}
    [(1%positive, theCursor)] [0] = None.
Proof.
  apply (X15_NewOsuRuleset_empty_beatmap false
           {| HitObjects := []; Diff := {| Mods := 0 |} |}
           [(1%positive, theCursor)] [0]).
  - reflexivity.
  - discriminate.
  - intros d. reflexivity.
Defined.

Lemma X16_NewOsuRuleset_returns_witness :
  is_Some (NewOsuRuleset false theMap
             [(1%positive, theCursor); (2%positive, theCursor)] [0; 0]).
Proof.
  apply (X16_NewOsuRuleset_returns false theMap
           [(1%positive, theCursor); (2%positive, theCursor)] [0; 0]).
  - simpl; lia.
  - intros d. vm_compute. discriminate.
Defined.

(** A judgement on the first circle of [runSet] returns. *)
Lemma X17_SendResult_returns_witness :
  is_Some (judge runSet 1000 Circle 0 400 32 ComboResults.Increase).
Proof.
  apply (X17_SendResult_returns false theMap [(1%positive, theCursor)] [0]
           (the (build runObjects 0))
           [DoSetListener true; DoSetFailListener true;
            DoUpdate [1%positive] 1000]
           runSet [] 1000 1%positive (target Circle 0 400) 0%Q 0%Q 32
           ComboResults.Increase (theSubSet runSet)).
  - vm_compute; reflexivity.
  - vm_compute; reflexivity.
  - vm_compute; reflexivity.
  - intros d. vm_compute; reflexivity.
  - vm_compute; reflexivity.
  - vm_compute; reflexivity.
  - vm_compute; reflexivity.
  - vm_compute. discriminate.
Defined.

(** [runSet] has no cursor 7. *)
Lemma X18_unknown_cursor_witness :
  SendResult runSet 1000 7%positive (target Circle 0 400) 0%Q 0%Q 32
    ComboResults.Increase = None
  /\ GetResults runSet 7%positive = None.
Proof.
  destruct (X18_unknown_cursor (fun _ => theCursor) runSet 1000 7%positive
              (target Circle 0 400) 0%Q 0%Q 32 ComboResults.Increase false)
    as (Hsend & _ & _ & _ & Hresults & _).
  - vm_compute; reflexivity.
  - split; [exact Hsend|exact Hresults].
Defined.

(** The motion pass on [sliderSet] updates the first slider and the
    circle. *)
Lemma X19_passes_visit_witness :
  List.filter (fun g => negb (isSlider g)) (omap updatedBy normalCalls)
  = List.filter (fun g => negb (isSlider g)) (processed sliderSet).
Proof.
  destruct (X19_passes_visit sliderSet 1%positive 1000 false)
    as [_ Hnormal].
  destruct (Hnormal sliderSet [] normalCalls) as (_ & Hfilter & _).
  - vm_compute; reflexivity.
  - exact Hfilter.
Defined.

(** After the click pass with the left button down, the same buttons in
    the next frame are no click. *)
Lemma X20_click_consumed_witness :
  leftCond (clickEdges theCursor (thePlayer clickedSet)) = false.
Proof.
  destruct (X20_click_consumed (fun _ => theCursor) sliderSet 1%positive
              1000 (theSubSet sliderSet) clickedSet [] clickCalls
              (theSubSet clickedSet))
    as (_ & Hleft & _).
  - vm_compute; reflexivity.
  - vm_compute; reflexivity.
  - vm_compute; reflexivity.
  - vm_compute; reflexivity.
  - exact Hleft.
Defined.

(** Of ten objects, nine 300s without a 50 are an A where eight 300s
    and a 50 are a B. *)
Lemma X21_grade_monotone_witness :
  gradeRank (computeGrade 8 1 0 10 0) <= gradeRank (computeGrade 9 0 0 10 0).
Proof.
  apply (X21_grade_monotone 8 1 0 9 0 0 10 0); lia.
Defined.

Lemma X22_silent_without_listeners_witness :
  snd <$> run (the (build runObjects 0)) quietRun = Some [].
Proof.
  destruct (run (the (build runObjects 0)) quietRun) as [[set' evs]|] eqn:Hrun;
    [|vm_compute in Hrun; discriminate].
  destruct (X22_silent_without_listeners quietRun (the (build runObjects 0))
              set' evs) as [-> _].
  - vm_compute. repeat split.
  - repeat constructor.
  - exact Hrun.
  - reflexivity.
Defined.

(** The second entry of the prefix table of [sliderObjects] counts two
    objects, both sliders. *)
Lemma X23_mapStats_counts_witness :
  MapTo.nobjects (default zeroMapTo (mapStats sliderSet !! 1%nat)) = 2
  /\ MapTo.nsliders (default zeroMapTo (mapStats sliderSet !! 1%nat)) = 2.
Proof.
  destruct (X23_mapStats_counts false
              {| HitObjects := sliderObjects; Diff := {| Mods := 0 |} |}
              [(1%positive, theCursor)] [0]
              (the (build sliderObjects 0))
              [DoSetListener true; DoSetFailListener true;
               DoUpdate [1%positive] 1000]
              sliderSet [] 1%nat
              (default zeroMapTo (mapStats sliderSet !! 1%nat)))
    as (Hn & _ & Hs).
  - vm_compute; reflexivity.
  - vm_compute; reflexivity.
  - vm_compute; reflexivity.
  - vm_compute; reflexivity.
  - split; [exact Hn|exact Hs].
Defined.

Lemma X24_allClicked_in_runs_witness :
  is_Some (allClicked runSet (thePlayer runSet) 1).
Proof.
  destruct (X24_allClicked_in_runs false theMap [(1%positive, theCursor)] [0]
              (the (build runObjects 0))
              [DoSetListener true; DoSetFailListener true;
               DoUpdate [1%positive] 1000]
              runSet [] (thePlayer runSet) 1)
    as (earlier & later & _ & _ & _ & Hclicked).
  - vm_compute; reflexivity.
  - vm_compute; reflexivity.
  - rewrite Hclicked. by eexists.
Defined.

(** Both cursors of [twoCursors] fail in the two-hundredth frame: the
    fail listener is called for them in the order of the frame. *)
Lemma X26_events_up_to_order_witness :
  exists evs2,
    run (the twoCursors) (drain [2%positive; 1%positive])
    = Some (drainedSet, evs2)
    /\ [FailEvent 1%positive; FailEvent 2%positive] ≡ₚ evs2.
Proof.
  destruct (X26_events_up_to_order false theMap
              [(1%positive, theCursor); (2%positive, theCursor)] [0; 0]
              (the twoCursors)
              (drain [1%positive; 2%positive])
              (drain [2%positive; 1%positive])
              drainedSet [FailEvent 1%positive; FailEvent 2%positive])
    as (evs2 & Hrun & Hperm & _).
  - vm_compute; reflexivity.
  - constructor; [apply sameOther|].
    apply Forall2_replicate. apply sameUpdate. apply perm_swap.
  - vm_compute; reflexivity.
  - exists evs2. split; [exact Hrun|exact Hperm].
Defined.

Lemma X25_hit_counts_witness :
  0 <= hit_count (theSubSet playedSet) 32 <= numObjects (theSubSet playedSet).
Proof.
  destruct (X25_hit_counts false theMap [(1%positive, theCursor)] [0]
              (the (build runObjects 0)) fullRun playedSet fullEvents
              1%positive (theSubSet playedSet)) as [_ Hcount].
  - vm_compute; reflexivity.
  - vm_compute; reflexivity.
  - vm_compute; reflexivity.
  - vm_compute; reflexivity.
  - apply Hcount.
Defined.

Lemma X27_GetPlayer_witness :
  exists pl,
    GetPlayer (the twoCursors) 2%positive = Some pl
    /\ cursor pl = 2%positive.
Proof.
  destruct (X27_GetPlayer false theMap
              [(1%positive, theCursor); (2%positive, theCursor)] [0; 0]
              (the twoCursors) [] (the twoCursors) [] 1%nat 2%positive
              theCursor 0) as (_ & pl & Hpl & Hcur & _).
  - vm_compute; reflexivity.
  - vm_compute; reflexivity.
  - repeat constructor; simpl; intros Hin;
      repeat (apply elem_of_cons in Hin as [?|Hin]; [discriminate|]);
      by apply elem_of_nil in Hin.
  - reflexivity.
  - reflexivity.
  - exists pl. split; [exact Hpl|exact Hcur].
Defined.

(** The miss of cursor 1 in [twoCursors] leaves cursor 2 as it was. *)
Lemma X28_SendResult_isolation_witness :
  cursors missedSet !! 2%positive = cursors (the twoCursors) !! 2%positive.
Proof.
  destruct (X28_SendResult_isolation false theMap
              [(1%positive, theCursor); (2%positive, theCursor)] [0; 0]
              (the twoCursors) [] (the twoCursors) []
              1000 1%positive (target Circle 0 400) 0%Q 0%Q 4
              ComboResults.Reset missedSet [] 2%positive)
    as (_ & Hother & _).
  - vm_compute; reflexivity.
  - vm_compute; reflexivity.
  - vm_compute; reflexivity.
  - discriminate.
  - exact Hother.
Defined.

(** After a 300 on the first circle the player has an SS. *)
Lemma X29_grade_best_witness :
  grade (theSubSet (runAfter 32)) = Grade.SS
  \/ grade (theSubSet (runAfter 32)) = Grade.SSH.
Proof.
  destruct (X29_grade_best false theMap [(1%positive, theCursor)] [0]
              (the (build runObjects 0))
              [DoSetListener true; DoSetFailListener true;
               DoUpdate [1%positive] 1000;
               DoSendResult 1000 1%positive (target Circle 0 400) 0%Q 0%Q 32
                 ComboResults.Increase;
               DoTargets [(1%positive, 1%positive)]]
              (runAfter 32)
              [HitEvent 1%positive 1000 0 (0%Q, 0%Q) 32
                 ComboResults.Increase tt 300]
              1%positive (theSubSet (runAfter 32))) as [_ Hbest].
  - vm_compute; reflexivity.
  - vm_compute; reflexivity.
  - vm_compute; reflexivity.
  - vm_compute; reflexivity.
  - vm_compute. discriminate.
  - apply Hbest. intros r Hr. unfold hit_count.
    replace (hits (theSubSet (runAfter 32))) with (<[32 := 1]> (∅ : gmap Z Z))
      by (vm_compute; reflexivity).
    rewrite lookup_insert_ne by (intros Heq; apply Hr; symmetry; exact Heq).
    reflexivity.
Defined.

(** The 300 on the first circle of [runSet] is reported with the score
    300 that [GetResults] returns afterwards. *)
Lemma X30_hit_listener_agrees_witness :
  exists fails r pp score acc combo rank,
    [HitEvent 1%positive 1000 0 (0%Q, 0%Q) 32 ComboResults.Increase tt 300]
    = fails ++ [HitEvent 1%positive 1000 (GetNumber (target Circle 0 400))
                  (0%Q, 0%Q) r ComboResults.Increase pp score]
    /\ Forall (fun e => isFailEvent e = true) fails
    /\ GetResults (runAfter 32) 1%positive = Some (acc, combo, score, rank)
    /\ GetPP (runAfter 32) 1%positive = Some pp.
Proof.
  destruct (X30_hit_listener_agrees false theMap [(1%positive, theCursor)]
              [0] (the (build runObjects 0))
              [DoSetListener true; DoSetFailListener true;
               DoUpdate [1%positive] 1000]
              runSet [] 1000 1%positive (target Circle 0 400) 0%Q 0%Q 32
              ComboResults.Increase
              (the (fst <$> judge runSet 1000 Circle 0 400 32
                              ComboResults.Increase))
              [HitEvent 1%positive 1000 0 (0%Q, 0%Q) 32
                 ComboResults.Increase tt 300])
    as (fails & r & pp & score & acc & combo & rank & Hevs & Hfails & Hres
        & Hpp).
  - vm_compute; reflexivity.
  - vm_compute; reflexivity.
  - vm_compute; reflexivity.
  - vm_compute; reflexivity.
  - vm_compute; reflexivity.
  - exists fails, r, pp, score, acc, combo, rank.
    split; [exact Hevs|]. split; [exact Hfails|].
    split; [exact Hres|exact Hpp].
Defined.

End Examples.
